(** * Composition models of maaf (src/maaf/models/composition_models.py)

    A shallow embedding of the forward computations of the composers
    (Addition, MAAF, ResidualMAAF, TIRG), of the feature extraction policy of
    ImgTextCompositionBase and of MixedPositionalEncoder, over a small model
    of the tensor operations they call. *)

From Stdlib Require Import String.
From Stdlib Require Import List ZArith Lia Bool Arith QArith Qcanon.
Import ListNotations.
Local Open Scope string_scope.
Local Open Scope list_scope.
Local Open Scope nat_scope.

(** ** Errors and results *)

(** The exceptions the modelled code can raise: the [assert] of the source
    (with its message) and the errors of the tensor library and of Python's
    own look-ups. *)
Inductive error : Type :=
| AssertionError (msg : string)
| RuntimeError (msg : string)
| IndexError (msg : string)
| AttributeError (msg : string)
| KeyError (key : string)
| TypeError (msg : string)
| ZeroDivisionError (msg : string).

Inductive result (A : Type) : Type :=
| Ok (a : A)
| Err (e : error).
Arguments Ok {A} a.
Arguments Err {A} e.

Definition bind {A B : Type} (r : result A) (k : A -> result B) : result B :=
  match r with
  | Ok a => k a
  | Err e => Err e
  end.

Notation "x <- r ;; k" := (bind r (fun x => k))
  (at level 61, r at next level, right associativity).

(** ** Scalars *)

(** The floating-point element type of the embeddings is kept abstract: the
    operations the source applies to it, and nothing about them.  Laws are
    assumed only by the theorems that name them. *)
Class Scalar (F : Type) : Type := {
  f0 : F;
  fadd : F -> F -> F;
  fmul : F -> F -> F;
  fdiv : F -> F -> F;
  of_Z : Z -> F;
  fneg : F -> F;
  fsigmoid : F -> F;
  fsin : F -> F;
  fcos : F -> F;
  fexp : F -> F;
  (** [math.log(10000.0)] *)
  ln10000 : F
}.

(** A default element, returned by out-of-range reads of the model (the
    source never performs one: the tensor library raises first). *)
Class Dflt (A : Type) : Type := dflt : A.
#[export] Instance Dflt_Z : Dflt Z := 0%Z.
#[export] Instance Dflt_bool : Dflt bool := false.
#[export] Instance Dflt_scalar {F : Type} {S : Scalar F} : Dflt F := @f0 F S.

(** ** Tensors *)

Module Torch.

(** A tensor is a shape and its elements in row-major order. *)
Record tensor (A : Type) : Type := mkTensor {
  shape : list nat;
  data : list A
}.
Arguments mkTensor {A} shape data.
Arguments shape {A} t.
Arguments data {A} t.

Definition numel (sh : list nat) : nat := fold_right Nat.mul 1 sh.

Definition wf {A : Type} (x : tensor A) : Prop :=
  length (data x) = numel (shape x).

Fixpoint ravel (sh idx : list nat) : nat :=
  match sh, idx with
  | _ :: sh', i :: idx' => i * numel sh' + ravel sh' idx'
  | _, _ => 0
  end.

Fixpoint unravel (sh : list nat) (k : nat) : list nat :=
  match sh with
  | [] => []
  | _ :: sh' => (k / numel sh') :: unravel sh' (k mod numel sh')
  end.

Fixpoint in_range (sh idx : list nat) : bool :=
  match sh, idx with
  | [], [] => true
  | d :: sh', i :: idx' => (i <? d) && in_range sh' idx'
  | _, _ => false
  end.

Definition item {A : Type} `{Dflt A} (x : tensor A) (idx : list nat) : A :=
  nth (ravel (shape x) idx) (data x) dflt.

Definition tabulate {A : Type} (sh : list nat) (f : list nat -> A) : tensor A :=
  mkTensor sh (map (fun k => f (unravel sh k)) (seq 0 (numel sh))).

Definition tmap {A B : Type} (f : A -> B) (x : tensor A) : tensor B :=
  mkTensor (shape x) (map f (data x)).

(** [torch.ones] at dtype [torch.long], of shape [sh]. *)
Definition ones (sh : list nat) : tensor Z := tabulate sh (fun _ => 1%Z).

(** *** Broadcasting *)

Definition bdim (n m : nat) : option nat :=
  if n =? m then Some n
  else if n =? 1 then Some m
  else if m =? 1 then Some n
  else None.

(** Shapes are aligned from the last dimension: the arguments are reversed
    shapes. *)
Fixpoint bshape_rev (s1 s2 : list nat) : option (list nat) :=
  match s1, s2 with
  | [], s => Some s
  | s, [] => Some s
  | a :: s1', b :: s2' =>
      match bdim a b, bshape_rev s1' s2' with
      | Some d, Some s => Some (d :: s)
      | _, _ => None
      end
  end.

Definition broadcast_shapes (s1 s2 : list nat) : option (list nat) :=
  option_map (@rev nat) (bshape_rev (rev s1) (rev s2)).

(** The index of an operand of shape [sh] read at index [idx] of the
    broadcast result. *)
Definition bidx (sh idx : list nat) : list nat :=
  map (fun di => if fst di =? 1 then 0 else snd di)
      (combine sh (skipn (length idx - length sh) idx)).

Definition binop {A B C : Type} `{Dflt A} `{Dflt B}
    (f : A -> B -> C) (x : tensor A) (y : tensor B) : result (tensor C) :=
  match broadcast_shapes (shape x) (shape y) with
  | Some sh =>
      Ok (tabulate sh (fun idx =>
            f (item x (bidx (shape x) idx)) (item y (bidx (shape y) idx))))
  | None => Err (RuntimeError "shapes cannot be broadcast")
  end.

(** *** Indexing along one dimension *)

Fixpoint upd (dim : nat) (f : nat -> nat) (l : list nat) : list nat :=
  match l, dim with
  | [], _ => []
  | a :: l', 0 => f a :: l'
  | a :: l', S dim' => a :: upd dim' f l'
  end.

Fixpoint insert_at (dim : nat) (j : nat) (l : list nat) : list nat :=
  match dim, l with
  | 0, _ => j :: l
  | S dim', a :: l' => a :: insert_at dim' j l'
  | S _, [] => [j]
  end.

Fixpoint remove_at (dim : nat) (l : list nat) : list nat :=
  match l, dim with
  | [], _ => []
  | _ :: l', 0 => l'
  | a :: l', S dim' => a :: remove_at dim' l'
  end.

Definition rank {A : Type} (x : tensor A) : nat := length (shape x).

(** [x.size(dim)] *)
Definition size {A : Type} (x : tensor A) (dim : nat) : nat :=
  nth dim (shape x) 0.

Definition shape_eqb (s1 s2 : list nat) : bool :=
  if list_eq_dec Nat.eq_dec s1 s2 then true else false.

(** The positions [start, start + len) of dimension [dim]. *)
Definition narrow {A : Type} `{Dflt A}
    (dim start len : nat) (x : tensor A) : tensor A :=
  tabulate (upd dim (fun _ => len) (shape x))
           (fun idx => item x (upd dim (fun j => start + j) idx)).

(** [x[:, :n]] with Python's clamping of the stop index. *)
Definition slice1_to {A : Type} `{Dflt A}
    (n : nat) (x : tensor A) : result (tensor A) :=
  if 2 <=? rank x
  then Ok (narrow 1 0 (Nat.min n (size x 1)) x)
  else Err (IndexError "too many indices for tensor").

(** [x[:, -n:]]: Python reads the start [-n] from the end of the axis,
    clamped at its beginning; [-0] is [0], the beginning of the axis. *)
Definition slice1_last {A : Type} `{Dflt A}
    (n : nat) (x : tensor A) : result (tensor A) :=
  if 2 <=? rank x
  then let start := if n =? 0 then 0 else size x 1 - n in
       Ok (narrow 1 start (size x 1 - start) x)
  else Err (IndexError "too many indices for tensor").

(** [a[k]] on a tensor of one dimension or more: the sub-tensor at
    position [k] of dimension 0. *)
Definition select0 {A : Type} `{Dflt A}
    (k : nat) (x : tensor A) : result (tensor A) :=
  match shape x with
  | [] => Err (IndexError "invalid index of a 0-dim tensor")
  | d :: sh =>
      if k <? d then Ok (tabulate sh (fun idx => item x (k :: idx)))
      else Err (IndexError "index out of range")
  end.

(** [x.shape[dim]] and [x.size(dim)] *)
Definition dim_size {A : Type} (x : tensor A) (dim : nat) : result nat :=
  if dim <? rank x then Ok (size x dim)
  else Err (IndexError "dimension out of range").

(** [pe[:, start::2] = value]: the columns [start], [start + 2], ... of a
    matrix take the columns of [value], which must broadcast to their
    shape. *)
Definition assign_stride2 {A : Type} `{Dflt A}
    (start : nat) (pe value : tensor A) : result (tensor A) :=
  match shape pe with
  | [rows; cols] =>
      let target := [rows; (cols - start + 1) / 2] in
      match broadcast_shapes (shape value) target with
      | Some sh =>
          if shape_eqb sh target
          then Ok (tabulate (shape pe) (fun idx =>
                 match idx with
                 | [r; c] =>
                     if (start <=? c) && Nat.even (c - start)
                     then item value (bidx (shape value) [r; (c - start) / 2])
                     else item pe idx
                 | _ => item pe idx
                 end))
          else Err (RuntimeError "shape mismatch: value cannot be broadcast to indexing result")
      | None => Err (RuntimeError "shape mismatch: value cannot be broadcast to indexing result")
      end
  | _ => Err (IndexError "too many indices for tensor")
  end.

(** *** Concatenation and stacking *)

Definition cat2 {A : Type} `{Dflt A}
    (dim : nat) (x y : tensor A) : result (tensor A) :=
  if shape_eqb (upd dim (fun _ => 0) (shape x)) (upd dim (fun _ => 0) (shape y))
  then Ok (tabulate (upd dim (fun d => d + size y dim) (shape x))
             (fun idx => if nth dim idx 0 <? size x dim then item x idx
                         else item y (upd dim (fun j => j - size x dim) idx)))
  else Err (RuntimeError "sizes of tensors must match except in the cat dimension").

(** [torch.cat(ts, dim)] *)
Definition cat {A : Type} `{Dflt A}
    (ts : list (tensor A)) (dim : nat) : result (tensor A) :=
  match ts with
  | [] => Err (RuntimeError "expected a non-empty list of tensors")
  | t :: rest =>
      if dim <? rank t
      then fold_left (fun acc u => a <- acc ;; cat2 dim a u) rest (Ok t)
      else Err (IndexError "dimension out of range")
  end.

(** [torch.stack(ts)], along a new dimension 0. *)
Definition stack {A : Type} (ts : list (tensor A)) : result (tensor A) :=
  match ts with
  | [] => Err (RuntimeError "stack expects a non-empty list of tensors")
  | t :: rest =>
      if forallb (fun u => shape_eqb (shape u) (shape t)) rest
      then Ok (mkTensor (length ts :: shape t) (concat (map data ts)))
      else Err (RuntimeError "stack expects each tensor to be of equal size")
  end.

(** *** Views *)

(** [x.unsqueeze(dim)]: the same elements under a shape with one more
    dimension of size 1. *)
Definition unsqueeze {A : Type} (dim : nat) (x : tensor A) : result (tensor A) :=
  if dim <=? rank x
  then Ok (mkTensor (insert_at dim 1 (shape x)) (data x))
  else Err (IndexError "dimension out of range").

(** [x.view(-1, d)]: the same elements under the shape [[n / d; d]] where
    [n] is their number. *)
Definition view_rows {A : Type} (d : nat) (x : tensor A) : result (tensor A) :=
  let n := numel (shape x) in
  if d =? 0 then Err (RuntimeError "the unspecified dimension is ambiguous")
  else if n mod d =? 0 then Ok (mkTensor [n / d; d] (data x))
  else Err (RuntimeError "shape is invalid for input size").

(** [x.transpose(-2, -1)] *)
Definition swap_last2 (l : list nat) : list nat :=
  match rev l with
  | a :: b :: r => rev (b :: a :: r)
  | _ => l
  end.

Definition transpose_last2 {A : Type} `{Dflt A}
    (x : tensor A) : result (tensor A) :=
  if 2 <=? rank x
  then Ok (tabulate (swap_last2 (shape x)) (fun idx => item x (swap_last2 idx)))
  else Err (IndexError "dimension out of range").

(** *** Masks *)

(** [x == 0] and [x != 0] on an integer tensor. *)
Definition eq0 (x : tensor Z) : tensor bool := tmap (fun z => Z.eqb z 0) x.
Definition ne0 (x : tensor Z) : tensor bool := tmap (fun z => negb (Z.eqb z 0)) x.

(** [x.masked_fill(mask, v)], out of place: the tensor and the mask are
    broadcast together, and the result has their common shape. *)
Definition masked_fill {A : Type} `{Dflt A}
    (x : tensor A) (mask : tensor bool) (v : A) : result (tensor A) :=
  match broadcast_shapes (shape x) (shape mask) with
  | Some sh =>
      Ok (tabulate sh (fun idx =>
            if item mask (bidx (shape mask) idx) then v
            else item x (bidx (shape x) idx)))
  | None => Err (RuntimeError "shapes cannot be broadcast")
  end.

(** *** Reductions *)

(** The sum over dimension [dim], accumulated from [zero] in index order. *)
Definition reduce_sum {A : Type} `{Dflt A} (add : A -> A -> A) (zero : A)
    (dim : nat) (x : tensor A) : result (tensor A) :=
  if dim <? rank x
  then Ok (tabulate (remove_at dim (shape x)) (fun idx =>
             fold_left (fun acc j => add acc (item x (insert_at dim j idx)))
                       (seq 0 (size x dim)) zero))
  else Err (IndexError "dimension out of range").

(** [x.sum(dim)] on a boolean tensor: the count of true entries, an integer. *)
Definition sum_bool (dim : nat) (x : tensor bool) : result (tensor Z) :=
  reduce_sum Z.add 0%Z dim (tmap (fun b : bool => if b then 1%Z else 0%Z) x).

Section Float.
Context {F : Type} {S : Scalar F}.

(** [torch.sum(x, dim)] *)
Definition sum (dim : nat) (x : tensor F) : result (tensor F) :=
  reduce_sum fadd f0 dim x.

(** [torch.mean(x, dim)]: the sum divided by the size of the dimension. *)
Definition mean (dim : nat) (x : tensor F) : result (tensor F) :=
  s <- sum dim x ;;
  Ok (tmap (fun v => fdiv v (of_Z (Z.of_nat (size x dim)))) s).

(** [x.float()] on an integer tensor. *)
Definition float (x : tensor Z) : tensor F := tmap of_Z x.

Definition add (x y : tensor F) : result (tensor F) := binop fadd x y.
Definition mul (x y : tensor F) : result (tensor F) := binop fmul x y.
Definition div (x y : tensor F) : result (tensor F) := binop fdiv x y.
Definition sigmoid (x : tensor F) : tensor F := tmap fsigmoid x.
End Float.

End Torch.

Import Torch.

(** ** ImgTextCompositionBase *)

Module ImgTextCompositionBase.
Section Base.
Context {F : Type} {S : Scalar F}.
(** Raw images and texts, opaque to the composers. *)
Variables Img Txt : Type.

(** What an image backbone returns: a mapping from feature names to
    tensors, in insertion order; the default backbone
    [lambda xx: None] returns [None]. *)
Inductive image_out : Type :=
| ImgNone
| ImgDict (kv : list (string * tensor F)).

(** What a text backbone returns: [None] (the default backbone), a plain
    embedding, or an (embedding, mask) pair. *)
Inductive text_out : Type :=
| TextNone
| TextPlain (emb : tensor F)
| TextMasked (emb : tensor F) (mask : tensor Z).

(** The backbone invocations a call performs, in order. *)
Inductive call : Type :=
| CallImageModel (imgs : list (option Img))
| CallTextModel (texts : list (option Txt)).

Variable image_model : list (option Img) -> image_out.
Variable text_model : list (option Txt) -> text_out.

(** [all([x is None for x in xs])] *)
Definition all_none {A : Type} (xs : list (option A)) : bool :=
  forallb (fun x => match x with None => true | Some _ => false end) xs.

(** [d[key]] *)
Fixpoint getitem (kv : list (string * tensor F)) (key : string)
    : result (tensor F) :=
  match kv with
  | [] => Err (KeyError key)
  | (k, v) :: kv' => if String.eqb k key then Ok v else getitem kv' key
  end.

(** [list(d.values())[-1]] *)
Definition last_value (kv : list (string * tensor F)) : result (tensor F) :=
  match rev kv with
  | [] => Err (IndexError "list index out of range")
  | (_, v) :: _ => Ok v
  end.

Definition extract_img_feature (imgs : list (option Img))
    : list call * result (option (tensor F)) :=
  if all_none imgs then ([], Ok None)
  else ([CallImageModel imgs],
        match image_model imgs with
        | ImgNone => Err (AttributeError "'NoneType' object has no attribute 'values'")
        | ImgDict kv => v <- last_value kv ;; Ok (Some v)
        end).

Definition extract_text_feature (texts : list (option Txt))
    : list call * text_out :=
  if all_none texts then ([], TextNone)
  else ([CallTextModel texts], text_model texts).
End Base.
End ImgTextCompositionBase.

(** ** Addition *)

Module Addition.
Section Addition.
Context {F : Type} {S : Scalar F}.

(** Returns what the call prints and its outcome. *)
Definition compose (img_emb text_emb : option (tensor F))
    : list string * result (tensor F) :=
  (["======Addition======"],
   match img_emb, text_emb with
   | None, None => Err (AssertionError "No images or text available")
   | None, Some t => Ok t
   | Some i, None => Ok i
   | Some i, Some t => Torch.add i t
   end).
End Addition.
End Addition.

(** ** MixedPositionalEncoder *)

Module MixedPositionalEncoder.
Section Mixed.
Context {F : Type} {S : Scalar F}.
(** The encoder the positional encoder wraps, and [torch.nn.Dropout]. *)
Variable encoder : tensor F -> tensor Z -> result (tensor F).
Variable dropout : tensor F -> tensor F.
(** The values [kaiming_uniform_] leaves in [learned_encodings]. *)
Variable learned_init : list nat -> F.

(** The fixed table [pe] of [__init__]. *)
Definition sinusoidal_table (embed_dim max_len : nat) : result (tensor F) :=
  let pe := tabulate [max_len; embed_dim] (fun _ => f0) in
  let position : tensor F :=
    tabulate [max_len; 1] (fun idx => of_Z (Z.of_nat (nth 0 idx 0))) in
  scale <- (if embed_dim =? 0
            then Err (ZeroDivisionError "float division by zero")
            else Ok (fneg (fdiv ln10000 (of_Z (Z.of_nat embed_dim))))) ;;
  let div_term : tensor F :=
    tabulate [(embed_dim + 1) / 2]
             (fun idx => fexp (fmul (of_Z (Z.of_nat (2 * nth 0 idx 0))) scale)) in
  angles <- Torch.mul position div_term ;;
  pe <- assign_stride2 0 pe (tmap fsin angles) ;;
  angles <- Torch.mul position div_term ;;
  assign_stride2 1 pe (tmap fcos angles).

Record t : Type := mk {
  learned_encodings : tensor F;
  pe : tensor F;
  pos_embed : tensor F
}.

(** [__init__(encoder, learned_positions, embed_dim, dropout, max_len)] *)
Definition init (learned_positions embed_dim max_len : nat) : result t :=
  let learned := tabulate [learned_positions; embed_dim] learned_init in
  pe <- sinusoidal_table embed_dim max_len ;;
  table <- cat [learned; pe] 0 ;;
  pos_embed <- unsqueeze 0 table ;;
  Ok (mk learned pe pos_embed).

Definition forward (self : t) (xx : tensor F) (mask : tensor Z)
    : result (tensor F) :=
  seq_len <- dim_size xx 1 ;;
  rows <- slice1_to seq_len (pos_embed self) ;;
  xx <- Torch.add xx rows ;;
  encoder (dropout xx) mask.

(** Modelled from the spec: the pure sinusoidal positional encoder
    ([PositionalEncoder] over [PositionalEncoding], of transformer.py,
    which is not among the sources): the table [pe] is added elementwise
    to the embeddings, broadcast over the batch, followed by dropout, then
    passed to the encoder. *)
Definition sinusoidal_forward (embed_dim max_len : nat)
    (xx : tensor F) (mask : tensor Z) : result (tensor F) :=
  pe <- sinusoidal_table embed_dim max_len ;;
  pe <- unsqueeze 0 pe ;;
  seq_len <- dim_size xx 1 ;;
  rows <- slice1_to seq_len pe ;;
  xx <- Torch.add xx rows ;;
  encoder (dropout xx) mask.
End Mixed.
End MixedPositionalEncoder.

(** ** MAAF *)

Module MAAF.
Section MAAF.
Context {F : Type} {S : Scalar F}.
Variables Img Txt : Type.

(** [self.model]: the encoder stack, behind the positional encoder when
    one is configured (transformer.py, not among the sources). *)
Variable model : tensor F -> tensor Z -> result (tensor F).
(** [self.output] *)
Variable output : string.
(** [self.image_model] and its [resolutionwise_pool]. *)
Variable image_model :
  list (option Img) -> @ImgTextCompositionBase.image_out F.
Variable resolutionwise_pool : tensor F -> result (tensor F).

Definition extract_img_feature (imgs : list (option Img))
    : list (ImgTextCompositionBase.call Img Txt)
      * result (option (tensor F)) :=
  if ImgTextCompositionBase.all_none imgs then ([], Ok None)
  else ([ImgTextCompositionBase.CallImageModel Img Txt imgs],
        match image_model imgs with
        | ImgTextCompositionBase.ImgNone =>
            Err (TypeError "'NoneType' object is not subscriptable")
        | ImgTextCompositionBase.ImgDict kv =>
            v <- ImgTextCompositionBase.getitem kv "projections" ;; Ok (Some v)
        end).

Definition pool_image (xx : tensor F) : result (tensor F) :=
  if String.eqb output "rwpool" then resolutionwise_pool xx
  else Torch.mean 1 xx.

Definition pool_text (xx : tensor F) (text_mask : tensor Z)
    : result (tensor F) :=
  (* average pool ignoring the masked entries *)
  xx <- transpose_last2 xx ;;
  embed_dim <- dim_size xx 1 ;;
  mask <- unsqueeze 1 text_mask ;;
  xx <- masked_fill xx (eq0 mask) f0 ;;
  denominators <- sum_bool 1 (ne0 text_mask) ;;
  denominators <- unsqueeze 1 (float denominators) ;;
  total <- Torch.sum (rank xx - 1) xx ;;
  total <- view_rows embed_dim total ;;
  Torch.div total denominators.

(** The first part of [compose]: the sequences of the present modalities
    and their masks, joined along the sequence axis. *)
Definition concat_inputs (img_emb : option (tensor F))
    (text_emb : option (tensor F * tensor Z))
    : result (tensor F * tensor Z) :=
  im <- match img_emb with
        | Some img_emb =>
            d0 <- dim_size img_emb 0 ;;
            d1 <- dim_size img_emb 1 ;;
            Ok ([img_emb], [ones [d0; d1]])
        | None => Ok ([], [])
        end ;;
  let tx := match text_emb with
            | Some (text_emb, text_mask) => ([text_emb], [text_mask])
            | None => ([], [])
            end in
  let embeddings := fst im ++ fst tx in
  let masks := snd im ++ snd tx in
  concat_features <- cat embeddings 1 ;;
  concat_mask <- cat masks 1 ;;
  Ok (concat_features, concat_mask).

(** The slices of [compose]: the image segment and the text segment of
    the encoder's output. *)
Definition image_segment (composed img_emb : tensor F) : result (tensor F) :=
  d1 <- dim_size img_emb 1 ;;
  slice1_to d1 composed.

Definition text_segment (composed text_emb : tensor F) : result (tensor F) :=
  d1 <- dim_size text_emb 1 ;;
  slice1_last d1 composed.

(** The last part of [compose]: each present segment is sliced out of
    the encoder's output and pooled. *)
Definition pooled_segments (composed : tensor F)
    (img_emb : option (tensor F)) (text_emb : option (tensor F * tensor Z))
    : result (list (tensor F)) :=
  im <- match img_emb with
        | Some img_emb =>
            mod_im_feat <- image_segment composed img_emb ;;
            pooled_im_feat <- pool_image mod_im_feat ;;
            Ok [pooled_im_feat]
        | None => Ok []
        end ;;
  tx <- match text_emb with
        | Some (text_emb, text_mask) =>
            mod_text_feat <- text_segment composed text_emb ;;
            pooled_text_feat <- pool_text mod_text_feat text_mask ;;
            Ok [pooled_text_feat]
        | None => Ok []
        end ;;
  Ok (im ++ tx).

Definition compose (img_emb : option (tensor F))
    (text_emb : option (tensor F * tensor Z)) : result (tensor F) :=
  cc <- concat_inputs img_emb text_emb ;;
  composed <- model (fst cc) (snd cc) ;;
  final_embs <- pooled_segments composed img_emb text_emb ;;
  stacked <- stack final_embs ;;
  Torch.mean 0 stacked.
End MAAF.
End MAAF.

(** ** ResidualMAAF *)

Module ResidualMAAF.
Section ResidualMAAF.
Context {F : Type} {S : Scalar F}.
Variables Img Txt : Type.
Variable model : tensor F -> tensor Z -> result (tensor F).
Variable output : string.
Variable image_model :
  list (option Img) -> @ImgTextCompositionBase.image_out F.
Variable resolutionwise_pool : tensor F -> result (tensor F).

Definition extract_img_feature (imgs : list (option Img))
    : list (ImgTextCompositionBase.call Img Txt)
      * option (@ImgTextCompositionBase.image_out F) :=
  if ImgTextCompositionBase.all_none imgs then ([], None)
  else ([ImgTextCompositionBase.CallImageModel Img Txt imgs],
        Some (image_model imgs)).

(** [addition_feat], which starts as the Python number 0. *)
Inductive number_or_tensor : Type :=
| Zero
| Tensor (x : tensor F).

(** [addition_feat + x]: adding a tensor to the number 0 adds the scalar
    0 to each of its elements. *)
Definition plus (acc : number_or_tensor) (x : tensor F)
    : result number_or_tensor :=
  match acc with
  | Zero => Ok (Tensor (tmap (fun v => fadd v (of_Z 0)) x))
  | Tensor a => r <- Torch.add a x ;; Ok (Tensor r)
  end.

(** [maaf_feat + addition_feat] *)
Definition plus_final (maaf_feat : tensor F) (acc : number_or_tensor)
    : result (tensor F) :=
  match acc with
  | Zero => Ok (tmap (fun v => fadd v (of_Z 0)) maaf_feat)
  | Tensor a => Torch.add maaf_feat a
  end.

Definition compose (img_feat : option (list (string * tensor F)))
    (text_emb : option (tensor F * tensor Z)) : result (tensor F) :=
  img_maaf_inputs <-
    match img_feat with
    | None => Ok None
    | Some kv =>
        v <- ImgTextCompositionBase.getitem kv "projections" ;; Ok (Some v)
    end ;;
  maaf_feat <-
    MAAF.compose model output resolutionwise_pool img_maaf_inputs text_emb ;;
  let addition_feat := Zero in
  addition_feat <-
    match img_feat with
    | Some kv =>
        fc <- ImgTextCompositionBase.getitem kv "fc" ;; plus addition_feat fc
    | None => Ok addition_feat
    end ;;
  addition_feat <-
    match text_emb with
    | Some (text_emb, text_mask) =>
        pooled_text_feat <- MAAF.pool_text text_emb text_mask ;;
        plus addition_feat pooled_text_feat
    | None => Ok addition_feat
    end ;;
  plus_final maaf_feat addition_feat.
End ResidualMAAF.
End ResidualMAAF.

(** ** TIRG *)

Module TIRG.
Section TIRG.
Context {F : Type} {S : Scalar F}.
(** [self.a] *)
Variable a : tensor F.
(** The layers that follow [ConCatModule] in [gated_feature_composer] and
    in [res_info_composer] ([torch.nn] modules). *)
Variable gate_layers : tensor F -> result (tensor F).
Variable res_layers : tensor F -> result (tensor F).

(** [ConCatModule.forward] on the pair [(img_emb, text_emb)]: [torch.cat]
    rejects a [None] among its inputs. *)
Definition ConCatModule_forward (img_emb : option (tensor F))
    (text_emb : tensor F) : result (tensor F) :=
  match img_emb with
  | Some i => cat [i; text_emb] 1
  | None => Err (TypeError "expected Tensor as element 0 in argument 0, but got NoneType")
  end.

Definition gated_feature_composer (img_emb : option (tensor F))
    (text_emb : tensor F) : result (tensor F) :=
  c <- ConCatModule_forward img_emb text_emb ;; gate_layers c.

Definition res_info_composer (img_emb : option (tensor F))
    (text_emb : tensor F) : result (tensor F) :=
  c <- ConCatModule_forward img_emb text_emb ;; res_layers c.

Definition compose (img_emb text_emb : option (tensor F))
    : result (option (tensor F)) :=
  match text_emb with
  | None => Ok img_emb
  | Some text_emb =>
      f1 <- gated_feature_composer img_emb text_emb ;;
      f2 <- res_info_composer img_emb text_emb ;;
      match img_emb with
      | None => Err (TypeError "unsupported operand type(s) for *: 'Tensor' and 'NoneType'")
      | Some img_emb =>
          g <- Torch.mul (sigmoid f1) img_emb ;;
          a0 <- select0 0 a ;;
          g <- Torch.mul g a0 ;;
          a1 <- select0 1 a ;;
          r <- Torch.mul f2 a1 ;;
          f <- Torch.add g r ;;
          Ok (Some f)
      end
  end.
End TIRG.
End TIRG.
(** ** The pooled vectors, in the words of the specification *)

Module Reference.
Section Reference.
Context {F : Type} {S : Scalar F}.

(** The positions of row [b], among the first [T], whose mask is not 0. *)
Definition valid_positions (text_mask : tensor Z) (T b : nat) : list nat :=
  filter (fun t => negb (Z.eqb (item text_mask [b; t]) 0)) (seq 0 T).

(** The sum of a list of scalars, accumulated from zero in list order. *)
Definition total (l : list F) : F := fold_left fadd l f0.

(** Mean over the valid tokens: the sum of the embedding vectors at the
    valid positions divided by their count, for row [b] and feature [d]. *)
Definition masked_mean (xx : tensor F) (text_mask : tensor Z)
    (T b d : nat) : F :=
  fdiv (total (map (fun t => item xx [b; t; d]) (valid_positions text_mask T b)))
       (of_Z (Z.of_nat (length (valid_positions text_mask T b)))).

(** The sum [pool_text] accumulates for row [b] and feature [d]: the
    masked positions enter it as zeros. *)
Definition masked_sum (xx : tensor F) (text_mask : tensor Z) (T b d : nat) : F :=
  fold_left (fun acc t =>
               fadd acc (if Z.eqb (item text_mask [b; t]) 0 then f0
                         else item xx [b; t; d]))
            (seq 0 T) f0.

(** The denominator [pool_text] accumulates for row [b]. *)
Definition valid_count (text_mask : tensor Z) (T b : nat) : Z :=
  fold_left (fun acc t =>
               (acc + if negb (Z.eqb (item text_mask [b; t]) 0) then 1 else 0)%Z)
            (seq 0 T) 0%Z.

(** The plain arithmetic mean over the sequence axis. *)
Definition plain_mean (xx : tensor F) (T b d : nat) : F :=
  fdiv (total (map (fun t => item xx [b; t; d]) (seq 0 T)))
       (of_Z (Z.of_nat T)).
(** The entry of the sinusoidal table at position [pos] and column [col]:
    the sine, on even columns, or the cosine, on odd ones, of
    [pos * exp(2 i * -(log(10000) / embed_dim))] with [i = col / 2]. *)
Definition sinusoid (embed_dim pos col : nat) : F :=
  let scale := fneg (fdiv ln10000 (of_Z (Z.of_nat embed_dim))) in
  let angle := fmul (of_Z (Z.of_nat pos))
                    (fexp (fmul (of_Z (Z.of_nat (2 * (col / 2)))) scale)) in
  if Nat.even col then fsin angle else fcos angle.

(** The elementwise mean of two pooled vectors of one shape. *)
Definition average2 (p q : tensor F) : tensor F :=
  tabulate (shape p) (fun idx => fdiv (fadd (item p idx) (item q idx)) (of_Z 2)).
End Reference.
End Reference.

(** ** An instance of the scalars *)

(** Exact rational arithmetic, on which the definitions above run.  The
    transcendental functions have no rational values: the instance keeps
    them as the identity, and nothing proved below depends on what they
    compute. *)
Module Rational.
Definition q (z : Z) : Qc := Q2Qc (inject_Z z).

#[export] Instance scalar : Scalar Qc := {|
  f0 := q 0;
  fadd := Qcplus;
  fmul := Qcmult;
  fdiv := Qcdiv;
  of_Z := q;
  fneg := Qcopp;
  fsigmoid := fun x => x;
  fsin := fun x => x;
  fcos := fun x => x;
  fexp := fun x => x;
  ln10000 := q 9
|}.

(** A tensor of integers, read as rationals. *)
Definition tensor_of (sh : list nat) (l : list Z) : tensor Qc :=
  mkTensor sh (map q l).

(** The elements of a tensor, as fractions in lowest terms. *)
Definition values (x : tensor Qc) : list Q := map this (data x).

(** A pooling of the kind the image backbone supplies: the mean over the
    positions of a batch of sequences. *)
Definition mean_pool (x : tensor Qc) : result (tensor Qc) :=
  if rank x =? 3 then Torch.mean 1 x
  else Err (RuntimeError "expected a batch of sequences").
End Rational.
Import Rational.

(** ** Calls: the binding of arguments to parameters *)

Module PyCall.
Section Call.
(** The values passed, opaque to the binding. *)
Variable V : Type.

Definition has_key (k : string) (bound : list (string * V)) : bool :=
  existsb (fun kv => String.eqb k (fst kv)) bound.

(** The keyword arguments, in the order of the call: a keyword must name
    a parameter, and one that no earlier argument has filled. *)
Fixpoint bind_keywords (params : list string) (bound keywords : list (string * V))
    : result (list (string * V)) :=
  match keywords with
  | [] => Ok bound
  | (k, v) :: rest =>
      if negb (existsb (String.eqb k) params)
      then Err (TypeError (String.append "got an unexpected keyword argument " k))
      else if has_key k bound
      then Err (TypeError (String.append "got multiple values for argument " k))
      else bind_keywords params (bound ++ [(k, v)]) rest
  end.

(** A call of a function of parameters [params] (none of them [*args] or
    [**kwargs]) with default values [defaults]: the positional arguments
    fill the first parameters, then the keywords are bound, then the number
    of positional arguments is checked, then the defaults fill what is left
    and a parameter left without a value is an error. *)
Definition call (params : list string) (defaults keywords : list (string * V))
    (positional : list V) : result (list (string * V)) :=
  bound <- bind_keywords params (combine params positional) keywords ;;
  if length params <? length positional
  then Err (TypeError "too many positional arguments")
  else
    let bound :=
      bound ++ filter (fun kv => negb (has_key (fst kv) bound)) defaults in
    match filter (fun p => negb (has_key p bound)) params with
    | [] => Ok bound
    | p :: _ => Err (TypeError (String.append "missing required argument " p))
    end.
End Call.
End PyCall.

(** ** Construction *)

Module Construction.
Section Construction.
(** Python values: models, heads, numbers, strings; [none] is [None]. *)
Variable V : Type.
Variable none : V.
(** An instance under construction. *)
Variable Obj : Type.

(** [ImgTextCompositionBase.__init__(self, head, image_model=None,
    text_model=None)], called with the given arguments; [body] is the body
    of the method, run on the bound parameters. *)
Definition base_init (body : list (string * V) -> result Obj)
    (positional : list V) (keywords : list (string * V)) : result Obj :=
  bound <- PyCall.call V ["self"; "head"; "image_model"; "text_model"]
             [("image_model", none); ("text_model", none)] keywords positional ;;
  body bound.

(** [Concat.__init__(self, texts, loss, embed_dim=512, dropout=0.1)]: the
    call of the base constructor, then [rest], the construction of
    [self.model]. *)
Definition concat_init (base_body : list (string * V) -> result Obj)
    (rest : Obj -> V -> V -> result Obj) (self texts loss embed_dim dropout : V)
    : result Obj :=
  base <- base_init base_body [self; texts; loss]
            [("image_model", none); ("text_model", none)] ;;
  rest base embed_dim dropout.

(** The configuration values [MAAF.from_config] reads. *)
Record config : Type := mkConfig {
  EMBED_DIM : V;
  ATTENTION_HEADS : V;
  BLOCK_WIDTH : V;
  DROPOUT_RATE : V;
  NUM_BLOCKS : V;
  POSITION_ENCODING : V;
  ATTN_SOFTMAX_REPLACEMENT : V;
  OUTPUT : V
}.

(** The parameters of [MAAF.__init__] and their defaults, in order of
    declaration; the defaults are numbers, [None] and the string "rwpool". *)
Definition maaf_params : list string :=
  ["self"; "loss"; "model_dim"; "num_heads"; "ff_width"; "dropout"; "num_blocks";
   "position_encodings"; "softmax_replacement"; "output"; "image_model";
   "text_model"].

Variables d512 d8 d256 d01 d1 rwpool : V.

Definition maaf_defaults : list (string * V) :=
  [("model_dim", d512); ("num_heads", d8); ("ff_width", d256); ("dropout", d01);
   ("num_blocks", d1); ("position_encodings", none);
   ("softmax_replacement", none); ("output", rwpool); ("image_model", none);
   ("text_model", none)].

(** [MAAF.from_config(cls, loss, cfg, image_model=None, text_model=None)]:
    the call [cls(loss, embed_dim=..., ...)] of the constructor, on the new
    instance [self]; [body] is the body of [MAAF.__init__]. *)
Definition from_config (body : list (string * V) -> result Obj)
    (self loss : V) (cfg : config) (image_model text_model : V) : result Obj :=
  bound <- PyCall.call V maaf_params maaf_defaults
             [("embed_dim", EMBED_DIM cfg);
              ("num_heads", ATTENTION_HEADS cfg);
              ("ff_width", BLOCK_WIDTH cfg);
              ("dropout", DROPOUT_RATE cfg);
              ("num_blocks", NUM_BLOCKS cfg);
              ("position_encodings", POSITION_ENCODING cfg);
              ("softmax_replacement", ATTN_SOFTMAX_REPLACEMENT cfg);
              ("output", OUTPUT cfg);
              ("image_model", image_model);
              ("text_model", text_model)]
             [self; loss] ;;
  body bound.
End Construction.
End Construction.

(** ** The forward pass of ImgTextCompositionBase *)

Module Composition.
Section Composition.
Context {F : Type} {S : Scalar F}.
Variables Img Txt : Type.
(** What the extractions return, what [compose] returns, what the head
    returns when called and as a loss. *)
Variables ImgEmb TextEmb Out Score Loss Labels : Type.

(** What a call does, in order: backbone calls, calls of the head. *)
Inductive event : Type :=
| Backbone (c : ImgTextCompositionBase.call Img Txt)
| Head (composition : Out)
| HeadComputeLoss (source : Score) (target : option Score).

Definition traced (A : Type) : Type := (list event * result A)%type.

Definition tret {A : Type} (a : A) : traced A := ([], Ok a).

Definition tbind {A B : Type} (m : traced A) (k : A -> traced B) : traced B :=
  match m with
  | (tr, Ok a) => let (tr', r) := k a in (tr ++ tr', r)
  | (tr, Err e) => (tr, Err e)
  end.

Notation "x <~ m ;; k" := (tbind m (fun x => k))
  (at level 61, m at next level, right associativity).

(** The model: its backbones, with the defaults of [__init__] when none
    is given, and its head. *)
Record t : Type := mk {
  head : Out -> result Score;
  head_compute_loss : Score -> option Score -> option Labels -> result Loss;
  image_model : list (option Img) -> @ImgTextCompositionBase.image_out F;
  text_model : list (option Txt) -> @ImgTextCompositionBase.text_out F
}.

(** [__init__(self, head, image_model=None, text_model=None)] *)
Definition init (head : Out -> result Score)
    (head_compute_loss : Score -> option Score -> option Labels -> result Loss)
    (image_model :
       option (list (option Img) -> @ImgTextCompositionBase.image_out F))
    (text_model :
       option (list (option Txt) -> @ImgTextCompositionBase.text_out F)) : t :=
  mk head head_compute_loss
     (match image_model with
      | None => fun _ => ImgTextCompositionBase.ImgNone
      | Some m => m
      end)
     (match text_model with
      | None => fun _ => ImgTextCompositionBase.TextNone
      | Some m => m
      end).

(** The extractions of the base class, on the backbones of the model. *)
Definition base_extract_img_feature (self : t) (imgs : list (option Img))
    : list (ImgTextCompositionBase.call Img Txt) * result (option (tensor F)) :=
  ImgTextCompositionBase.extract_img_feature Img Txt (image_model self) imgs.

Definition base_extract_text_feature (self : t) (texts : list (option Txt))
    : list (ImgTextCompositionBase.call Img Txt)
      * result (@ImgTextCompositionBase.text_out F) :=
  let (calls, r) :=
    ImgTextCompositionBase.extract_text_feature Img Txt (text_model self) texts in
  (calls, Ok r).

(** The methods a composer overrides or inherits. *)
Variable extract_img_feature :
  t -> list (option Img)
  -> list (ImgTextCompositionBase.call Img Txt) * result ImgEmb.
Variable extract_text_feature :
  t -> list (option Txt)
  -> list (ImgTextCompositionBase.call Img Txt) * result TextEmb.
Variable compose : ImgEmb -> TextEmb -> result Out.

(** The list comprehension of an extraction iterates over the batch, which
    a caller may pass as [None]. *)
Definition over_batch {A B : Type} (xs : option (list A))
    (extract : list A -> list (ImgTextCompositionBase.call Img Txt) * result B)
    : traced B :=
  match xs with
  | None => ([], Err (TypeError "'NoneType' object is not iterable"))
  | Some l => let (calls, r) := extract l in (map Backbone calls, r)
  end.

Definition get_composition (self : t) (images : option (list (option Img)))
    (texts : option (list (option Txt))) : traced Out :=
  image_emb <~ over_batch images (extract_img_feature self) ;;
  text_emb <~ over_batch texts (extract_text_feature self) ;;
  ([], compose image_emb text_emb).

Definition forward (self : t) (images : option (list (option Img)))
    (texts : option (list (option Txt))) : traced Score :=
  composition <~ get_composition self images texts ;;
  ([Head composition], head self composition).

Definition is_not_none {A : Type} (x : option A) : bool :=
  match x with Some _ => true | None => false end.

Definition compute_loss (self : t)
    (source_images : option (list (option Img)))
    (source_texts : option (list (option Txt)))
    (target_images : option (list (option Img)))
    (target_texts : option (list (option Txt)))
    (labels : option Labels) : traced Loss :=
  source <~ forward self source_images source_texts ;;
  target <~ (if is_not_none target_images || is_not_none target_texts
             then target <~ forward self target_images target_texts ;;
                  tret (Some target)
             else tret None) ;;
  ([HeadComputeLoss source target], head_compute_loss self source target labels).
End Composition.

Arguments Backbone {Img Txt Out Score} c.
Arguments Head {Img Txt Out Score} composition.
Arguments HeadComputeLoss {Img Txt Out Score} source target.
Arguments head {F Img Txt Out Score Loss Labels} t.
Arguments head_compute_loss {F Img Txt Out Score Loss Labels} t.
Arguments image_model {F Img Txt Out Score Loss Labels} t.
Arguments text_model {F Img Txt Out Score Loss Labels} t.
Arguments init {F Img Txt Out Score Loss Labels}.
Arguments base_extract_img_feature {F Img Txt Out Score Loss Labels}.
Arguments base_extract_text_feature {F Img Txt Out Score Loss Labels}.
Arguments over_batch {Img Txt Out Score A B}.
Arguments get_composition {F Img Txt ImgEmb TextEmb Out Score Loss Labels}.
Arguments forward {F Img Txt ImgEmb TextEmb Out Score Loss Labels}.
Arguments compute_loss {F Img Txt ImgEmb TextEmb Out Score Loss Labels}.
End Composition.

(** ** SimpleModelTextOnly *)

Module SimpleModelTextOnly.
Section SimpleModelTextOnly.
Context {F : Type} {S : Scalar F}.
(** [pool_text] on two rows of a plain tensor, the second one, of floats,
    in the place of the mask. *)
Variable pool_rows : tensor F -> tensor F -> result (tensor F).

Definition pool_text (xx : tensor F) (text_mask : tensor Z)
    : result (tensor F) :=
  (* average pool ignoring the masked entries *)
  xx <- transpose_last2 xx ;;
  embed_dim <- dim_size xx 1 ;;
  mask <- unsqueeze 1 text_mask ;;
  xx <- masked_fill xx (eq0 mask) f0 ;;
  denominators <- sum_bool 1 (ne0 text_mask) ;;
  denominators <- unsqueeze 1 (float denominators) ;;
  total <- Torch.sum (rank xx - 1) xx ;;
  total <- view_rows embed_dim total ;;
  Torch.div total denominators.

(** [compose(img_emb, text_emb)]: [text_emb] is what the text backbone
    returned; its item 0 is the embedding of a pair and the first row of a
    plain tensor, and its item 1 the mask of a pair and the second row of a
    plain tensor. *)
Definition compose (img_emb : option (tensor F))
    (text_emb : @ImgTextCompositionBase.text_out F)
    : result (@ImgTextCompositionBase.text_out F) :=
  match text_emb with
  | ImgTextCompositionBase.TextNone =>
      Err (TypeError "'NoneType' object is not subscriptable")
  | ImgTextCompositionBase.TextMasked emb mask =>
      if 2 <? rank emb
      then r <- pool_text emb mask ;; Ok (ImgTextCompositionBase.TextPlain r)
      else Ok text_emb
  | ImgTextCompositionBase.TextPlain x =>
      x0 <- select0 0 x ;;
      if 2 <? rank x0
      then x0 <- select0 0 x ;;
           x1 <- select0 1 x ;;
           r <- pool_rows x0 x1 ;;
           Ok (ImgTextCompositionBase.TextPlain r)
      else Ok text_emb
  end.
End SimpleModelTextOnly.
End SimpleModelTextOnly.

(** ** RandomComposition *)

Module RandomComposition.
Section RandomComposition.
Context {F : Type} {S : Scalar F}.
Variables Img Txt : Type.
(** The state of the random number generator; [rand g n] draws [n]
    numbers. *)
Variable Rng : Type.
Variable rand : Rng -> nat -> list F * Rng.

(** [Guess.__call__], given the length of its first argument:
    [torch.tensor(np.random.rand(len(args[0]), self.model_dim))] *)
Definition guess (model_dim : nat) (g : Rng) (len : result nat)
    : result (tensor F * Rng) :=
  n <- len ;;
  let (l, g') := rand g (n * model_dim) in
  Ok (mkTensor [n; model_dim] l, g').

(** [len(x)] of a tensor *)
Definition len_tensor (x : tensor F) : result nat :=
  match shape x with
  | [] => Err (TypeError "len() of a 0-d tensor")
  | n :: _ => Ok n
  end.

(** [len(x)] of what an extraction returned *)
Definition len_emb (x : option (tensor F)) : result nat :=
  match x with
  | None => Err (TypeError "object of type 'NoneType' has no len()")
  | Some x => len_tensor x
  end.

(** Both backbones are [Guess()], of [model_dim] 512. *)
Definition extract_feature {A : Type} (g : Rng) (xs : list (option A))
    : result (option (tensor F) * Rng) :=
  if ImgTextCompositionBase.all_none xs then Ok (None, g)
  else r <- guess 512 g (Ok (length xs)) ;; Ok (Some (fst r), snd r).

Definition compose (g : Rng) (img_emb text_emb : option (tensor F))
    : result (tensor F * Rng) :=
  match img_emb with
  | Some _ => guess 512 g (len_emb img_emb)
  | None => guess 512 g (len_emb text_emb)
  end.

Definition forward (g : Rng) (images : list (option Img))
    (texts : list (option Txt)) : result (tensor F * Rng) :=
  image_emb <- extract_feature g images ;;
  text_emb <- extract_feature (snd image_emb) texts ;;
  compose (snd text_emb) (fst image_emb) (fst text_emb).
End RandomComposition.
End RandomComposition.

(** ** Concat *)

Module Concat.
Section Concat.
Context {F : Type} {S : Scalar F}.
(** [self.model], the feed-forward block. *)
Variable model : tensor F -> result (tensor F).

Definition compose (img_emb text_emb : option (tensor F))
    : result (option (tensor F)) :=
  match img_emb, text_emb with
  | None, _ => Ok text_emb
  | Some _, None => Ok img_emb
  | Some i, Some t =>
      concat <- cat [i; t] 1 ;;
      r <- model concat ;;
      Ok (Some r)
  end.
End Concat.
End Concat.

(** ** A small model on which the forward pass runs *)

Module Toy.
Import ImgTextCompositionBase.

(** An image backbone of two features and a text backbone of a plain
    embedding, on batches of unit images and texts. *)
Definition image_backbone (imgs : list (option unit)) : @image_out Qc :=
  ImgDict [("projections", tensor_of [1; 1; 1] [2]%Z);
           ("fc", tensor_of [1; 2] [1; 2]%Z)].

Definition text_backbone (texts : list (option unit)) : @text_out Qc :=
  TextPlain (tensor_of [1; 2] [10; 20]%Z).

(** [Addition.compose] on what the extractions of the base class return. *)
Definition addition (img_emb : option (tensor Qc)) (text_emb : @text_out Qc)
    : result (tensor Qc) :=
  match text_emb with
  | TextNone => snd (Addition.compose img_emb None)
  | TextPlain t => snd (Addition.compose img_emb (Some t))
  | TextMasked _ _ =>
      Err (TypeError "unsupported operand type(s) for +: 'Tensor' and 'tuple'")
  end.

(** A head that scores a composition by itself. *)
Definition self : @Composition.t Qc unit unit (tensor Qc) (tensor Qc) (tensor Qc) unit :=
  Composition.init (fun x => Ok x) (fun source _ _ => Ok source)
    (Some image_backbone) (Some text_backbone).
End Toy.

(** * Facts about the tensor model *)

Module TorchFacts.

Lemma numel_cons (d : nat) (sh : list nat) : numel (d :: sh) = d * numel sh.
Proof. reflexivity. Qed.

Lemma in_range_cons (d i : nat) (sh idx : list nat) :
  in_range (d :: sh) (i :: idx) = true <-> i < d /\ in_range sh idx = true.
Proof.
  simpl. rewrite andb_true_iff, Nat.ltb_lt. tauto.
Qed.

Lemma in_range_length (sh idx : list nat) :
  in_range sh idx = true -> length idx = length sh.
Proof.
  revert idx. induction sh as [|d sh IH]; intros [|i idx]; simpl; try discriminate; auto.
  rewrite andb_true_iff. intros [_ H]. f_equal. auto.
Qed.

Lemma ravel_lt (sh idx : list nat) :
  in_range sh idx = true -> ravel sh idx < numel sh.
Proof.
  revert idx. induction sh as [|d sh IH]; intros [|i idx]; try discriminate.
  - simpl. lia.
  - rewrite in_range_cons. intros [Hi Hr]. specialize (IH _ Hr).
    rewrite numel_cons. simpl ravel. nia.
Qed.

Lemma unravel_ravel (sh idx : list nat) :
  in_range sh idx = true -> unravel sh (ravel sh idx) = idx.
Proof.
  revert idx. induction sh as [|d sh IH]; intros [|i idx]; try discriminate.
  - reflexivity.
  - rewrite in_range_cons. intros [Hi Hr].
    pose proof (ravel_lt _ _ Hr) as Hlt. simpl.
    rewrite Nat.div_add_l by lia. rewrite Nat.div_small by assumption.
    rewrite Nat.add_0_r. f_equal.
    rewrite Nat.add_comm, Nat.Div0.mod_add, Nat.mod_small by assumption.
    auto.
Qed.

Lemma unravel_in_range (sh : list nat) (k : nat) :
  k < numel sh -> in_range sh (unravel sh k) = true.
Proof.
  revert k. induction sh as [|d sh IH]; intros k Hk.
  - reflexivity.
  - rewrite numel_cons in Hk. simpl unravel. apply in_range_cons.
    assert (0 < numel sh) by nia. split.
    + apply Nat.Div0.div_lt_upper_bound. lia.
    + apply IH. apply Nat.mod_upper_bound. lia.
Qed.

Lemma ravel_unravel (sh : list nat) (k : nat) :
  k < numel sh -> ravel sh (unravel sh k) = k.
Proof.
  revert k. induction sh as [|d sh IH]; intros k Hk.
  - simpl in *. lia.
  - rewrite numel_cons in Hk. simpl.
    assert (0 < numel sh) by nia.
    rewrite IH by (apply Nat.mod_upper_bound; lia).
    rewrite (Nat.div_mod_eq k (numel sh)) at 3. lia.
Qed.

Section Elements.
Context {A : Type} `{Dflt A}.

Lemma shape_tabulate (sh : list nat) (f : list nat -> A) :
  shape (tabulate sh f) = sh.
Proof. reflexivity. Qed.

Lemma wf_tabulate (sh : list nat) (f : list nat -> A) : wf (tabulate sh f).
Proof. unfold wf; simpl. now rewrite length_map, length_seq. Qed.

Lemma item_tabulate (sh : list nat) (f : list nat -> A) (idx : list nat) :
  in_range sh idx = true -> item (tabulate sh f) idx = f idx.
Proof.
  intros Hr. unfold item; simpl.
  pose proof (ravel_lt _ _ Hr) as Hlt.
  rewrite (nth_indep _ dflt (f (unravel sh 0)))
    by now rewrite length_map, length_seq.
  rewrite (map_nth (fun k => f (unravel sh k)) (seq 0 (numel sh)) 0).
  rewrite seq_nth by assumption. simpl. now rewrite unravel_ravel.
Qed.

Lemma tabulate_ext (sh : list nat) (f g : list nat -> A) :
  (forall idx, in_range sh idx = true -> f idx = g idx) ->
  tabulate sh f = tabulate sh g.
Proof.
  intros Hfg. unfold tabulate. f_equal. apply map_ext_in.
  intros k Hk. apply in_seq in Hk. apply Hfg, unravel_in_range. lia.
Qed.

Lemma tabulate_item (x : tensor A) :
  wf x -> tabulate (shape x) (item x) = x.
Proof.
  destruct x as [sh l]. unfold wf, tabulate, item; simpl. intros Hwf.
  f_equal. apply (nth_ext _ _ dflt dflt).
  - now rewrite length_map, length_seq.
  - intros n Hn. rewrite length_map, length_seq in Hn.
    rewrite (nth_indep _ dflt (nth (ravel sh (unravel sh 0)) l dflt))
      by now rewrite length_map, length_seq.
    rewrite (map_nth (fun k => nth (ravel sh (unravel sh k)) l dflt)).
    rewrite seq_nth by assumption. simpl. now rewrite ravel_unravel.
Qed.

(** Two well-formed tensors of one shape with the same elements are the
    same tensor. *)
Lemma tensor_ext (x y : tensor A) :
  wf x -> wf y -> shape x = shape y ->
  (forall idx, in_range (shape x) idx = true -> item x idx = item y idx) ->
  x = y.
Proof.
  intros Hx Hy Hs Hi. rewrite <- (tabulate_item x Hx), <- (tabulate_item y Hy).
  rewrite <- Hs. now apply tabulate_ext.
Qed.
End Elements.

End TorchFacts.
(** * Facts about the tensor operations *)

Module TorchOps.
Import TorchFacts.

Lemma bdim_same (n : nat) : bdim n n = Some n.
Proof. unfold bdim. now rewrite Nat.eqb_refl. Qed.

Lemma bdim_1_r (n : nat) : bdim n 1 = Some n.
Proof.
  unfold bdim. destruct (n =? 1) eqn:E; [|reflexivity].
  apply Nat.eqb_eq in E. now subst.
Qed.

Lemma bdim_1_l (n : nat) : bdim 1 n = Some n.
Proof.
  unfold bdim. destruct (1 =? n) eqn:E; [|reflexivity].
  apply Nat.eqb_eq in E. now subst.
Qed.

Lemma bshape_rev_same (s : list nat) : bshape_rev s s = Some s.
Proof.
  induction s as [|a s IH]; [reflexivity|].
  simpl. now rewrite bdim_same, IH.
Qed.

Lemma broadcast_shapes_same (s : list nat) : broadcast_shapes s s = Some s.
Proof.
  unfold broadcast_shapes. rewrite bshape_rev_same. simpl. now rewrite rev_involutive.
Qed.

Lemma shape_eqb_refl (s : list nat) : shape_eqb s s = true.
Proof. unfold shape_eqb. now destruct (list_eq_dec Nat.eq_dec s s). Qed.

Lemma shape_eqb_eq (s1 s2 : list nat) : shape_eqb s1 s2 = true <-> s1 = s2.
Proof.
  unfold shape_eqb. destruct (list_eq_dec Nat.eq_dec s1 s2); split; congruence.
Qed.

(** An operand of the shape of the result is read at the result's index. *)
Lemma bidx_same (sh idx : list nat) :
  in_range sh idx = true -> bidx sh idx = idx.
Proof.
  intros Hr. unfold bidx. rewrite (in_range_length _ _ Hr), Nat.sub_diag. simpl.
  revert idx Hr. induction sh as [|d sh IH]; intros [|i idx]; try discriminate.
  - reflexivity.
  - rewrite in_range_cons. intros [Hi Hr]. simpl. rewrite IH by assumption.
    destruct (d =? 1) eqn:E; [|reflexivity].
    apply Nat.eqb_eq in E. f_equal. lia.
Qed.

Section Elements.
Context {A : Type} `{Dflt A}.

Lemma item_tmap {B : Type} `{Dflt B} (f : A -> B) (x : tensor A) (idx : list nat) :
  wf x -> in_range (shape x) idx = true ->
  item (tmap f x) idx = f (item x idx).
Proof.
  intros Hwf Hr. unfold item, tmap; simpl.
  pose proof (ravel_lt _ _ Hr) as Hlt. rewrite <- Hwf in Hlt.
  rewrite (nth_indep _ dflt (f dflt)) by now rewrite length_map.
  apply map_nth.
Qed.

Lemma wf_tmap {B : Type} (f : A -> B) (x : tensor A) : wf x -> wf (tmap f x).
Proof. unfold wf, tmap; simpl. now rewrite length_map. Qed.

Lemma binop_same_shape {B C : Type} `{Dflt B} (f : A -> B -> C)
    (x : tensor A) (y : tensor B) :
  shape x = shape y ->
  binop f x y = Ok (tabulate (shape x) (fun idx => f (item x idx) (item y idx))).
Proof.
  intros Hs. unfold binop. rewrite <- Hs, broadcast_shapes_same. f_equal.
  apply tabulate_ext. intros idx Hr. now rewrite bidx_same.
Qed.
End Elements.

End TorchOps.
(** * Addition *)

Module AdditionSpec.
Import TorchFacts TorchOps.
Section Spec.
Context {F : Type} {S : Scalar F}.

Lemma add_same_shape (a b : tensor F) :
  shape a = shape b ->
  Torch.add a b
  = Ok (tabulate (shape a) (fun idx => fadd (item a idx) (item b idx))).
Proof. apply binop_same_shape. Qed.

(** C1. [Addition.compose] returns the text embedding unchanged when the
    image embedding is [None], the image embedding unchanged when the text
    embedding is [None], and [img_emb + text_emb] when both are present:
    for embeddings of one shape, the tensor of that shape whose every
    element is the sum of the two elements at its index. *)
Theorem compose_returns (a b : tensor F) :
  snd (Addition.compose None (Some b)) = Ok b
  /\ snd (Addition.compose (Some a) None) = Ok a
  /\ snd (Addition.compose (Some a) (Some b)) = Torch.add a b
  /\ (shape a = shape b ->
      exists r, snd (Addition.compose (Some a) (Some b)) = Ok r
        /\ shape r = shape a
        /\ wf r
        /\ forall idx, in_range (shape a) idx = true ->
             item r idx = fadd (item a idx) (item b idx)).
Proof.
  repeat split; try reflexivity.
  intros Hs. simpl. rewrite add_same_shape by assumption.
  eexists. split; [reflexivity|]. split; [reflexivity|].
  split; [apply wf_tabulate|]. intros idx Hr. now rewrite item_tabulate.
Qed.

Lemma add_error (a b : tensor F) (e : error) :
  Torch.add a b = Err e ->
  broadcast_shapes (shape a) (shape b) = None
  /\ e = RuntimeError "shapes cannot be broadcast".
Proof.
  unfold Torch.add, binop.
  destruct (broadcast_shapes (shape a) (shape b)); [discriminate|].
  intros [= <-]. auto.
Qed.

(** C2, as amended. [Addition.compose] raises the assertion error, whose
    message names what is missing, if and only if both embeddings are
    [None].  With exactly one modality present it returns that embedding
    and never raises.  With both present it can still raise: its only
    failure is then that of [+] itself, a [RuntimeError] on shapes that do
    not broadcast, never an assertion error. *)
Theorem compose_assertion (img_emb text_emb : option (tensor F)) :
  ((exists msg, snd (Addition.compose img_emb text_emb) = Err (AssertionError msg))
   <-> img_emb = None /\ text_emb = None)
  /\ snd (Addition.compose None None)
     = Err (AssertionError "No images or text available")
  /\ (forall a, snd (Addition.compose (Some a) None) = Ok a
                /\ snd (Addition.compose None (Some a)) = Ok a)
  /\ (forall e, snd (Addition.compose img_emb text_emb) = Err e ->
      (img_emb = None /\ text_emb = None)
      \/ exists a b, img_emb = Some a /\ text_emb = Some b
           /\ broadcast_shapes (shape a) (shape b) = None
           /\ e = RuntimeError "shapes cannot be broadcast").
Proof.
  split; [|split; [reflexivity|split; [split; reflexivity|]]].
  - split.
    + intros [msg Hm]. destruct img_emb as [a|], text_emb as [b|];
        simpl in Hm; try discriminate; auto.
      apply add_error in Hm. destruct Hm as [_ Hm]. discriminate.
    + intros [-> ->]. eexists. reflexivity.
  - intros e He. destruct img_emb as [a|], text_emb as [b|];
      simpl in He; try discriminate; auto.
    right. exists a, b. apply add_error in He. tauto.
Qed.
End Spec.

(** The three cases of C1 on rational vectors. *)
Lemma compose_returns_witness :
  snd (Addition.compose None (Some (Rational.tensor_of [1; 2] [3; 4]%Z)))
  = Ok (Rational.tensor_of [1; 2] [3; 4]%Z)
  /\ snd (Addition.compose (Some (Rational.tensor_of [1; 2] [1; 2]%Z)) None)
     = Ok (Rational.tensor_of [1; 2] [1; 2]%Z)
  /\ snd (Addition.compose (Some (Rational.tensor_of [1; 2] [1; 2]%Z))
                           (Some (Rational.tensor_of [1; 2] [3; 4]%Z)))
     = Ok (Rational.tensor_of [1; 2] [4; 6]%Z).
Proof.
  pose proof (compose_returns (Rational.tensor_of [1; 2] [1; 2]%Z)
                (Rational.tensor_of [1; 2] [3; 4]%Z)) as (H1 & H2 & H3 & _).
  split; [exact H1|]. split; [exact H2|]. rewrite H3. vm_compute. reflexivity.
Defined.

(** Against C2 as the spec words it: with both modalities present, a
    vector of two elements and one of three, [Addition.compose] raises. *)
Lemma compose_shape_error :
  snd (Addition.compose (Some (Rational.tensor_of [2] [1; 2]%Z))
                        (Some (Rational.tensor_of [3] [1; 2; 3]%Z)))
  = Err (RuntimeError "shapes cannot be broadcast").
Proof. reflexivity. Qed.

End AdditionSpec.
(** * Shapes of rank one, two and three *)

Module Shapes.
Import TorchFacts TorchOps.

Lemma in_range1 (B : nat) (idx : list nat) :
  in_range [B] idx = true <-> exists b, idx = [b] /\ b < B.
Proof.
  split.
  - destruct idx as [|b [|? ?]]; simpl; try discriminate.
    + rewrite andb_true_r, Nat.ltb_lt. eauto.
    + rewrite andb_false_r. discriminate.
  - intros (b & -> & Hb). simpl. now rewrite andb_true_r, Nat.ltb_lt.
Qed.

Lemma in_range2 (B D : nat) (idx : list nat) :
  in_range [B; D] idx = true <-> exists b d, idx = [b; d] /\ b < B /\ d < D.
Proof.
  split.
  - destruct idx as [|b idx]; [discriminate|].
    rewrite in_range_cons, in_range1. intros (Hb & d & -> & Hd). eauto.
  - intros (b & d & -> & Hb & Hd). rewrite in_range_cons, in_range1. eauto.
Qed.

Lemma in_range3 (B D T : nat) (idx : list nat) :
  in_range [B; D; T] idx = true
  <-> exists b d t, idx = [b; d; t] /\ b < B /\ d < D /\ t < T.
Proof.
  split.
  - destruct idx as [|b idx]; [discriminate|].
    rewrite in_range_cons, in_range2. intros (Hb & d & t & -> & Hd & Ht).
    exists b, d, t. auto.
  - intros (b & d & t & -> & Hb & Hd & Ht). rewrite in_range_cons, in_range2.
    split; [assumption|]. eauto.
Qed.

Lemma bidx_one (d i : nat) : i < d -> (if d =? 1 then 0 else i) = i.
Proof.
  intros Hi. destruct (d =? 1) eqn:E; [|reflexivity].
  apply Nat.eqb_eq in E. lia.
Qed.

Lemma fold_left_ext_in {A B : Type} (f g : A -> B -> A) (l : list B) (a : A) :
  (forall acc j, In j l -> f acc j = g acc j) ->
  fold_left f l a = fold_left g l a.
Proof.
  revert a. induction l as [|j l IH]; intros a Hfg; [reflexivity|].
  simpl. rewrite Hfg by (left; reflexivity). apply IH.
  intros acc k Hk. apply Hfg. now right.
Qed.

Lemma broadcast_mid (B D T : nat) :
  broadcast_shapes [B; D; T] [B; 1; T] = Some [B; D; T].
Proof.
  unfold broadcast_shapes. simpl. now rewrite !bdim_same, bdim_1_r.
Qed.

Lemma broadcast_last (B D : nat) :
  broadcast_shapes [B; D] [B; 1] = Some [B; D].
Proof.
  unfold broadcast_shapes. simpl. now rewrite bdim_same, bdim_1_r.
Qed.

Section Elements.
Context {A : Type} `{Dflt A}.

Lemma transpose_last2_3d (x : tensor A) (B T D : nat) :
  shape x = [B; T; D] ->
  transpose_last2 x
  = Ok (tabulate [B; D; T] (fun idx =>
          item x [nth 0 idx 0; nth 2 idx 0; nth 1 idx 0])).
Proof.
  intros Hx. unfold transpose_last2, rank. rewrite Hx. simpl. apply f_equal.
  apply tabulate_ext. intros idx Hr.
  apply in_range3 in Hr. destruct Hr as (b & d & t & -> & _). reflexivity.
Qed.

(** [x.unsqueeze(1)] of a matrix holds at [[b; 0; t]] what [x] holds at
    [[b; t]]. *)
Lemma item_unsqueeze1 (x : tensor A) (B T b t : nat) :
  shape x = [B; T] ->
  item (mkTensor [B; 1; T] (data x)) [b; 0; t] = item x [b; t].
Proof.
  intros Hx. unfold item. rewrite Hx. simpl. f_equal. lia.
Qed.

Lemma wf_unsqueeze1 (x : tensor A) (B T : nat) :
  shape x = [B; T] -> wf x -> wf (mkTensor [B; 1; T] (data x)).
Proof.
  unfold wf. intros ->. simpl. lia.
Qed.

Lemma reduce_sum_last_3d (add : A -> A -> A) (zero : A) (x : tensor A)
    (B D T : nat) :
  shape x = [B; D; T] ->
  reduce_sum add zero 2 x
  = Ok (tabulate [B; D] (fun idx =>
          fold_left (fun acc t => add acc (item x [nth 0 idx 0; nth 1 idx 0; t]))
                    (seq 0 T) zero)).
Proof.
  intros Hx. unfold reduce_sum, rank, size. rewrite Hx. simpl. apply f_equal.
  apply tabulate_ext. intros idx Hr.
  apply in_range2 in Hr. destruct Hr as (b & d & -> & _). reflexivity.
Qed.

Lemma reduce_sum_1_2d (add : A -> A -> A) (zero : A) (x : tensor A)
    (B T : nat) :
  shape x = [B; T] ->
  reduce_sum add zero 1 x
  = Ok (tabulate [B] (fun idx =>
          fold_left (fun acc t => add acc (item x [nth 0 idx 0; t]))
                    (seq 0 T) zero)).
Proof.
  intros Hx. unfold reduce_sum, rank, size. rewrite Hx. simpl. apply f_equal.
  apply tabulate_ext. intros idx Hr.
  apply in_range1 in Hr. destruct Hr as (b & -> & _). reflexivity.
Qed.

Lemma view_rows_2d (f : list nat -> A) (B D : nat) :
  view_rows D (tabulate [B; D] f)
  = if D =? 0 then Err (RuntimeError "the unspecified dimension is ambiguous")
    else Ok (tabulate [B; D] f).
Proof.
  unfold view_rows. rewrite shape_tabulate.
  destruct (D =? 0) eqn:E; [reflexivity|]. apply Nat.eqb_neq in E.
  replace (numel [B; D]) with (B * D) by (simpl; lia).
  rewrite Nat.Div0.mod_mul, Nat.eqb_refl, Nat.div_mul by assumption.
  reflexivity.
Qed.
End Elements.

End Shapes.
(** * MAAF.pool_text *)

Module PoolText.
Import TorchFacts TorchOps Shapes Reference.
Section Spec.
Context {F : Type} {S : Scalar F}.

Lemma bidx_mid (B T b d t : nat) :
  b < B -> t < T -> bidx [B; 1; T] [b; d; t] = [b; 0; t].
Proof.
  intros Hb Ht. unfold bidx. simpl. now rewrite !bidx_one.
Qed.

Lemma bidx_last (B b d : nat) : b < B -> bidx [B; 1] [b; d] = [b; 0].
Proof.
  intros Hb. unfold bidx. simpl. now rewrite bidx_one.
Qed.

Lemma pool_text_eq (xx : tensor F) (text_mask : tensor Z) (B T D : nat) :
  shape xx = [B; T; D] -> shape text_mask = [B; T] -> wf text_mask ->
  MAAF.pool_text xx text_mask
  = if D =? 0 then Err (RuntimeError "the unspecified dimension is ambiguous")
    else Ok (tabulate [B; D] (fun idx =>
               fdiv (masked_sum xx text_mask T (nth 0 idx 0) (nth 1 idx 0))
                    (of_Z (valid_count text_mask T (nth 0 idx 0))))).
Proof.
  intros Hx Hm Hwf. unfold MAAF.pool_text.
  rewrite (transpose_last2_3d xx B T D Hx). cbn [bind].
  unfold dim_size, rank, size. rewrite shape_tabulate. simpl length.
  change (1 <? 3) with true. cbn [bind nth].
  unfold unsqueeze at 1, rank. rewrite Hm. simpl length. change (1 <=? 2) with true.
  cbn [bind insert_at].
  unfold masked_fill. rewrite shape_tabulate. unfold eq0 at 1, tmap at 1.
  cbn [shape]. rewrite broadcast_mid. cbn [bind].
  unfold sum_bool. rewrite (reduce_sum_1_2d Z.add 0%Z _ B T) by exact Hm.
  cbn [bind]. unfold unsqueeze, rank, float. cbn [tmap shape tabulate length].
  change (1 <=? 1) with true. cbn [bind insert_at].
  unfold Torch.sum. change (3 - 1) with 2.
  rewrite (reduce_sum_last_3d fadd f0 _ B D T) by reflexivity.
  cbn [bind]. rewrite view_rows_2d.
  destruct (D =? 0) eqn:ED; [reflexivity|]. cbn [bind].
  unfold Torch.div, binop. rewrite shape_tabulate. cbn [shape].
  rewrite broadcast_last. apply f_equal. apply tabulate_ext.
  intros idx Hr. pose proof Hr as Hr'.
  apply in_range2 in Hr'. destruct Hr' as (b & d & -> & Hb & Hd).
  rewrite (bidx_same [B; D]) by assumption.
  rewrite item_tabulate by assumption. cbn [nth].
  apply f_equal2.
  - unfold masked_sum. apply fold_left_ext_in. intros acc t Ht.
    apply in_seq in Ht. apply f_equal.
    assert (Hr3 : in_range [B; D; T] [b; d; t] = true)
      by (apply in_range3; exists b, d, t; repeat split; auto; lia).
    rewrite item_tabulate by assumption.
    rewrite (bidx_same [B; D; T]) by assumption.
    rewrite item_tabulate by assumption. cbn [nth].
    change (shape (eq0 {| shape := [B; 1; T]; data := data text_mask |}))
      with [B; 1; T].
    rewrite bidx_mid by lia. unfold eq0.
    rewrite item_tmap.
    + now rewrite (item_unsqueeze1 text_mask B T).
    + now apply wf_unsqueeze1.
    + apply in_range3. exists b, 0, t. repeat split; auto; lia.
  - rewrite bidx_last by lia.
    match goal with
    | |- item {| shape := _; data := data ?y |} _ = _ =>
        replace (item {| shape := [B; 1]; data := data y |} [b; 0])
          with (item y [b])
          by (unfold item; simpl; apply (f_equal (fun k => nth k _ _)); lia)
    end.
    rewrite item_tmap;
      [|apply wf_tabulate|apply in_range1; exists b; auto].
    apply f_equal. rewrite item_tabulate by (apply in_range1; exists b; auto).
    cbn [nth]. unfold valid_count. apply fold_left_ext_in. intros acc t Ht.
    apply in_seq in Ht. apply f_equal.
    assert (Hr2 : in_range (shape text_mask) [b; t] = true)
      by (rewrite Hm; apply in_range2; exists b, t; repeat split; auto; lia).
    rewrite item_tmap; [|now apply wf_tmap|exact Hr2].
    unfold ne0. now rewrite item_tmap.
Qed.

Lemma masked_sum_valid (xx : tensor F) (text_mask : tensor Z) (T b d : nat) :
  (forall a, fadd a f0 = a) ->
  masked_sum xx text_mask T b d
  = total (map (fun t => item xx [b; t; d])
                         (valid_positions text_mask T b)).
Proof.
  intros Hzero. unfold masked_sum, total, valid_positions.
  generalize (seq 0 T) as l. generalize (@f0 F S) at 2 3 as acc.
  intros acc l. revert acc.
  induction l as [|t l IH]; intros acc; [reflexivity|].
  simpl. destruct (Z.eqb (item text_mask [b; t]) 0); simpl.
  - rewrite Hzero. apply IH.
  - apply IH.
Qed.

Lemma valid_count_length (text_mask : tensor Z) (T b : nat) :
  valid_count text_mask T b
  = Z.of_nat (length (valid_positions text_mask T b)).
Proof.
  unfold valid_count, valid_positions.
  change 0%Z with (Z.of_nat (@length nat [])) at 1.
  assert (G : forall (l : list nat) (n : nat),
    fold_left (fun acc t =>
                 (acc + if negb (Z.eqb (item text_mask [b; t]) 0) then 1 else 0)%Z)
              l (Z.of_nat n)
    = Z.of_nat (n + length (filter (fun t => negb (Z.eqb (item text_mask [b; t]) 0)) l))).
  { induction l as [|t l IH]; intros n; simpl.
    - f_equal. lia.
    - destruct (Z.eqb (item text_mask [b; t]) 0); simpl.
      + rewrite Z.add_0_r. apply IH.
      + replace (Z.of_nat n + 1)%Z with (Z.of_nat (Datatypes.S n)) by lia.
        rewrite IH. f_equal. lia. }
  apply (G (seq 0 T) 0).
Qed.

Lemma reduce_sum_1_3d (xx : tensor F) (B T D : nat) :
  shape xx = [B; T; D] ->
  Torch.sum 1 xx
  = Ok (tabulate [B; D] (fun idx =>
          fold_left (fun acc t => fadd acc (item xx [nth 0 idx 0; t; nth 1 idx 0]))
                    (seq 0 T) f0)).
Proof.
  intros Hx. unfold Torch.sum, reduce_sum, rank, size. rewrite Hx. simpl.
  apply f_equal. apply tabulate_ext. intros idx Hr.
  apply in_range2 in Hr. destruct Hr as (b & d & -> & _). reflexivity.
Qed.

Lemma tmap_tabulate {A B : Type} (g : A -> B) (sh : list nat) (f : list nat -> A) :
  tmap g (tabulate sh f) = tabulate sh (fun idx => g (f idx)).
Proof. unfold tmap, tabulate; simpl. now rewrite map_map. Qed.

(** [torch.mean(xx, 1)] on a batch of sequences. *)
Lemma mean_1_3d (xx : tensor F) (B T D : nat) :
  shape xx = [B; T; D] ->
  Torch.mean 1 xx
  = Ok (tabulate [B; D] (fun idx => plain_mean xx T (nth 0 idx 0) (nth 1 idx 0))).
Proof.
  intros Hx. unfold Torch.mean. rewrite (reduce_sum_1_3d xx B T D Hx).
  cbn [bind]. rewrite tmap_tabulate. unfold size. rewrite Hx. cbn [nth].
  apply f_equal. apply tabulate_ext. intros idx _.
  unfold plain_mean, total. apply (f_equal (fun v => fdiv v _)).
  generalize (seq 0 T) as l. generalize (@f0 F S) as acc. intros acc l.
  revert acc. induction l as [|t l IH]; intros acc; [reflexivity|].
  simpl. apply IH.
Qed.

Lemma pool_text_items (xx : tensor F) (text_mask : tensor Z) (B T D : nat) :
  shape xx = [B; T; D] -> shape text_mask = [B; T] -> wf text_mask -> 0 < D ->
  exists r, MAAF.pool_text xx text_mask = Ok r
    /\ shape r = [B; D] /\ wf r
    /\ forall b d, b < B -> d < D ->
         item r [b; d]
         = fdiv (masked_sum xx text_mask T b d) (of_Z (valid_count text_mask T b)).
Proof.
  intros Hx Hm Hwf HD. rewrite (pool_text_eq xx text_mask B T D) by assumption.
  destruct (D =? 0) eqn:E; [apply Nat.eqb_eq in E; lia|].
  eexists. split; [reflexivity|]. split; [reflexivity|].
  split; [apply wf_tabulate|]. intros b d Hb Hd.
  rewrite item_tabulate by (apply in_range2; exists b, d; auto). reflexivity.
Qed.

(** C3. For an embedding of shape [[B; T; D]] and a mask of shape
    [[B; T]], [pool_text] returns the tensor of shape [[B; D]] that holds,
    for each batch row and feature, the sum of the embedding over the
    positions whose mask is not zero, divided by the number of those
    positions (adding the zero a masked position is filled with leaves a
    sum unchanged); and an embedding that differs only at positions whose
    mask is zero is pooled to the very same result.  Both hold with or
    without a valid position in every row. *)
Theorem pool_text_masked_mean (xx xx' : tensor F) (text_mask : tensor Z)
    (B T D : nat) :
  shape xx = [B; T; D] -> shape xx' = [B; T; D] ->
  shape text_mask = [B; T] -> wf text_mask -> 0 < D ->
  (exists r, MAAF.pool_text xx text_mask = Ok r
     /\ shape r = [B; D] /\ wf r
     /\ ((forall a, fadd a f0 = a) ->
         forall b d, b < B -> d < D ->
           item r [b; d] = masked_mean xx text_mask T b d))
  /\ ((forall b t d, b < B -> t < T -> d < D ->
         item text_mask [b; t] <> 0%Z -> item xx' [b; t; d] = item xx [b; t; d]) ->
      MAAF.pool_text xx' text_mask = MAAF.pool_text xx text_mask).
Proof.
  intros Hx Hx' Hm Hwf HD. split.
  - destruct (pool_text_items xx text_mask B T D Hx Hm Hwf HD)
      as (r & Hr & Hs & Hw & Hi).
    exists r. repeat split; try assumption.
    intros Hzero b d Hb Hd. rewrite Hi by assumption. unfold masked_mean.
    now rewrite masked_sum_valid, valid_count_length.
  - intros Hagree.
    rewrite (pool_text_eq xx text_mask B T D), (pool_text_eq xx' text_mask B T D)
      by assumption.
    destruct (D =? 0); [reflexivity|]. apply f_equal. apply tabulate_ext.
    intros idx Hr. apply in_range2 in Hr. destruct Hr as (b & d & -> & Hb & Hd).
    cbn [nth]. apply (f_equal (fun v => fdiv v _)). unfold masked_sum.
    apply fold_left_ext_in. intros acc t Ht. apply in_seq in Ht.
    destruct (Z.eqb (item text_mask [b; t]) 0) eqn:E; [reflexivity|].
    apply Z.eqb_neq in E. rewrite Hagree by (auto; lia). reflexivity.
Qed.

Lemma filter_all {A : Type} (f : A -> bool) (l : list A) :
  (forall x, In x l -> f x = true) -> filter f l = l.
Proof.
  induction l as [|x l IH]; intros Hf; [reflexivity|].
  simpl. rewrite Hf by (left; reflexivity). f_equal. apply IH.
  intros y Hy. apply Hf. now right.
Qed.

Lemma fold_left_fadd_map {A : Type} (g : A -> F) (l : list A) (a : F) :
  fold_left (fun acc t => fadd acc (g t)) l a = fold_left fadd (map g l) a.
Proof.
  revert a. induction l as [|t l IH]; intros a; [reflexivity|]. simpl. apply IH.
Qed.

(** C4. Under a mask of ones [pool_text] is [torch.mean] over the
    sequence axis: each element of its result is the sum of the embedding
    over all the positions divided by their number. *)
Theorem pool_text_all_ones (xx : tensor F) (text_mask : tensor Z) (B T D : nat) :
  shape xx = [B; T; D] -> shape text_mask = [B; T] -> wf text_mask -> 0 < D ->
  (forall b t, b < B -> t < T -> item text_mask [b; t] = 1%Z) ->
  MAAF.pool_text xx text_mask = Torch.mean 1 xx
  /\ exists r, MAAF.pool_text xx text_mask = Ok r
       /\ shape r = [B; D]
       /\ forall b d, b < B -> d < D -> item r [b; d] = plain_mean xx T b d.
Proof.
  intros Hx Hm Hwf HD Hones.
  assert (E : MAAF.pool_text xx text_mask
              = Ok (tabulate [B; D] (fun idx =>
                      plain_mean xx T (nth 0 idx 0) (nth 1 idx 0)))).
  { rewrite (pool_text_eq xx text_mask B T D) by assumption.
    destruct (D =? 0) eqn:E; [apply Nat.eqb_eq in E; lia|].
    apply f_equal. apply tabulate_ext. intros idx Hr.
    apply in_range2 in Hr. destruct Hr as (b & d & -> & Hb & Hd). cbn [nth].
    unfold plain_mean. apply f_equal2.
    - unfold masked_sum, total. rewrite <- fold_left_fadd_map.
      apply fold_left_ext_in. intros acc t Ht. apply in_seq in Ht.
      rewrite Hones by (auto; lia). reflexivity.
    - rewrite valid_count_length. unfold valid_positions.
      rewrite filter_all; [now rewrite length_seq|].
      intros t Ht. apply in_seq in Ht. rewrite Hones by (auto; lia). reflexivity. }
  split.
  - now rewrite E, (mean_1_3d xx B T D).
  - eexists. split; [exact E|]. split; [reflexivity|]. intros b d Hb Hd.
    rewrite item_tabulate by (apply in_range2; exists b, d; auto). reflexivity.
Qed.
End Spec.

(** C3 on one sequence of three positions, the second masked: the pooled
    vector is the mean of the first and the third, whatever the second is. *)
Lemma pool_text_masked_mean_witness :
  (exists r, MAAF.pool_text (tensor_of [1; 3; 2] [1; 2; 3; 4; 5; 6]%Z)
                            (mkTensor [1; 3] [1; 0; 1]%Z) = Ok r
     /\ values r = [3 # 1; 4 # 1]%Q)
  /\ MAAF.pool_text (tensor_of [1; 3; 2] [1; 2; 77; -8; 5; 6]%Z)
                    (mkTensor [1; 3] [1; 0; 1]%Z)
     = MAAF.pool_text (tensor_of [1; 3; 2] [1; 2; 3; 4; 5; 6]%Z)
                      (mkTensor [1; 3] [1; 0; 1]%Z).
Proof.
  destruct (pool_text_masked_mean
              (tensor_of [1; 3; 2] [1; 2; 3; 4; 5; 6]%Z)
              (tensor_of [1; 3; 2] [1; 2; 77; -8; 5; 6]%Z)
              (mkTensor [1; 3] [1; 0; 1]%Z) 1 3 2
              eq_refl eq_refl eq_refl eq_refl ltac:(lia))
    as [(r & Hr & _) Hinv].
  split.
  - exists r. split; [exact Hr|].
    vm_compute in Hr. injection Hr as <-. vm_compute. reflexivity.
  - apply Hinv. intros b t d Hb Ht Hd.
    destruct b as [|?]; [|lia].
    destruct t as [|[|[|?]]]; [| |  |lia];
      (destruct d as [|[|?]]; [| |lia]); vm_compute; congruence.
Defined.

(** C4 on one sequence of three positions, none masked. *)
Lemma pool_text_all_ones_witness :
  MAAF.pool_text (tensor_of [1; 3; 2] [1; 2; 3; 4; 5; 6]%Z)
                 (mkTensor [1; 3] [1; 1; 1]%Z)
  = Torch.mean 1 (tensor_of [1; 3; 2] [1; 2; 3; 4; 5; 6]%Z).
Proof.
  apply (pool_text_all_ones (tensor_of [1; 3; 2] [1; 2; 3; 4; 5; 6]%Z)
           (mkTensor [1; 3] [1; 1; 1]%Z) 1 3 2
           eq_refl eq_refl eq_refl ltac:(lia)).
  intros b t Hb Ht. destruct b as [|?]; [|lia].
  destruct t as [|[|[|?]]]; [reflexivity|reflexivity|reflexivity|lia].
Defined.

End PoolText.
(** * Concatenation, slices, stacks *)

Module Sequences.
Import TorchFacts TorchOps Shapes.

Lemma upd_plus0 (dim : nat) (idx : list nat) : upd dim (fun j => 0 + j) idx = idx.
Proof.
  revert dim. induction idx as [|i idx IH]; intros [|dim]; simpl; try reflexivity.
  now rewrite IH.
Qed.

Lemma upd_nth (dim : nat) (sh : list nat) :
  upd dim (fun _ => nth dim sh 0) sh = sh.
Proof.
  revert dim. induction sh as [|d sh IH]; intros [|dim]; simpl; try reflexivity.
  now rewrite IH.
Qed.

Section Elements.
Context {A : Type} `{Dflt A}.

Lemma cat_single (x : tensor A) (dim : nat) :
  dim < rank x -> cat [x] dim = Ok x.
Proof.
  intros Hd. unfold cat. apply Nat.ltb_lt in Hd. now rewrite Hd.
Qed.

Lemma cat_pair (x y : tensor A) (dim : nat) :
  dim < rank x -> cat [x; y] dim = cat2 dim x y.
Proof.
  intros Hd. unfold cat. apply Nat.ltb_lt in Hd. now rewrite Hd.
Qed.

Lemma cat2_1_3d (x y : tensor A) (B P T D : nat) :
  shape x = [B; P; D] -> shape y = [B; T; D] ->
  cat2 1 x y
  = Ok (tabulate [B; P + T; D] (fun idx =>
          if nth 1 idx 0 <? P then item x idx
          else item y [nth 0 idx 0; nth 1 idx 0 - P; nth 2 idx 0])).
Proof.
  intros Hx Hy. unfold cat2, size. rewrite Hx, Hy. simpl upd.
  rewrite shape_eqb_refl. simpl nth. apply f_equal. apply tabulate_ext.
  intros idx Hr. apply in_range3 in Hr. destruct Hr as (b & p & d & -> & _).
  reflexivity.
Qed.

Lemma cat2_1_2d (x y : tensor A) (B P T : nat) :
  shape x = [B; P] -> shape y = [B; T] ->
  cat2 1 x y
  = Ok (tabulate [B; P + T] (fun idx =>
          if nth 1 idx 0 <? P then item x idx
          else item y [nth 0 idx 0; nth 1 idx 0 - P])).
Proof.
  intros Hx Hy. unfold cat2, size. rewrite Hx, Hy. simpl upd.
  rewrite shape_eqb_refl. simpl nth. apply f_equal. apply tabulate_ext.
  intros idx Hr. apply in_range2 in Hr. destruct Hr as (b & p & -> & _).
  reflexivity.
Qed.

(** A slice that keeps a whole axis is the tensor itself. *)
Lemma narrow_whole (x : tensor A) (dim : nat) :
  wf x -> narrow dim 0 (size x dim) x = x.
Proof.
  intros Hwf. unfold narrow, size. rewrite upd_nth.
  transitivity (tabulate (shape x) (item x)); [|now apply tabulate_item].
  apply tabulate_ext. intros idx _. now rewrite upd_plus0.
Qed.

Lemma slice1_to_3d (x : tensor A) (B N D n : nat) :
  shape x = [B; N; D] -> n <= N ->
  slice1_to n x = Ok (tabulate [B; n; D] (fun idx => item x idx)).
Proof.
  intros Hx Hn. unfold slice1_to, rank, narrow, size. rewrite Hx. simpl.
  rewrite Nat.min_l by assumption. apply f_equal. apply tabulate_ext.
  intros idx Hr. apply in_range3 in Hr. destruct Hr as (b & t & d & -> & _).
  reflexivity.
Qed.

Lemma slice1_last_3d (x : tensor A) (B N D n : nat) :
  shape x = [B; N; D] -> 0 < n -> n <= N ->
  slice1_last n x
  = Ok (tabulate [B; n; D] (fun idx =>
          item x [nth 0 idx 0; (N - n) + nth 1 idx 0; nth 2 idx 0])).
Proof.
  intros Hx H0 Hn. unfold slice1_last, rank, narrow, size. rewrite Hx. simpl.
  destruct (n =? 0) eqn:E; [apply Nat.eqb_eq in E; lia|].
  replace (N - (N - n)) with n by lia. apply f_equal. apply tabulate_ext.
  intros idx Hr. apply in_range3 in Hr. destruct Hr as (b & t & d & -> & _).
  reflexivity.
Qed.

(** With [n = 0] Python's [x[:, -n:]] is [x[:, 0:]], the whole axis. *)
Lemma slice1_last_0 (x : tensor A) :
  wf x -> 2 <= rank x -> slice1_last 0 x = Ok x.
Proof.
  intros Hwf Hr. unfold slice1_last. apply Nat.leb_le in Hr. rewrite Hr.
  simpl. rewrite Nat.sub_0_r. now rewrite narrow_whole.
Qed.

Lemma slice1_to_whole (x : tensor A) :
  wf x -> 2 <= rank x -> slice1_to (size x 1) x = Ok x.
Proof.
  intros Hwf Hr. unfold slice1_to. apply Nat.leb_le in Hr. rewrite Hr.
  rewrite Nat.min_id. now rewrite narrow_whole.
Qed.

Lemma slice1_last_whole (x : tensor A) :
  wf x -> 2 <= rank x -> slice1_last (size x 1) x = Ok x.
Proof.
  intros Hwf Hr. destruct (size x 1) eqn:E.
  - now apply slice1_last_0.
  - unfold slice1_last. apply Nat.leb_le in Hr. rewrite Hr. rewrite E.
    simpl (Datatypes.S n =? 0). cbv iota. rewrite Nat.sub_diag, Nat.sub_0_r.
    rewrite <- E. now rewrite narrow_whole.
Qed.

(** The element of a stack of one or two tensors. *)
Lemma item_stack_fst (x : tensor A) (rest : list (tensor A)) (n : nat)
    (idx : list nat) :
  wf x -> in_range (shape x) idx = true ->
  item (mkTensor (n :: shape x) (concat (map data (x :: rest)))) (0 :: idx)
  = item x idx.
Proof.
  intros Hwf Hr. unfold item. cbn [shape data ravel map concat].
  pose proof (ravel_lt _ _ Hr) as Hlt. rewrite <- Hwf in Hlt.
  rewrite Nat.mul_0_l, Nat.add_0_l. now rewrite app_nth1.
Qed.

Lemma item_stack_snd (x y : tensor A) (rest : list (tensor A)) (n : nat)
    (idx : list nat) :
  wf x -> wf y -> shape y = shape x -> in_range (shape x) idx = true ->
  item (mkTensor (n :: shape x) (concat (map data (x :: y :: rest)))) (1 :: idx)
  = item y idx.
Proof.
  intros Hx Hy Hs Hr. unfold item. cbn [shape data ravel map concat].
  pose proof (ravel_lt _ _ Hr) as Hlt.
  rewrite app_nth2 by (rewrite Hx; lia).
  rewrite Hx, Hs. replace (1 * numel (shape x) + ravel (shape x) idx - numel (shape x))
    with (ravel (shape x) idx) by lia.
  rewrite app_nth1 by (rewrite Hy, Hs; lia). reflexivity.
Qed.
End Elements.

End Sequences.
(** * MAAF.compose *)

Module ComposeSpec.
Import TorchFacts TorchOps Shapes Sequences PoolText Reference.
Section Spec.
Context {F : Type} {S : Scalar F}.
Variable model : tensor F -> tensor Z -> result (tensor F).
Variable output : string.
Variable resolutionwise_pool : tensor F -> result (tensor F).

Local Notation "'compose'" := (MAAF.compose model output resolutionwise_pool).
Local Notation "'pool_image'" := (MAAF.pool_image output resolutionwise_pool).

Lemma mean0_stack1 (p : tensor F) :
  wf p ->
  (st <- stack [p] ;; Torch.mean 0 st)
  = Ok (tabulate (shape p) (fun idx => fdiv (fadd f0 (item p idx)) (of_Z 1))).
Proof.
  intros Hp. unfold stack. cbn [forallb bind length].
  unfold Torch.mean, Torch.sum, reduce_sum, rank, size. cbn [shape length nth].
  change (0 <? Datatypes.S (length (shape p))) with true.
  cbn [bind remove_at seq fold_left insert_at].
  rewrite tmap_tabulate. apply f_equal. apply tabulate_ext. intros idx Hr.
  now rewrite item_stack_fst.
Qed.

Lemma mean0_stack2 (p q : tensor F) :
  wf p -> wf q -> shape q = shape p ->
  (st <- stack [p; q] ;; Torch.mean 0 st)
  = Ok (tabulate (shape p) (fun idx =>
          fdiv (fadd (fadd f0 (item p idx)) (item q idx)) (of_Z 2))).
Proof.
  intros Hp Hq Hs. unfold stack. cbn [forallb]. rewrite Hs, shape_eqb_refl.
  cbn [andb bind length].
  unfold Torch.mean, Torch.sum, reduce_sum, rank, size. cbn [shape length nth].
  change (0 <? Datatypes.S (length (shape p))) with true.
  cbn [bind remove_at seq fold_left insert_at].
  rewrite tmap_tabulate. apply f_equal. apply tabulate_ext. intros idx Hr.
  rewrite item_stack_fst by assumption.
  now rewrite item_stack_snd.
Qed.

(** [compose] on both modalities, with the pooling of the two segments
    in the order of the source. *)
Lemma compose_both (img_emb text_emb : tensor F) (text_mask : tensor Z) :
  compose (Some img_emb) (Some (text_emb, text_mask))
  = (cc <- MAAF.concat_inputs (Some img_emb) (Some (text_emb, text_mask)) ;;
     composed <- model (fst cc) (snd cc) ;;
     mod_im_feat <- MAAF.image_segment composed img_emb ;;
     pooled_im_feat <- pool_image mod_im_feat ;;
     mod_text_feat <- MAAF.text_segment composed text_emb ;;
     pooled_text_feat <- MAAF.pool_text mod_text_feat text_mask ;;
     stacked <- stack [pooled_im_feat; pooled_text_feat] ;;
     Torch.mean 0 stacked).
Proof.
  unfold MAAF.compose.
  destruct (MAAF.concat_inputs _ _) as [cc|e]; [|reflexivity]. cbn [bind].
  destruct (model _ _) as [composed|e]; [|reflexivity]. cbn [bind].
  unfold MAAF.pooled_segments.
  destruct (MAAF.image_segment _ _) as [im|e]; [|reflexivity]. cbn [bind].
  destruct (MAAF.pool_image _ _ _) as [pim|e]; [|reflexivity]. cbn [bind].
  destruct (MAAF.text_segment _ _) as [tx|e]; [|reflexivity]. cbn [bind].
  destruct (MAAF.pool_text _ _) as [ptx|e]; reflexivity.
Qed.

Lemma concat_inputs_both (img_emb text_emb : tensor F) (text_mask : tensor Z)
    (B P T D : nat) :
  shape img_emb = [B; P; D] -> shape text_emb = [B; T; D] ->
  shape text_mask = [B; T] ->
  MAAF.concat_inputs (Some img_emb) (Some (text_emb, text_mask))
  = Ok (tabulate [B; P + T; D] (fun idx =>
          if nth 1 idx 0 <? P then item img_emb idx
          else item text_emb [nth 0 idx 0; nth 1 idx 0 - P; nth 2 idx 0]),
        tabulate [B; P + T] (fun idx =>
          if nth 1 idx 0 <? P then item (ones [B; P]) idx
          else item text_mask [nth 0 idx 0; nth 1 idx 0 - P])).
Proof.
  intros Hi Ht Hm. unfold MAAF.concat_inputs, dim_size, rank, size.
  rewrite Hi. cbn [length nth bind fst snd app].
  change (0 <? 3) with true. change (1 <? 3) with true. cbn [bind fst snd app].
  rewrite cat_pair by (unfold rank; rewrite Hi; simpl; lia).
  rewrite (cat2_1_3d img_emb text_emb B P T D) by assumption. cbn [bind].
  rewrite cat_pair by (unfold rank; simpl; lia).
  rewrite (cat2_1_2d (ones [B; P]) text_mask B P T) by (reflexivity || assumption).
  reflexivity.
Qed.

Lemma image_segment_3d (composed img_emb : tensor F) (B P N D : nat) :
  shape img_emb = [B; P; D] -> shape composed = [B; N; D] -> P <= N ->
  MAAF.image_segment composed img_emb
  = Ok (tabulate [B; P; D] (fun idx => item composed idx)).
Proof.
  intros Hi Hc HP. unfold MAAF.image_segment, dim_size, rank, size. rewrite Hi.
  change (1 <? length [B; P; D]) with true. cbn [bind nth].
  now apply (slice1_to_3d composed B N D P).
Qed.

Lemma text_segment_3d (composed text_emb : tensor F) (B T N D : nat) :
  shape text_emb = [B; T; D] -> shape composed = [B; N; D] -> 0 < T -> T <= N ->
  MAAF.text_segment composed text_emb
  = Ok (tabulate [B; T; D] (fun idx =>
          item composed [nth 0 idx 0; (N - T) + nth 1 idx 0; nth 2 idx 0])).
Proof.
  intros Ht Hc HT HN. unfold MAAF.text_segment, dim_size, rank, size. rewrite Ht.
  change (1 <? length [B; T; D]) with true. cbn [bind nth].
  now apply (slice1_last_3d composed B N D T).
Qed.

(** C5. With both modalities present the sequence given to the encoder
    holds the [P] image positions first and the [T] text positions after
    them, and its mask holds [P] ones followed by the text mask; of an
    encoder output of the same shape, the image segment is its first [P]
    positions and the text segment its last [T] positions, at the offsets
    [P] and [T] of the inputs' shapes, whatever the mask holds.  The text
    is taken to have a position ([0 < T]). *)
Theorem compose_segments (img_emb text_emb composed : tensor F)
    (text_mask : tensor Z) (B P T D : nat) :
  shape img_emb = [B; P; D] -> shape text_emb = [B; T; D] ->
  shape text_mask = [B; T] -> shape composed = [B; P + T; D] -> 0 < T ->
  compose (Some img_emb) (Some (text_emb, text_mask))
  = (cc <- MAAF.concat_inputs (Some img_emb) (Some (text_emb, text_mask)) ;;
     composed <- model (fst cc) (snd cc) ;;
     mod_im_feat <- MAAF.image_segment composed img_emb ;;
     pooled_im_feat <- pool_image mod_im_feat ;;
     mod_text_feat <- MAAF.text_segment composed text_emb ;;
     pooled_text_feat <- MAAF.pool_text mod_text_feat text_mask ;;
     stacked <- stack [pooled_im_feat; pooled_text_feat] ;;
     Torch.mean 0 stacked)
  /\ (exists concat_features concat_mask,
        MAAF.concat_inputs (Some img_emb) (Some (text_emb, text_mask))
        = Ok (concat_features, concat_mask)
        /\ shape concat_features = [B; P + T; D]
        /\ shape concat_mask = [B; P + T]
        /\ (forall b p d, b < B -> p < P -> d < D ->
              item concat_features [b; p; d] = item img_emb [b; p; d])
        /\ (forall b t d, b < B -> t < T -> d < D ->
              item concat_features [b; P + t; d] = item text_emb [b; t; d])
        /\ (forall b p, b < B -> p < P -> item concat_mask [b; p] = 1%Z)
        /\ (forall b t, b < B -> t < T ->
              item concat_mask [b; P + t] = item text_mask [b; t]))
  /\ (exists mod_im_feat,
        MAAF.image_segment composed img_emb = Ok mod_im_feat
        /\ shape mod_im_feat = [B; P; D]
        /\ forall b p d, b < B -> p < P -> d < D ->
             item mod_im_feat [b; p; d] = item composed [b; p; d])
  /\ (exists mod_text_feat,
        MAAF.text_segment composed text_emb = Ok mod_text_feat
        /\ shape mod_text_feat = [B; T; D]
        /\ forall b t d, b < B -> t < T -> d < D ->
             item mod_text_feat [b; t; d] = item composed [b; P + t; d]).
Proof.
  intros Hi Ht Hm Hc HT. split; [apply compose_both|]. split; [|split].
  - rewrite (concat_inputs_both img_emb text_emb text_mask B P T D) by assumption.
    eexists _, _. split; [reflexivity|]. split; [reflexivity|].
    split; [reflexivity|]. repeat split.
    + intros b p d Hb Hp Hd.
      rewrite item_tabulate
        by (apply in_range3; exists b, p, d; repeat split; auto; lia).
      cbn [nth]. apply Nat.ltb_lt in Hp. now rewrite Hp.
    + intros b t d Hb Htt Hd.
      rewrite item_tabulate
        by (apply in_range3; exists b, (P + t), d; repeat split; auto; lia).
      cbn [nth]. replace (P + t <? P) with false by (symmetry; apply Nat.ltb_ge; lia).
      now replace (P + t - P) with t by lia.
    + intros b p Hb Hp.
      rewrite item_tabulate
        by (apply in_range2; exists b, p; repeat split; auto; lia).
      cbn [nth]. pose proof Hp as Hp'. apply Nat.ltb_lt in Hp'. rewrite Hp'.
      unfold ones. now rewrite item_tabulate by (apply in_range2; exists b, p; auto).
    + intros b t Hb Htt.
      rewrite item_tabulate
        by (apply in_range2; exists b, (P + t); repeat split; auto; lia).
      cbn [nth]. replace (P + t <? P) with false by (symmetry; apply Nat.ltb_ge; lia).
      now replace (P + t - P) with t by lia.
  - rewrite (image_segment_3d composed img_emb B P (P + T) D) by (assumption || lia).
    eexists. split; [reflexivity|]. split; [reflexivity|].
    intros b p d Hb Hp Hd.
    now rewrite item_tabulate by (apply in_range3; exists b, p, d; auto).
  - rewrite (text_segment_3d composed text_emb B T (P + T) D) by (assumption || lia).
    eexists. split; [reflexivity|]. split; [reflexivity|].
    intros b t d Hb Htt Hd.
    rewrite item_tabulate by (apply in_range3; exists b, t, d; auto).
    cbn [nth]. now replace (P + T - T) with P by lia.
Qed.

Lemma concat_inputs_image (img_emb : tensor F) (B P D : nat) :
  shape img_emb = [B; P; D] ->
  MAAF.concat_inputs (Some img_emb) None = Ok (img_emb, ones [B; P]).
Proof.
  intros Hi. unfold MAAF.concat_inputs, dim_size, rank, size.
  rewrite Hi. cbn [length nth bind fst snd app].
  change (0 <? 3) with true. change (1 <? 3) with true. cbn [bind fst snd app].
  rewrite cat_single by (unfold rank; rewrite Hi; simpl; lia). cbn [bind].
  rewrite cat_single by (unfold rank; simpl; lia). reflexivity.
Qed.

Lemma concat_inputs_text (text_emb : tensor F) (text_mask : tensor Z) (B T D : nat) :
  shape text_emb = [B; T; D] -> shape text_mask = [B; T] ->
  MAAF.concat_inputs None (Some (text_emb, text_mask)) = Ok (text_emb, text_mask).
Proof.
  intros Ht Hm. unfold MAAF.concat_inputs. cbn [bind fst snd app].
  rewrite cat_single by (unfold rank; rewrite Ht; simpl; lia). cbn [bind].
  rewrite cat_single by (unfold rank; rewrite Hm; simpl; lia). reflexivity.
Qed.

Section Pooled.
(** The laws of the scalars that the mean of a stack relies on. *)
Hypothesis add_zero_l : forall x : F, fadd f0 x = x.
Hypothesis div_one : forall x : F, fdiv x (of_Z 1) = x.
(** The encoder returns a well-formed tensor of the shape of its input, and
    the backbone's pooling a well-formed matrix of one row per batch row. *)
Hypothesis model_shape : forall x m c,
  wf x -> model x m = Ok c -> wf c /\ shape c = shape x.
Hypothesis rwpool_shape : forall x p,
  resolutionwise_pool x = Ok p -> wf p /\ shape p = [size x 0; size x 2].

Lemma pool_image_shape (x p : tensor F) (B P D : nat) :
  shape x = [B; P; D] -> pool_image x = Ok p -> wf p /\ shape p = [B; D].
Proof.
  intros Hx. unfold MAAF.pool_image. destruct (String.eqb output "rwpool").
  - intros Hp. apply rwpool_shape in Hp. unfold size in Hp. now rewrite Hx in Hp.
  - rewrite (mean_1_3d x B P D Hx). intros [= <-]. split; [apply wf_tabulate|reflexivity].
Qed.

Lemma mean_of_one (p : tensor F) :
  wf p -> (st <- stack [p] ;; Torch.mean 0 st) = Ok p.
Proof.
  intros Hp. rewrite mean0_stack1 by assumption. apply f_equal.
  transitivity (tabulate (shape p) (item p)); [|now apply tabulate_item].
  apply tabulate_ext. intros idx _. now rewrite add_zero_l, div_one.
Qed.

Lemma mean_of_two (p q : tensor F) :
  wf p -> wf q -> shape q = shape p ->
  (st <- stack [p; q] ;; Torch.mean 0 st) = Ok (average2 p q).
Proof.
  intros Hp Hq Hs. rewrite mean0_stack2 by assumption. apply f_equal.
  apply tabulate_ext. intros idx _. now rewrite add_zero_l.
Qed.

(** C6. [compose] returns the elementwise mean of the pooled segments of
    the modalities that are present: half the sum of the pooled image
    segment and the pooled text segment when both are; with the image
    alone, the pooled output of the encoder run on the image sequence under
    a mask of ones; with the text alone, the pooled output of the encoder
    run on the text sequence under its mask. *)
Theorem compose_mean (img_emb text_emb : tensor F) (text_mask : tensor Z)
    (B P T D : nat) :
  wf img_emb -> shape img_emb = [B; P; D] ->
  wf text_emb -> shape text_emb = [B; T; D] ->
  wf text_mask -> shape text_mask = [B; T] ->
  (0 < T ->
   compose (Some img_emb) (Some (text_emb, text_mask))
   = (cc <- MAAF.concat_inputs (Some img_emb) (Some (text_emb, text_mask)) ;;
      composed <- model (fst cc) (snd cc) ;;
      mod_im_feat <- MAAF.image_segment composed img_emb ;;
      pooled_im_feat <- pool_image mod_im_feat ;;
      mod_text_feat <- MAAF.text_segment composed text_emb ;;
      pooled_text_feat <- MAAF.pool_text mod_text_feat text_mask ;;
      Ok (average2 pooled_im_feat pooled_text_feat)))
  /\ compose (Some img_emb) None
     = (composed <- model img_emb (ones [B; P]) ;; pool_image composed)
  /\ compose None (Some (text_emb, text_mask))
     = (composed <- model text_emb text_mask ;; MAAF.pool_text composed text_mask).
Proof.
  intros Hwi Hi Hwt Ht Hwm Hm. split; [|split].
  - intros HT. rewrite compose_both.
    rewrite (concat_inputs_both img_emb text_emb text_mask B P T D) by assumption.
    cbn [bind fst snd].
    destruct (model _ _) as [composed|e] eqn:Ec; [|reflexivity]. cbn [bind].
    apply model_shape in Ec; [|apply wf_tabulate]. destruct Ec as [Hwc Hc].
    rewrite shape_tabulate in Hc.
    rewrite (image_segment_3d composed img_emb B P (P + T) D) by (assumption || lia).
    rewrite (text_segment_3d composed text_emb B T (P + T) D) by (assumption || lia).
    cbn [bind].
    destruct (MAAF.pool_image _ _ _) as [pim|e] eqn:Ep; [|reflexivity]. cbn [bind].
    apply (pool_image_shape _ pim B P D) in Ep; [|reflexivity].
    destruct Ep as [Hwp Hp].
    rewrite (pool_text_eq _ text_mask B T D) by (reflexivity || assumption).
    destruct (D =? 0); [reflexivity|]. cbn [bind].
    apply mean_of_two; [assumption|apply wf_tabulate|].
    now rewrite Hp.
  - unfold MAAF.compose. rewrite (concat_inputs_image img_emb B P D Hi).
    cbn [bind fst snd].
    destruct (model _ _) as [composed|e] eqn:Ec; [|reflexivity]. cbn [bind].
    apply model_shape in Ec; [|assumption]. destruct Ec as [Hwc Hc].
    unfold MAAF.pooled_segments, MAAF.image_segment, dim_size, rank, size.
    rewrite Hi. change (1 <? length [B; P; D]) with true. cbn [bind nth].
    replace P with (size composed 1) at 1 by (unfold size; rewrite Hc, Hi; reflexivity).
    rewrite slice1_to_whole
      by (assumption || (unfold rank; rewrite Hc, Hi; simpl; lia)).
    cbn [bind].
    destruct (MAAF.pool_image _ _ composed) as [pim|e] eqn:Ep; [|reflexivity].
    cbn [bind app].
    apply (pool_image_shape composed pim B P D) in Ep; [|now rewrite Hc].
    apply mean_of_one. tauto.
  - unfold MAAF.compose.
    rewrite (concat_inputs_text text_emb text_mask B T D Ht Hm).
    cbn [bind fst snd].
    destruct (model _ _) as [composed|e] eqn:Ec; [|reflexivity]. cbn [bind].
    apply model_shape in Ec; [|assumption]. destruct Ec as [Hwc Hc].
    unfold MAAF.pooled_segments, MAAF.text_segment, dim_size, rank, size.
    rewrite Ht. change (1 <? length [B; T; D]) with true. cbn [bind nth].
    replace T with (size composed 1) at 1 by (unfold size; rewrite Hc, Ht; reflexivity).
    rewrite slice1_last_whole
      by (assumption || (unfold rank; rewrite Hc, Ht; simpl; lia)).
    cbn [bind].
    rewrite (pool_text_eq composed text_mask B T D) by (assumption || congruence).
    destruct (D =? 0); [reflexivity|]. cbn [bind app].
    apply mean_of_one. apply wf_tabulate.
Qed.
End Pooled.
End Spec.

(** The scalar laws on the rationals. *)
Lemma rational_add_zero_l (x : Qc) : fadd f0 x = x.
Proof. apply Qcplus_0_l. Qed.

Lemma rational_add_zero_r (x : Qc) : fadd x f0 = x.
Proof. apply Qcplus_0_r. Qed.

Lemma rational_div_one (x : Qc) : fdiv x (of_Z 1) = x.
Proof.
  simpl. unfold Qcdiv. replace (/ q 1)%Qc with 1%Qc by (apply Qc_is_canon; reflexivity).
  apply Qcmult_1_r.
Qed.

(** C5 on three image patches and four text tokens, the last one padded:
    the text segment of an encoder output is its positions 3 to 6. *)
Lemma compose_segments_witness :
  exists mod_text_feat,
    MAAF.text_segment
      (tensor_of [1; 7; 2] [0; 1; 2; 3; 4; 5; 6; 7; 8; 9; 10; 11; 12; 13]%Z)
      (tensor_of [1; 4; 2] [1; 1; 2; 2; 3; 3; 4; 4]%Z) = Ok mod_text_feat
    /\ shape mod_text_feat = [1; 4; 2]
    /\ item mod_text_feat [0; 0; 0] = q 6.
Proof.
  destruct (compose_segments (fun x _ => Ok x) "mean" (fun x => Ok x)
              (tensor_of [1; 3; 2] [1; 2; 3; 4; 5; 6]%Z)
              (tensor_of [1; 4; 2] [1; 1; 2; 2; 3; 3; 4; 4]%Z)
              (tensor_of [1; 7; 2] [0; 1; 2; 3; 4; 5; 6; 7; 8; 9; 10; 11; 12; 13]%Z)
              (mkTensor [1; 4] [1; 1; 1; 0]%Z) 1 3 4 2
              eq_refl eq_refl eq_refl eq_refl ltac:(lia))
    as (_ & _ & _ & (tx & Htx & Hs & Hi)).
  exists tx. split; [exact Htx|]. split; [exact Hs|].
  rewrite Hi by lia. reflexivity.
Defined.

Lemma mean_pool_shape (x p : tensor Qc) :
  mean_pool x = Ok p -> wf p /\ shape p = [size x 0; size x 2].
Proof.
  unfold mean_pool, rank, size.
  destruct (shape x) as [|B [|P [|D [|? ?]]]] eqn:E; try discriminate.
  simpl. rewrite (mean_1_3d x B P D E). intros [= <-].
  split; [apply wf_tabulate|reflexivity].
Qed.

(** C6 on three image patches and four text tokens, under the identity in
    place of the encoder. *)
Lemma compose_mean_witness :
  MAAF.compose (fun x _ => Ok x) "rwpool" mean_pool
    (Some (tensor_of [1; 3; 2] [1; 2; 3; 4; 5; 6]%Z)) None
  = mean_pool (tensor_of [1; 3; 2] [1; 2; 3; 4; 5; 6]%Z)
  /\ (exists r,
        MAAF.compose (fun x _ => Ok x) "rwpool" mean_pool
          (Some (tensor_of [1; 3; 2] [1; 2; 3; 4; 5; 6]%Z))
          (Some (tensor_of [1; 4; 2] [1; 1; 2; 2; 3; 3; 4; 4]%Z,
                 mkTensor [1; 4] [1; 1; 1; 0]%Z)) = Ok r
        /\ shape r = [1; 2] /\ values r = [5 # 2; 3 # 1]%Q)
  /\ MAAF.compose (fun x _ => Ok x) "rwpool" mean_pool
       None (Some (tensor_of [1; 4; 2] [1; 1; 2; 2; 3; 3; 4; 4]%Z,
                   mkTensor [1; 4] [1; 1; 1; 0]%Z))
     = MAAF.pool_text (tensor_of [1; 4; 2] [1; 1; 2; 2; 3; 3; 4; 4]%Z)
                      (mkTensor [1; 4] [1; 1; 1; 0]%Z).
Proof.
  destruct (compose_mean (fun x _ => Ok x) "rwpool" mean_pool
              rational_add_zero_l rational_div_one
              (fun x m c (Hx : wf x) (E : Ok x = Ok c) =>
                 match E in _ = r return
                   match r with Ok c => wf c /\ shape c = shape x | Err _ => True end
                 with eq_refl => conj Hx eq_refl end)
              mean_pool_shape
              (tensor_of [1; 3; 2] [1; 2; 3; 4; 5; 6]%Z)
              (tensor_of [1; 4; 2] [1; 1; 2; 2; 3; 3; 4; 4]%Z)
              (mkTensor [1; 4] [1; 1; 1; 0]%Z) 1 3 4 2
              eq_refl eq_refl eq_refl eq_refl eq_refl eq_refl)
    as (H0 & H1 & H2).
  split; [exact H1|]. split; [|exact H2].
  rewrite H0 by lia. eexists. split; [vm_compute; reflexivity|].
  split; reflexivity.
Defined.

End ComposeSpec.
(** * TIRG.compose *)

Module TIRGSpec.
Import TorchFacts TorchOps Shapes Sequences.
Section Spec.
Context {F : Type} {S : Scalar F}.

Lemma in_range0 (idx : list nat) : in_range [] idx = true <-> idx = [].
Proof. destruct idx; simpl; split; congruence. Qed.

Lemma select0_vector (a : tensor F) (n k : nat) :
  shape a = [n] -> k < n ->
  select0 k a = Ok (tabulate [] (fun _ => item a [k])).
Proof.
  intros Ha Hk. unfold select0. rewrite Ha. apply Nat.ltb_lt in Hk. rewrite Hk.
  apply f_equal. apply tabulate_ext. intros idx Hr. apply in_range0 in Hr.
  now subst.
Qed.

(** A matrix times a tensor of no dimension: every element is multiplied
    by the one scalar. *)
Lemma mul_scalar (x : tensor F) (v : F) (B D : nat) :
  shape x = [B; D] ->
  Torch.mul x (tabulate [] (fun _ => v))
  = Ok (tabulate [B; D] (fun idx => fmul (item x idx) v)).
Proof.
  intros Hx. unfold Torch.mul, binop. rewrite Hx, shape_tabulate.
  cbn [broadcast_shapes rev app bshape_rev option_map]. apply f_equal.
  apply tabulate_ext. intros idx Hr. rewrite bidx_same by assumption.
  apply f_equal. unfold bidx. cbn [combine map]. now apply item_tabulate.
Qed.

(** C7. Without a text embedding [TIRG.compose] returns the image embedding
    itself, whatever the gate and residual layers are; with image and text
    embeddings of shape [[B; D]] it returns
    [sigmoid(f1) * img_emb * a[0] + f2 * a[1]], where [f1] and [f2] are the
    outputs of the gate and residual layers on the two embeddings joined
    along the features, and the result is the same under every gain vector
    that has the same components 0 and 1. *)
Theorem compose_gated (a a' : tensor F)
    (gate_layers res_layers : tensor F -> result (tensor F))
    (img_emb text_emb joined f1 f2 : tensor F) (B D : nat) :
  shape a = [4] -> shape a' = [4] ->
  item a' [0] = item a [0] -> item a' [1] = item a [1] ->
  shape img_emb = [B; D] -> shape text_emb = [B; D] ->
  cat [img_emb; text_emb] 1 = Ok joined ->
  gate_layers joined = Ok f1 -> wf f1 -> shape f1 = [B; D] ->
  res_layers joined = Ok f2 -> shape f2 = [B; D] ->
  (forall img, TIRG.compose a gate_layers res_layers img None = Ok img)
  /\ (exists f,
       TIRG.compose a gate_layers res_layers (Some img_emb) (Some text_emb)
       = Ok (Some f)
       /\ shape f = [B; D]
       /\ forall b d, b < B -> d < D ->
            item f [b; d]
            = fadd (fmul (fmul (fsigmoid (item f1 [b; d])) (item img_emb [b; d]))
                         (item a [0]))
                   (fmul (item f2 [b; d]) (item a [1])))
  /\ TIRG.compose a' gate_layers res_layers (Some img_emb) (Some text_emb)
     = TIRG.compose a gate_layers res_layers (Some img_emb) (Some text_emb).
Proof.
  intros Ha Ha' H0 H1 Hi Ht Hj Hg Hwf Hf1 Hr Hf2.
  split; [reflexivity|]. split.
  - unfold TIRG.compose, TIRG.gated_feature_composer, TIRG.res_info_composer,
      TIRG.ConCatModule_forward.
    rewrite Hj. cbn [bind]. rewrite Hg, Hr. cbn [bind].
    unfold Torch.mul at 1. rewrite binop_same_shape by (simpl; congruence).
    cbn [bind]. change (shape (sigmoid f1)) with (shape f1). rewrite Hf1.
    rewrite (select0_vector a 4 0 Ha) by lia. cbn [bind].
    rewrite (mul_scalar _ _ B D) by reflexivity. cbn [bind].
    rewrite (select0_vector a 4 1 Ha) by lia. cbn [bind].
    rewrite (mul_scalar _ _ B D) by assumption. cbn [bind].
    unfold Torch.add. rewrite binop_same_shape by reflexivity. cbn [bind].
    eexists. split; [reflexivity|]. split; [reflexivity|].
    intros b d Hb Hd.
    assert (Hin : in_range [B; D] [b; d] = true)
      by (apply in_range2; exists b, d; auto).
    rewrite shape_tabulate. rewrite !item_tabulate by assumption.
    unfold sigmoid. rewrite item_tmap by (assumption || now rewrite Hf1).
    reflexivity.
  - unfold TIRG.compose.
    rewrite (select0_vector a 4 0 Ha), (select0_vector a 4 1 Ha) by lia.
    rewrite (select0_vector a' 4 0 Ha'), (select0_vector a' 4 1 Ha') by lia.
    now rewrite H0, H1.
Qed.
End Spec.

(** C7 on two vectors of two features, with layers that keep the first,
    resp. the last, two of the joined features. *)
Lemma compose_gated_witness :
  (forall img, TIRG.compose (tensor_of [4] [1; 10; 1; 1]%Z)
                 (slice1_to 2) (slice1_last 2) img None = Ok img)
  /\ TIRG.compose (tensor_of [4] [1; 10; 5; 7]%Z) (slice1_to 2) (slice1_last 2)
       (Some (tensor_of [1; 2] [2; 3]%Z)) (Some (tensor_of [1; 2] [4; 5]%Z))
     = TIRG.compose (tensor_of [4] [1; 10; 1; 1]%Z) (slice1_to 2) (slice1_last 2)
         (Some (tensor_of [1; 2] [2; 3]%Z)) (Some (tensor_of [1; 2] [4; 5]%Z)).
Proof.
  destruct (compose_gated (tensor_of [4] [1; 10; 1; 1]%Z)
              (tensor_of [4] [1; 10; 5; 7]%Z) (slice1_to 2) (slice1_last 2)
              (tensor_of [1; 2] [2; 3]%Z) (tensor_of [1; 2] [4; 5]%Z)
              (tensor_of [1; 4] [2; 3; 4; 5]%Z)
              (tensor_of [1; 2] [2; 3]%Z) (tensor_of [1; 2] [4; 5]%Z) 1 2
              eq_refl eq_refl eq_refl eq_refl eq_refl eq_refl
              eq_refl eq_refl eq_refl eq_refl eq_refl eq_refl)
    as (H1 & _ & H3).
  split; [exact H1|exact H3].
Defined.

End TIRGSpec.
(** * ResidualMAAF.compose *)

Module ResidualSpec.
Import TorchFacts TorchOps Shapes Sequences ComposeSpec.
Section Spec.
Context {F : Type} {S : Scalar F}.
Variable model : tensor F -> tensor Z -> result (tensor F).
Variable output : string.
Variable resolutionwise_pool : tensor F -> result (tensor F).

Local Notation "'compose'" := (ResidualMAAF.compose model output resolutionwise_pool).
Local Notation "'maaf_compose'" := (MAAF.compose model output resolutionwise_pool).

(** Adding the number 0 to a tensor, under [x + 0 = x] on the scalars. *)
Lemma plus_zero (x : tensor F) :
  (forall v : F, fadd v (of_Z 0) = v) ->
  tmap (fun v => fadd v (of_Z 0)) x = x.
Proof.
  intros Hz. destruct x as [sh l]. unfold tmap; simpl. f_equal.
  rewrite (map_ext _ (fun v => v)) by exact Hz. apply map_id.
Qed.

(** C8. [ResidualMAAF.compose] is the vector [MAAF.compose] returns on the
    "projections" feature of the image backbone and on the text, plus the
    addition term: the backbone's "fc" feature when images are present,
    plus the masked mean of the text embedding as the text backbone gave
    it when text is present (adding the initial number 0 changes no
    scalar). *)
Theorem compose_residual (img_feat : list (string * tensor F))
    (projections fc text_emb : tensor F) (text_mask : tensor Z) :
  (forall v : F, fadd v (of_Z 0) = v) ->
  ImgTextCompositionBase.getitem img_feat "projections" = Ok projections ->
  ImgTextCompositionBase.getitem img_feat "fc" = Ok fc ->
  compose (Some img_feat) (Some (text_emb, text_mask))
  = (maaf_feat <- maaf_compose (Some projections) (Some (text_emb, text_mask)) ;;
     pooled_text_feat <- MAAF.pool_text text_emb text_mask ;;
     addition_feat <- Torch.add fc pooled_text_feat ;;
     Torch.add maaf_feat addition_feat)
  /\ compose (Some img_feat) None
     = (maaf_feat <- maaf_compose (Some projections) None ;;
        Torch.add maaf_feat fc)
  /\ compose None (Some (text_emb, text_mask))
     = (maaf_feat <- maaf_compose None (Some (text_emb, text_mask)) ;;
        pooled_text_feat <- MAAF.pool_text text_emb text_mask ;;
        Torch.add maaf_feat pooled_text_feat).
Proof.
  intros Hz Hp Hfc. unfold ResidualMAAF.compose. rewrite Hp, Hfc. cbn [bind].
  repeat split.
  - destruct (MAAF.compose _ _ _ _ _) as [maaf|e]; [|reflexivity]. cbn [bind].
    unfold ResidualMAAF.plus at 1. rewrite plus_zero by assumption. cbn [bind].
    destruct (MAAF.pool_text _ _) as [ptx|e]; [|reflexivity]. cbn [bind].
    unfold ResidualMAAF.plus. destruct (Torch.add fc ptx); reflexivity.
  - destruct (MAAF.compose _ _ _ _ _) as [maaf|e]; [|reflexivity]. cbn [bind].
    unfold ResidualMAAF.plus. now rewrite plus_zero by assumption.
  - destruct (MAAF.compose _ _ _ _ _) as [maaf|e]; [|reflexivity]. cbn [bind].
    destruct (MAAF.pool_text _ _) as [ptx|e]; [|reflexivity]. cbn [bind].
    unfold ResidualMAAF.plus. now rewrite plus_zero by assumption.
Qed.
End Spec.

Lemma rational_plus_zero (x : Qc) : fadd x (of_Z 0) = x.
Proof. apply Qcplus_0_r. Qed.

(** C8 on one image of three patches and one text of four tokens, the last
    one padded, under the identity in place of the encoder. *)
Lemma compose_residual_witness :
  exists r,
    ResidualMAAF.compose (fun x _ => Ok x) "mean" (fun x => Ok x)
      (Some [("fc", tensor_of [1; 2] [10; 20]%Z);
             ("projections", tensor_of [1; 3; 2] [1; 2; 3; 4; 5; 6]%Z)])
      (Some (tensor_of [1; 4; 2] [1; 1; 2; 2; 3; 3; 4; 4]%Z,
             mkTensor [1; 4] [1; 1; 1; 0]%Z)) = Ok r
    /\ shape r = [1; 2]
    /\ values r = [29 # 2; 25 # 1]%Q.
Proof.
  destruct (compose_residual (fun x _ => Ok x) "mean" (fun x => Ok x)
              [("fc", tensor_of [1; 2] [10; 20]%Z);
               ("projections", tensor_of [1; 3; 2] [1; 2; 3; 4; 5; 6]%Z)]
              (tensor_of [1; 3; 2] [1; 2; 3; 4; 5; 6]%Z)
              (tensor_of [1; 2] [10; 20]%Z)
              (tensor_of [1; 4; 2] [1; 1; 2; 2; 3; 3; 4; 4]%Z)
              (mkTensor [1; 4] [1; 1; 1; 0]%Z)
              rational_plus_zero eq_refl eq_refl) as (H & _).
  rewrite H. eexists. split; [vm_compute; reflexivity|]. split; reflexivity.
Defined.

End ResidualSpec.
(** * Feature extraction *)

Module ExtractSpec.
Import ImgTextCompositionBase.
Section Spec.
Context {F : Type} {S : Scalar F}.
Variables Img Txt : Type.
Variable image_model : list (option Img) -> @image_out F.
Variable text_model : list (option Txt) -> @text_out F.

Lemma all_none_Forall {A : Type} (xs : list (option A)) :
  all_none xs = true <-> Forall (fun x => x = None) xs.
Proof.
  unfold all_none. rewrite forallb_forall, Forall_forall.
  split; intros H x Hx; specialize (H x Hx); destruct x; congruence.
Qed.

Lemma getitem_In (kv : list (string * tensor F)) (key : string) (v : tensor F) :
  NoDup (map fst kv) -> In (key, v) kv -> getitem kv key = Ok v.
Proof.
  induction kv as [|[k0 v0] kv IH]; simpl; [intros _ []|].
  intros Hnd Hin. inversion Hnd as [|? ? Hnotin Hnd']; subst.
  destruct Hin as [[= -> ->]|Hin].
  - now rewrite String.eqb_refl.
  - destruct (String.eqb k0 key) eqn:E; [|now apply IH].
    apply String.eqb_eq in E. subst k0. exfalso. apply Hnotin.
    change key with (fst (key, v)). now apply in_map.
Qed.

Lemma last_value_last (kv : list (string * tensor F)) (k : string) (v : tensor F) :
  last_value (kv ++ [(k, v)]) = Ok v.
Proof. unfold last_value. now rewrite rev_app_distr. Qed.

(** C9. Each extraction returns [None] without a call of its backbone if
    and only if every element of the batch is [None]; otherwise it calls
    the backbone once, on the batch, and returns what the backbone gave:
    the text backbone's output as it is; of the image backbone's mapping
    the value that was inserted last, whatever its name; and for MAAF the
    value the mapping holds under the name "projections", wherever it
    stands in the mapping. *)
Theorem extract_none_policy (imgs : list (option Img)) (texts : list (option Txt)) :
  (extract_img_feature Img Txt image_model imgs = ([], Ok None)
   <-> Forall (fun x => x = None) imgs)
  /\ (extract_text_feature Img Txt text_model texts = ([], TextNone)
      <-> Forall (fun x => x = None) texts)
  /\ (MAAF.extract_img_feature Img Txt image_model imgs = ([], Ok None)
      <-> Forall (fun x => x = None) imgs)
  /\ (all_none imgs = false ->
      (forall kv k v, image_model imgs = ImgDict (kv ++ [(k, v)]) ->
         extract_img_feature Img Txt image_model imgs
         = ([CallImageModel Img Txt imgs], Ok (Some v)))
      /\ (forall kv v, image_model imgs = ImgDict kv ->
            NoDup (map fst kv) -> In ("projections", v) kv ->
            MAAF.extract_img_feature Img Txt image_model imgs
            = ([CallImageModel Img Txt imgs], Ok (Some v))))
  /\ (all_none texts = false ->
      extract_text_feature Img Txt text_model texts
      = ([CallTextModel Img Txt texts], text_model texts)).
Proof.
  unfold extract_img_feature, extract_text_feature, MAAF.extract_img_feature.
  rewrite <- !all_none_Forall.
  destruct (all_none imgs), (all_none texts); repeat split;
    intros; try reflexivity; try discriminate;
    match goal with
    | H : image_model imgs = _ |- _ => rewrite H
    end;
    (rewrite last_value_last || rewrite (getitem_In kv "projections" v) by assumption);
    reflexivity.
Qed.
End Spec.

(** C9 under a backbone whose mapping holds "projections" first and "fc"
    last: on a batch of absent images neither extraction calls it; on a
    batch that holds an image the base extraction returns the "fc" tensor
    and MAAF's the "projections" tensor; the text extraction returns the
    pair its backbone gave. *)
Lemma extract_none_policy_witness :
  extract_img_feature unit unit
    (fun _ => ImgDict [("projections", tensor_of [1; 1; 1] [2]%Z);
                       ("fc", tensor_of [1; 1] [1]%Z)])
    [None; None] = ([], Ok None)
  /\ MAAF.extract_img_feature unit unit
       (fun _ => ImgDict [("projections", tensor_of [1; 1; 1] [2]%Z);
                          ("fc", tensor_of [1; 1] [1]%Z)])
       [None; None] = ([], Ok None)
  /\ extract_img_feature unit unit
       (fun _ => ImgDict [("projections", tensor_of [1; 1; 1] [2]%Z);
                          ("fc", tensor_of [1; 1] [1]%Z)])
       [None; Some tt]
     = ([CallImageModel unit unit [None; Some tt]],
        Ok (Some (tensor_of [1; 1] [1]%Z)))
  /\ MAAF.extract_img_feature unit unit
       (fun _ => ImgDict [("projections", tensor_of [1; 1; 1] [2]%Z);
                          ("fc", tensor_of [1; 1] [1]%Z)])
       [None; Some tt]
     = ([CallImageModel unit unit [None; Some tt]],
        Ok (Some (tensor_of [1; 1; 1] [2]%Z)))
  /\ extract_text_feature unit unit
       (fun _ => TextMasked (tensor_of [1; 1; 1] [5]%Z) (mkTensor [1; 1] [1]%Z))
       [Some tt]
     = ([CallTextModel unit unit [Some tt]],
        TextMasked (tensor_of [1; 1; 1] [5]%Z) (mkTensor [1; 1] [1]%Z)).
Proof.
  destruct (extract_none_policy unit unit
              (fun _ => ImgDict [("projections", tensor_of [1; 1; 1] [2]%Z);
                                 ("fc", tensor_of [1; 1] [1]%Z)])
              (fun _ => TextMasked (tensor_of [1; 1; 1] [5]%Z)
                                   (mkTensor [1; 1] [1]%Z))
              [None; None] [Some tt])
    as (H1 & _ & H3 & _ & H5).
  destruct (extract_none_policy unit unit
              (fun _ => ImgDict [("projections", tensor_of [1; 1; 1] [2]%Z);
                                 ("fc", tensor_of [1; 1] [1]%Z)])
              (fun _ => TextNone)
              [None; Some tt] [])
    as (_ & _ & _ & H4 & _).
  destruct (H4 eq_refl) as (Hlast & Hproj).
  split; [apply H1; repeat constructor|].
  split; [apply H3; repeat constructor|].
  split; [apply (Hlast [("projections", tensor_of [1; 1; 1] [2]%Z)] "fc");
          reflexivity|].
  split; [|apply H5; reflexivity].
  apply (Hproj [("projections", tensor_of [1; 1; 1] [2]%Z);
                ("fc", tensor_of [1; 1] [1]%Z)]).
  - reflexivity.
  - repeat constructor; simpl; intuition discriminate.
  - left. reflexivity.
Defined.

End ExtractSpec.
(** * MixedPositionalEncoder *)

Module MixedSpec.
Import TorchFacts TorchOps Shapes Sequences.
Import MixedPositionalEncoder.
Section Spec.
Context {F : Type} {S : Scalar F}.
Variable encoder : tensor F -> tensor Z -> result (tensor F).
Variable dropout : tensor F -> tensor F.
Variable learned_init : list nat -> F.

Lemma assign_stride2_shape (start : nat) (pe value r : tensor F) :
  assign_stride2 start pe value = Ok r -> shape r = shape pe /\ wf r.
Proof.
  unfold assign_stride2.
  destruct (shape pe) as [|rows [|cols [|? ?]]]; try discriminate.
  destruct (broadcast_shapes _ _); [|discriminate].
  destruct (shape_eqb _ _); [|discriminate].
  intros [= <-]. split; [reflexivity|apply wf_tabulate].
Qed.

Lemma sinusoidal_table_shape (embed_dim max_len : nat) (pe : tensor F) :
  sinusoidal_table embed_dim max_len = Ok pe ->
  shape pe = [max_len; embed_dim] /\ wf pe.
Proof.
  unfold sinusoidal_table.
  destruct (embed_dim =? 0); [discriminate|]. cbn [bind].
  destruct (Torch.mul _ _) as [angles|e]; [|discriminate]. cbn [bind].
  destruct (assign_stride2 0 _ _) as [pe1|e] eqn:E1; [|discriminate]. cbn [bind].
  intros E2. apply assign_stride2_shape in E1, E2.
  destruct E1 as [H1 _], E2 as [H2 Hwf]. split; [|assumption].
  now rewrite H2, H1.
Qed.

Lemma cat2_0_2d (x y : tensor F) (L M E : nat) :
  shape x = [L; E] -> shape y = [M; E] ->
  cat2 0 x y
  = Ok (tabulate [L + M; E] (fun idx =>
          if nth 0 idx 0 <? L then item x idx
          else item y [nth 0 idx 0 - L; nth 1 idx 0])).
Proof.
  intros Hx Hy. unfold cat2, size. rewrite Hx, Hy. simpl upd.
  rewrite shape_eqb_refl. simpl nth. apply f_equal. apply tabulate_ext.
  intros idx Hr. apply in_range2 in Hr. destruct Hr as (k & c & -> & _).
  reflexivity.
Qed.

(** [x.unsqueeze(0)] holds at [0 :: idx] what [x] holds at [idx]. *)
Lemma item_unsqueeze0 (x : tensor F) (idx : list nat) :
  item (mkTensor (1 :: shape x) (data x)) (0 :: idx) = item x idx.
Proof. reflexivity. Qed.

Lemma init_table (learned_positions embed_dim max_len : nat) (self : t) :
  init learned_init learned_positions embed_dim max_len = Ok self ->
  sinusoidal_table embed_dim max_len = Ok (pe self)
  /\ pos_embed self
     = mkTensor [1; learned_positions + max_len; embed_dim]
         (data (tabulate [learned_positions + max_len; embed_dim] (fun idx =>
                  if nth 0 idx 0 <? learned_positions
                  then item (tabulate [learned_positions; embed_dim] learned_init) idx
                  else item (pe self) [nth 0 idx 0 - learned_positions; nth 1 idx 0]))).
Proof.
  unfold init.
  destruct (sinusoidal_table embed_dim max_len) as [p|e] eqn:Ep; [|discriminate].
  cbn [bind]. destruct (sinusoidal_table_shape _ _ _ Ep) as [Hs Hwf].
  rewrite cat_pair by (unfold rank; simpl; lia).
  rewrite (cat2_0_2d _ p learned_positions max_len embed_dim) by (reflexivity || assumption).
  cbn [bind]. unfold unsqueeze, rank. cbn [Nat.leb bind insert_at].
  intros [= <-]. cbn [pe pos_embed]. split; reflexivity.
Qed.

Lemma broadcast_batch (B n E : nat) :
  broadcast_shapes [B; n; E] [1; n; E] = Some [B; n; E].
Proof.
  unfold broadcast_shapes. simpl. now rewrite !bdim_same, bdim_1_r.
Qed.

Lemma bidx_batch (n E b t c : nat) :
  t < n -> c < E -> bidx [1; n; E] [b; t; c] = [0; t; c].
Proof.
  intros Ht Hc. unfold bidx. simpl. now rewrite !bidx_one.
Qed.

(** The addition of [forward] when the sequence fits the table. *)
Lemma forward_fits (self : t) (xx : tensor F) (mask : tensor Z) (B n E K : nat) :
  shape xx = [B; n; E] -> shape (pos_embed self) = [1; K; E] -> n <= K ->
  forward encoder dropout self xx mask
  = encoder (dropout (tabulate [B; n; E] (fun idx =>
               fadd (item xx idx)
                    (item (pos_embed self) [0; nth 1 idx 0; nth 2 idx 0]))))
            mask.
Proof.
  intros Hx Hp Hn. unfold forward, dim_size, rank, size. rewrite Hx.
  change (1 <? length [B; n; E]) with true. cbn [bind nth].
  rewrite (slice1_to_3d (pos_embed self) 1 K E n) by assumption. cbn [bind].
  unfold Torch.add, binop. rewrite Hx, shape_tabulate, broadcast_batch. cbn [bind].
  apply (f_equal (fun v => encoder (dropout v) mask)). apply tabulate_ext.
  intros idx Hr. rewrite bidx_same by assumption.
  apply in_range3 in Hr. destruct Hr as (b & p & c & -> & Hb & Hpn & Hc).
  rewrite bidx_batch by assumption. cbn [nth].
  now rewrite item_tabulate by (apply in_range3; exists 0, p, c; repeat split; auto; lia).
Qed.

(** The addition of [forward] fails on a sequence longer than a table of
    two rows or more. *)
Lemma forward_too_long (self : t) (xx : tensor F) (mask : tensor Z) (B n E K : nat) :
  shape xx = [B; n; E] -> shape (pos_embed self) = [1; K; E] ->
  K < n -> 2 <= K ->
  forward encoder dropout self xx mask
  = Err (RuntimeError "shapes cannot be broadcast").
Proof.
  intros Hx Hp Hn HK. unfold forward, dim_size, rank, size. rewrite Hx.
  change (1 <? length [B; n; E]) with true. cbn [bind nth].
  unfold slice1_to, rank, size, narrow. rewrite Hp.
  change (2 <=? length [1; K; E]) with true. cbn [bind nth upd].
  rewrite Nat.min_r by lia.
  unfold Torch.add, binop. rewrite Hx, shape_tabulate.
  unfold broadcast_shapes. simpl. rewrite bdim_same.
  unfold bdim at 1.
  replace (n =? K) with false by (symmetry; apply Nat.eqb_neq; lia).
  replace (n =? 1) with false by (symmetry; apply Nat.eqb_neq; lia).
  replace (K =? 1) with false by (symmetry; apply Nat.eqb_neq; lia).
  reflexivity.
Qed.

(** C10, as amended.  The table of the encoder is built once, by [init]:
    its first [learned_positions] rows are the learned encodings and row
    [learned_positions + k] is row [k] of the sinusoidal table.  [forward]
    adds its first [seq_len] rows to a sequence that fits it; with no
    learned position this is the pure sinusoidal encoder; on a sequence
    longer than a table of two rows or more the addition fails, and the
    table is not extended. *)
Theorem forward_table (learned_positions embed_dim max_len : nat) (self : t)
    (xx : tensor F) (mask : tensor Z) (B seq_len : nat) :
  init learned_init learned_positions embed_dim max_len = Ok self ->
  shape xx = [B; seq_len; embed_dim] ->
  (sinusoidal_table embed_dim max_len = Ok (pe self)
   /\ shape (pos_embed self) = [1; learned_positions + max_len; embed_dim]
   /\ (forall k c, k < learned_positions -> c < embed_dim ->
         item (pos_embed self) [0; k; c] = learned_init [k; c])
   /\ (forall k c, k < max_len -> c < embed_dim ->
         item (pos_embed self) [0; learned_positions + k; c] = item (pe self) [k; c]))
  /\ (seq_len <= learned_positions + max_len ->
      forward encoder dropout self xx mask
      = encoder (dropout (tabulate [B; seq_len; embed_dim] (fun idx =>
                   fadd (item xx idx)
                        (item (pos_embed self) [0; nth 1 idx 0; nth 2 idx 0]))))
                mask)
  /\ (learned_positions = 0 ->
      forward encoder dropout self xx mask
      = sinusoidal_forward encoder dropout embed_dim max_len xx mask)
  /\ (learned_positions + max_len < seq_len -> 2 <= learned_positions + max_len ->
      forward encoder dropout self xx mask
      = Err (RuntimeError "shapes cannot be broadcast")).
Proof.
  intros Hinit Hx. destruct (init_table _ _ _ _ Hinit) as [Hpe Hpos].
  destruct (sinusoidal_table_shape _ _ _ Hpe) as [Hs Hwf].
  assert (Hshape : shape (pos_embed self)
                   = [1; learned_positions + max_len; embed_dim])
    by now rewrite Hpos.
  split; [|split; [|split]].
  - split; [assumption|]. split; [assumption|]. split.
    + intros k c Hk Hc. rewrite Hpos.
      change (item {| shape := [1; learned_positions + max_len; embed_dim];
                      data := data ?x |} [0; k; c]) with (item x [k; c]).
      rewrite item_tabulate
        by (apply in_range2; exists k, c; repeat split; auto; lia).
      cbn [nth]. pose proof Hk as Hk'. apply Nat.ltb_lt in Hk'. rewrite Hk'.
      now rewrite item_tabulate by (apply in_range2; exists k, c; auto).
    + intros k c Hk Hc. rewrite Hpos at 1.
      change (item {| shape := [1; learned_positions + max_len; embed_dim];
                      data := data ?x |} [0; learned_positions + k; c])
        with (item x [learned_positions + k; c]).
      rewrite item_tabulate
        by (apply in_range2; exists (learned_positions + k), c; repeat split; auto; lia).
      cbn [nth].
      replace (learned_positions + k <? learned_positions) with false
        by (symmetry; apply Nat.ltb_ge; lia).
      now replace (learned_positions + k - learned_positions) with k by lia.
  - intros Hn. now apply (forward_fits self xx mask B seq_len embed_dim
                            (learned_positions + max_len)).
  - intros ->. unfold forward, sinusoidal_forward. rewrite Hpe. cbn [bind].
    unfold unsqueeze, rank. cbn [Nat.leb bind insert_at]. rewrite Hs.
    rewrite Hpos. cbn [Nat.add].
    replace (tabulate [max_len; embed_dim] _) with (pe self); [reflexivity|].
    rewrite <- (tabulate_item (pe self) Hwf) at 1. rewrite Hs.
    apply tabulate_ext. intros idx Hr.
    apply in_range2 in Hr. destruct Hr as (k & c & -> & _). cbn [nth].
    now rewrite Nat.sub_0_r.
  - intros Hn HK. now apply (forward_too_long self xx mask B seq_len embed_dim
                               (learned_positions + max_len)).
Qed.

Lemma broadcast_column (M h : nat) :
  broadcast_shapes [M; 1] [h] = Some [M; h].
Proof.
  unfold broadcast_shapes. simpl. now rewrite bdim_1_l.
Qed.

Lemma angles_even (max_len h : nat) (scale : F) :
  Torch.mul
    (tabulate [max_len; 1] (fun idx => of_Z (Z.of_nat (nth 0 idx 0))))
    (tabulate [h] (fun idx => fexp (fmul (of_Z (Z.of_nat (2 * nth 0 idx 0))) scale)))
  = Ok (tabulate [max_len; h] (fun idx =>
          fmul (of_Z (Z.of_nat (nth 0 idx 0)))
               (fexp (fmul (of_Z (Z.of_nat (2 * nth 1 idx 0))) scale)))).
Proof.
  unfold Torch.mul, binop. rewrite !shape_tabulate, broadcast_column.
  apply f_equal. apply tabulate_ext. intros idx Hr.
  apply in_range2 in Hr. destruct Hr as (p & i & -> & Hp & Hi).
  unfold bidx. cbn [length Nat.sub skipn combine map fst snd Nat.eqb].
  rewrite !bidx_one by assumption.
  rewrite item_tabulate by (apply in_range2; exists p, 0; auto).
  now rewrite item_tabulate by (apply in_range1; exists i; auto).
Qed.

Lemma assign_stride2_columns (start : nat) (pe value : tensor F) (M E : nat) :
  shape pe = [M; E] -> shape value = [M; (E - start + 1) / 2] ->
  assign_stride2 start pe value
  = Ok (tabulate [M; E] (fun idx =>
          if (start <=? nth 1 idx 0) && Nat.even (nth 1 idx 0 - start)
          then item value [nth 0 idx 0; (nth 1 idx 0 - start) / 2]
          else item pe idx)).
Proof.
  intros Hpe Hv. unfold assign_stride2. rewrite Hpe, Hv.
  rewrite broadcast_shapes_same, shape_eqb_refl. apply f_equal.
  apply tabulate_ext. intros idx Hr.
  apply in_range2 in Hr. destruct Hr as (r & c & -> & Hr & Hc). cbn [nth].
  destruct ((start <=? c) && Nat.even (c - start)) eqn:E0; [|reflexivity].
  apply andb_true_iff in E0. destruct E0 as [Hs _]. apply Nat.leb_le in Hs.
  rewrite bidx_same; [reflexivity|].
  apply in_range2. exists r, ((c - start) / 2). split; [reflexivity|].
  split; [assumption|]. apply Nat.Div0.div_lt_upper_bound.
  pose proof (Nat.div_mod_eq (E - start + 1) 2) as Hd.
  pose proof (Nat.mod_upper_bound (E - start + 1) 2). lia.
Qed.

(** On an even [embed_dim] the construction of the table succeeds, and the
    table holds the sines and cosines of the specification. *)
Lemma sinusoidal_table_even (embed_dim max_len : nat) :
  Nat.even embed_dim = true -> 0 < embed_dim ->
  sinusoidal_table embed_dim max_len
  = Ok (tabulate [max_len; embed_dim] (fun idx =>
          Reference.sinusoid embed_dim (nth 0 idx 0) (nth 1 idx 0))).
Proof.
  intros Heven Hpos. apply Nat.even_spec in Heven. destruct Heven as [h ->].
  unfold sinusoidal_table.
  replace (2 * h =? 0) with false by (symmetry; apply Nat.eqb_neq; lia).
  cbn [bind].
  replace ((2 * h + 1) / 2) with h
    by (apply (Nat.div_unique (2 * h + 1) 2 h 1); lia).
  rewrite angles_even. cbn [bind]. rewrite !PoolText.tmap_tabulate.
  assert (H0 : (2 * h - 0 + 1) / 2 = h)
    by (symmetry; apply (Nat.div_unique (2 * h - 0 + 1) 2 h 1); lia).
  assert (H1 : (2 * h - 1 + 1) / 2 = h)
    by (symmetry; apply (Nat.div_unique (2 * h - 1 + 1) 2 h 0); lia).
  rewrite (assign_stride2_columns 0 _ _ max_len (2 * h))
    by (rewrite ?shape_tabulate, ?H0; reflexivity).
  cbn [bind].
  rewrite (assign_stride2_columns 1 _ _ max_len (2 * h))
    by (rewrite ?shape_tabulate, ?H1; reflexivity).
  apply f_equal. apply tabulate_ext. intros idx Hr.
  apply in_range2 in Hr. destruct Hr as (p & c & -> & Hp & Hc). cbn [nth].
  unfold Reference.sinusoid.
  destruct (Nat.Even_or_Odd c) as [[k ->]|[k ->]].
  - replace (Nat.even (2 * k)) with true
      by (symmetry; apply Nat.even_spec; now exists k).
    replace ((1 <=? 2 * k) && Nat.even (2 * k - 1)) with false.
    2:{ symmetry. apply andb_false_iff. destruct k as [|k]; [left; reflexivity|right].
        replace (2 * Datatypes.S k - 1) with (2 * k + 1) by lia.
        rewrite <- Nat.negb_odd. apply negb_false_iff, Nat.odd_spec. now exists k. }
    rewrite item_tabulate by (apply in_range2; exists p, (2 * k); auto).
    cbn [nth]. rewrite Nat.sub_0_r.
    replace (Nat.even (2 * k)) with true
      by (symmetry; apply Nat.even_spec; now exists k).
    cbn [Nat.leb andb].
    assert (Hk : 2 * k / 2 = k) by (rewrite Nat.mul_comm; apply Nat.div_mul; lia).
    rewrite Hk.
    now rewrite item_tabulate by (apply in_range2; exists p, k; repeat split; auto; lia).
  - replace (Nat.even (2 * k + 1)) with false
      by (symmetry; rewrite <- Nat.negb_odd; apply negb_false_iff, Nat.odd_spec;
          now exists k).
    replace (2 * k + 1 - 1) with (2 * k) by lia.
    replace (Nat.even (2 * k)) with true
      by (symmetry; apply Nat.even_spec; now exists k).
    replace (1 <=? 2 * k + 1) with true by (symmetry; apply Nat.leb_le; lia).
    cbn [andb].
    assert (Hk : 2 * k / 2 = k) by (rewrite Nat.mul_comm; apply Nat.div_mul; lia).
    assert (Hk' : (2 * k + 1) / 2 = k)
      by (symmetry; apply (Nat.div_unique (2 * k + 1) 2 k 1); lia).
    rewrite Hk, Hk'.
    now rewrite item_tabulate by (apply in_range2; exists p, k; repeat split; auto; lia).
Qed.

(** On an even [embed_dim] the constructor returns. *)
Lemma init_even (learned_positions embed_dim max_len : nat) :
  Nat.even embed_dim = true -> 0 < embed_dim ->
  exists self, init learned_init learned_positions embed_dim max_len = Ok self.
Proof.
  intros Heven Hpos. unfold init.
  rewrite sinusoidal_table_even by assumption. cbn [bind].
  rewrite cat_pair by (unfold rank; simpl; lia).
  rewrite (cat2_0_2d _ _ learned_positions max_len embed_dim) by reflexivity.
  cbn [bind]. unfold unsqueeze, rank. cbn [Nat.leb bind]. eexists. reflexivity.
Qed.
End Spec.

(** The claim of C10 as it stands fails on a table of one row: a sequence
    of two positions exceeds it, and [forward] returns, the one row added
    to both positions. *)
Lemma forward_one_row_table :
  exists self r,
    init (fun _ => q 0) 0 2 1 = Ok self
    /\ shape (pos_embed self) = [1; 1; 2]
    /\ forward (fun x _ => Ok x) (fun x => x) self
         (tensor_of [1; 2; 2] [1; 2; 3; 4]%Z) (mkTensor [1; 2] [1; 1]%Z) = Ok r
    /\ shape r = [1; 2; 2].
Proof.
  eexists. eexists. split; [vm_compute; reflexivity|].
  split; [reflexivity|]. split; [vm_compute; reflexivity|]. reflexivity.
Qed.

(** C10 on one learned position and a sinusoidal table of two rows: the
    second row of the table is the first row of [pe], and a sequence of four
    positions does not fit. *)
Lemma forward_table_witness :
  exists self,
    init (fun _ => q 7) 1 2 2 = Ok self
    /\ shape (pos_embed self) = [1; 3; 2]
    /\ item (pos_embed self) [0; 0; 1] = q 7
    /\ item (pos_embed self) [0; 1; 0] = item (pe self) [0; 0]
    /\ forward (fun x _ => Ok x) (fun x => x) self
         (tensor_of [1; 4; 2] [1; 2; 3; 4; 5; 6; 7; 8]%Z) (mkTensor [1; 4] [1; 1; 1; 1]%Z)
       = Err (RuntimeError "shapes cannot be broadcast").
Proof.
  destruct (init_even (fun _ => q 7) 1 2 2 eq_refl ltac:(lia)) as [self Hs].
  exists self.
  destruct (forward_table (fun x _ => Ok x) (fun x => x) (fun _ => q 7) 1 2 2 self
              (tensor_of [1; 4; 2] [1; 2; 3; 4; 5; 6; 7; 8]%Z)
              (mkTensor [1; 4] [1; 1; 1; 1]%Z) 1 4 Hs eq_refl)
    as ((_ & Hsh & Hl & Hp) & _ & _ & Hfail).
  split; [exact Hs|]. split; [exact Hsh|].
  split; [apply (Hl 0 1); lia|]. split; [apply (Hp 0 0); lia|].
  apply Hfail; simpl; lia.
Defined.

End MixedSpec.
(** * MAAF.pool_text: masks *)

Module PoolTextEdges.
Import TorchFacts TorchOps Shapes PoolText Reference.
Section Spec.
Context {F : Type} {S : Scalar F}.

(** X1. Only the zeros of the mask count: two masks that are zero at the
    same positions pool every embedding to the same result. *)
Theorem pool_text_mask_pattern (xx : tensor F) (m1 m2 : tensor Z) (B T D : nat) :
  shape xx = [B; T; D] ->
  shape m1 = [B; T] -> wf m1 -> shape m2 = [B; T] -> wf m2 ->
  (forall b t, b < B -> t < T ->
     Z.eqb (item m1 [b; t]) 0 = Z.eqb (item m2 [b; t]) 0) ->
  MAAF.pool_text xx m1 = MAAF.pool_text xx m2.
Proof.
  intros Hx H1 Hw1 H2 Hw2 Hsame.
  rewrite (pool_text_eq xx m1 B T D), (pool_text_eq xx m2 B T D) by assumption.
  destruct (D =? 0); [reflexivity|]. apply f_equal. apply tabulate_ext.
  intros idx Hr. apply in_range2 in Hr. destruct Hr as (b & d & -> & Hb & Hd).
  cbn [nth]. apply f_equal2.
  - unfold masked_sum. apply fold_left_ext_in. intros acc t Ht.
    apply in_seq in Ht. now rewrite Hsame by (auto; lia).
  - apply f_equal. unfold valid_count. apply fold_left_ext_in. intros acc t Ht.
    apply in_seq in Ht. now rewrite Hsame by (auto; lia).
Qed.

Lemma fold_zeros (l : list nat) :
  (forall a : F, fadd a f0 = a) ->
  fold_left (fun acc (_ : nat) => fadd acc f0) l f0 = f0.
Proof.
  intros Hz. induction l as [|t l IH]; [reflexivity|].
  simpl. now rewrite Hz.
Qed.

(** X2. A row whose every position is masked is not guarded: [pool_text]
    returns, and the row of the result holds the quotient of zero by the
    conversion of the integer zero, for every feature. *)
Theorem pool_text_all_masked (xx : tensor F) (text_mask : tensor Z)
    (B T D b : nat) :
  (forall a : F, fadd a f0 = a) ->
  shape xx = [B; T; D] -> shape text_mask = [B; T] -> wf text_mask -> 0 < D ->
  b < B -> (forall t, t < T -> item text_mask [b; t] = 0%Z) ->
  exists r, MAAF.pool_text xx text_mask = Ok r
    /\ forall d, d < D -> item r [b; d] = fdiv f0 (of_Z 0).
Proof.
  intros Hz Hx Hm Hwf HD Hb Hmask.
  destruct (pool_text_items xx text_mask B T D Hx Hm Hwf HD)
    as (r & Hr & _ & _ & Hi).
  exists r. split; [assumption|]. intros d Hd. rewrite Hi by assumption.
  apply f_equal2.
  - unfold masked_sum. rewrite <- (fold_zeros (seq 0 T) Hz) at 2.
    apply fold_left_ext_in. intros acc t Ht. apply in_seq in Ht.
    now rewrite Hmask by lia.
  - apply f_equal. unfold valid_count.
    transitivity (fold_left (fun acc (_ : nat) => (acc + 0)%Z) (seq 0 T) 0%Z).
    + apply fold_left_ext_in. intros acc t Ht. apply in_seq in Ht.
      now rewrite Hmask by lia.
    + generalize (seq 0 T). intros l. induction l as [|t l IH]; [reflexivity|].
      simpl. exact IH.
Qed.
End Spec.

Lemma pool_text_mask_pattern_witness :
  MAAF.pool_text (tensor_of [1; 3; 2] [1; 2; 3; 4; 5; 6]%Z)
                 (mkTensor [1; 3] [1; 0; 1]%Z)
  = MAAF.pool_text (tensor_of [1; 3; 2] [1; 2; 3; 4; 5; 6]%Z)
                   (mkTensor [1; 3] [7; 0; -2]%Z).
Proof.
  apply (pool_text_mask_pattern (tensor_of [1; 3; 2] [1; 2; 3; 4; 5; 6]%Z)
           (mkTensor [1; 3] [1; 0; 1]%Z) (mkTensor [1; 3] [7; 0; -2]%Z) 1 3 2
           eq_refl eq_refl eq_refl eq_refl eq_refl).
  intros b t Hb Ht. destruct b as [|?]; [|lia].
  destruct t as [|[|[|?]]]; [reflexivity|reflexivity|reflexivity|lia].
Defined.

Lemma pool_text_all_masked_witness :
  exists r,
    MAAF.pool_text (tensor_of [2; 2; 1] [1; 2; 3; 4]%Z)
                   (mkTensor [2; 2] [1; 1; 0; 0]%Z) = Ok r
    /\ item r [1; 0] = fdiv f0 (of_Z 0).
Proof.
  destruct (pool_text_all_masked (tensor_of [2; 2; 1] [1; 2; 3; 4]%Z)
              (mkTensor [2; 2] [1; 1; 0; 0]%Z) 2 2 1 1
              ComposeSpec.rational_add_zero_r eq_refl eq_refl eq_refl
              ltac:(lia) ltac:(lia))
    as (r & Hr & Hi).
  - intros t Ht. destruct t as [|[|?]]; [reflexivity|reflexivity|lia].
  - exists r. split; [exact Hr|]. apply Hi. lia.
Defined.

End PoolTextEdges.
(** * MAAF.pool_text: a mask of another length *)

Module PoolTextShapes.
Import TorchFacts TorchOps Shapes PoolText Reference.
Section Spec.
Context {F : Type} {S : Scalar F}.

Lemma pool_text_to_fill (xx : tensor F) (text_mask : tensor Z) (B T T' D : nat) :
  shape xx = [B; T; D] -> shape text_mask = [B; T'] ->
  MAAF.pool_text xx text_mask
  = (filled <- masked_fill
                 (tabulate [B; D; T] (fun idx =>
                    item xx [nth 0 idx 0; nth 2 idx 0; nth 1 idx 0]))
                 (eq0 (mkTensor [B; 1; T'] (data text_mask))) f0 ;;
     denominators <- sum_bool 1 (ne0 text_mask) ;;
     denominators <- unsqueeze 1 (float denominators) ;;
     total <- Torch.sum (rank filled - 1) filled ;;
     total <- view_rows D total ;;
     Torch.div total denominators).
Proof.
  intros Hx Hm. unfold MAAF.pool_text.
  rewrite (transpose_last2_3d xx B T D Hx). cbn [bind].
  unfold dim_size, rank, size. rewrite shape_tabulate. simpl length.
  change (1 <? 3) with true. cbn [bind nth].
  unfold unsqueeze at 1, rank. rewrite Hm. simpl length. change (1 <=? 2) with true.
  cbn [bind insert_at]. reflexivity.
Qed.

Lemma mask_length_error (xx : tensor F) (text_mask : tensor Z)
    (B T T' D : nat) :
  shape xx = [B; T; D] -> shape text_mask = [B; T'] ->
  T' <> T -> T' <> 1 -> T <> 1 ->
  MAAF.pool_text xx text_mask = Err (RuntimeError "shapes cannot be broadcast").
Proof.
  intros Hx Hm HT H1 H1'.
  rewrite (pool_text_to_fill xx text_mask B T T' D) by assumption.
  unfold masked_fill. rewrite shape_tabulate. unfold eq0, tmap. cbn [shape].
  unfold broadcast_shapes. simpl. unfold bdim at 1.
  replace (T =? T') with false by (symmetry; apply Nat.eqb_neq; lia).
  replace (T' =? 1) with false by (symmetry; apply Nat.eqb_neq; lia).
  replace (T =? 1) with false by (symmetry; apply Nat.eqb_neq; lia).
  reflexivity.
Qed.

(** X3. A mask whose length is neither the length of the sequence nor 1
    makes [pool_text] fail, in [masked_fill], on a sequence whose length
    is not 1 (a sequence of one position is broadcast to the mask). *)
Theorem pool_text_mask_length (xx : tensor F) (text_mask : tensor Z)
    (B T T' D : nat) :
  shape xx = [B; T; D] -> shape text_mask = [B; T'] ->
  T' <> T -> T' <> 1 -> T <> 1 ->
  MAAF.pool_text xx text_mask = Err (RuntimeError "shapes cannot be broadcast").
Proof. apply mask_length_error. Qed.

Lemma broadcast_column_mask (B D T : nat) :
  broadcast_shapes [B; D; T] [B; 1; 1] = Some [B; D; T].
Proof.
  unfold broadcast_shapes. simpl. now rewrite !bdim_1_r, bdim_same.
Qed.

Lemma bidx_column_mask (B b d t : nat) :
  b < B -> bidx [B; 1; 1] [b; d; t] = [b; 0; 0].
Proof.
  intros Hb. unfold bidx. simpl. now rewrite bidx_one.
Qed.

(** X4. A mask of one column is not rejected: it is broadcast over the
    sequence, and where it is not zero the pooled vector is the sum of the
    embedding over all the positions, divided by one. *)
Theorem pool_text_column_mask (xx : tensor F) (text_mask : tensor Z)
    (B T D : nat) :
  shape xx = [B; T; D] -> shape text_mask = [B; 1] -> wf text_mask -> 0 < D ->
  (forall b, b < B -> item text_mask [b; 0] <> 0%Z) ->
  exists r, MAAF.pool_text xx text_mask = Ok r
    /\ shape r = [B; D]
    /\ forall b d, b < B -> d < D ->
         item r [b; d]
         = fdiv (total (map (fun t => item xx [b; t; d]) (seq 0 T))) (of_Z 1).
Proof.
  intros Hx Hm Hwf HD Hnz.
  rewrite (pool_text_to_fill xx text_mask B T 1 D) by assumption.
  unfold masked_fill. rewrite shape_tabulate. unfold eq0 at 1, tmap at 1.
  cbn [shape]. rewrite broadcast_column_mask. cbn [bind].
  unfold sum_bool. rewrite (reduce_sum_1_2d Z.add 0%Z _ B 1) by exact Hm.
  cbn [bind]. unfold unsqueeze, rank, float. cbn [tmap shape tabulate length].
  change (1 <=? 1) with true. cbn [bind insert_at].
  unfold Torch.sum. change (3 - 1) with 2.
  rewrite (reduce_sum_last_3d fadd f0 _ B D T) by reflexivity.
  cbn [bind]. rewrite view_rows_2d.
  destruct (D =? 0) eqn:ED; [apply Nat.eqb_eq in ED; lia|]. cbn [bind].
  unfold Torch.div, binop. rewrite shape_tabulate. cbn [shape].
  rewrite broadcast_last.
  eexists. split; [reflexivity|]. split; [reflexivity|].
  intros b d Hb Hd.
  assert (Hr : in_range [B; D] [b; d] = true)
    by (apply in_range2; exists b, d; auto).
  rewrite item_tabulate by assumption.
  rewrite (bidx_same [B; D]) by assumption.
  rewrite item_tabulate by assumption. cbn [nth].
  assert (Hr2 : in_range (shape text_mask) [b; 0] = true)
    by (rewrite Hm; apply in_range2; exists b, 0; repeat split; auto; lia).
  apply f_equal2.
  - unfold total. rewrite <- fold_left_fadd_map.
    apply fold_left_ext_in. intros acc t Ht.
    apply in_seq in Ht. apply f_equal.
    assert (Hr3 : in_range [B; D; T] [b; d; t] = true)
      by (apply in_range3; exists b, d, t; repeat split; auto; lia).
    rewrite item_tabulate by assumption.
    rewrite (bidx_same [B; D; T]) by assumption.
    rewrite item_tabulate by assumption. cbn [nth].
    change (shape (eq0 {| shape := [B; 1; 1]; data := data text_mask |}))
      with [B; 1; 1].
    rewrite bidx_column_mask by lia. unfold eq0.
    rewrite item_tmap.
    + rewrite (item_unsqueeze1 text_mask B 1) by assumption.
      specialize (Hnz b Hb). apply Z.eqb_neq in Hnz. now rewrite Hnz.
    + now apply wf_unsqueeze1.
    + apply in_range3. exists b, 0, 0. repeat split; auto; lia.
  - rewrite bidx_last by lia.
    match goal with
    | |- item {| shape := _; data := data ?y |} _ = _ =>
        replace (item {| shape := [B; 1]; data := data y |} [b; 0])
          with (item y [b])
          by (unfold item; simpl; apply (f_equal (fun k => nth k _ _)); lia)
    end.
    rewrite item_tmap;
      [|apply wf_tabulate|apply in_range1; exists b; auto].
    apply f_equal. rewrite item_tabulate by (apply in_range1; exists b; auto).
    cbn [nth seq fold_left].
    rewrite item_tmap; [|now apply wf_tmap|exact Hr2].
    unfold ne0. rewrite item_tmap by assumption.
    specialize (Hnz b Hb). apply Z.eqb_neq in Hnz. now rewrite Hnz.
Qed.
End Spec.

(** X4 on three positions under a mask of one column: the pooled vector
    holds the sums 9 and 12, not the means 3 and 4. *)
Lemma pool_text_column_mask_witness :
  exists r,
    MAAF.pool_text (tensor_of [1; 3; 2] [1; 2; 3; 4; 5; 6]%Z)
                   (mkTensor [1; 1] [1]%Z) = Ok r
    /\ values r = [9 # 1; 12 # 1]%Q.
Proof.
  destruct (pool_text_column_mask (tensor_of [1; 3; 2] [1; 2; 3; 4; 5; 6]%Z)
              (mkTensor [1; 1] [1]%Z) 1 3 2 eq_refl eq_refl eq_refl ltac:(lia))
    as (r & Hr & _).
  - intros b Hb. destruct b as [|?]; [|lia]. vm_compute. discriminate.
  - exists r. split; [exact Hr|].
    vm_compute in Hr. injection Hr as <-. vm_compute. reflexivity.
Defined.

Lemma pool_text_mask_length_witness :
  MAAF.pool_text (tensor_of [1; 3; 2] [1; 2; 3; 4; 5; 6]%Z)
                 (mkTensor [1; 2] [1; 1]%Z)
  = Err (RuntimeError "shapes cannot be broadcast").
Proof.
  apply (pool_text_mask_length (tensor_of [1; 3; 2] [1; 2; 3; 4; 5; 6]%Z)
           (mkTensor [1; 2] [1; 1]%Z) 1 3 2 2 eq_refl eq_refl); lia.
Defined.

End PoolTextShapes.
(** * MAAF.compose: edges *)

Module ComposeEdges.
Import TorchFacts TorchOps Shapes Sequences PoolText ComposeSpec PoolTextShapes.
Section Spec.
Context {F : Type} {S : Scalar F}.
Variable model : tensor F -> tensor Z -> result (tensor F).
Variable output : string.
Variable resolutionwise_pool : tensor F -> result (tensor F).

Local Notation "'compose'" := (MAAF.compose model output resolutionwise_pool).
Local Notation "'pool_image'" := (MAAF.pool_image output resolutionwise_pool).

(** X5. Without an image and without a text [MAAF.compose] raises the
    error of [torch.cat] on an empty list, for every encoder: no assertion
    names the missing modalities. *)
Theorem compose_nothing :
  compose None None = Err (RuntimeError "expected a non-empty list of tensors").
Proof. reflexivity. Qed.

(** X6. Image and text embeddings that differ in batch size or in feature
    width make [MAAF.compose] fail in [torch.cat], before the encoder is
    run: the error is the same under every encoder. *)
Theorem compose_mismatch (img_emb text_emb : tensor F) (text_mask : tensor Z)
    (B1 B2 P T D1 D2 : nat) :
  shape img_emb = [B1; P; D1] -> shape text_emb = [B2; T; D2] ->
  B1 <> B2 \/ D1 <> D2 ->
  compose (Some img_emb) (Some (text_emb, text_mask))
  = Err (RuntimeError "sizes of tensors must match except in the cat dimension").
Proof.
  intros Hi Ht Hne. unfold MAAF.compose, MAAF.concat_inputs, dim_size, rank, size.
  rewrite Hi. cbn [length nth bind fst snd app].
  change (0 <? 3) with true. change (1 <? 3) with true. cbn [bind fst snd app].
  rewrite cat_pair by (unfold rank; rewrite Hi; simpl; lia).
  unfold cat2. rewrite Hi, Ht. cbn [upd].
  replace (shape_eqb [B1; 0; D1] [B2; 0; D2]) with false; [reflexivity|].
  symmetry. destruct (shape_eqb [B1; 0; D1] [B2; 0; D2]) eqn:E; [|reflexivity].
  apply shape_eqb_eq in E. injection E as E1 E2. lia.
Qed.

(** X7. The length of the text mask is not compared with the length of
    the text: the encoder is given the sequence of [P + T] positions under
    a mask of [P + T'] positions. *)
Theorem compose_mask_unchecked (img_emb text_emb : tensor F)
    (text_mask : tensor Z) (B P T T' D : nat) :
  shape img_emb = [B; P; D] -> shape text_emb = [B; T; D] ->
  shape text_mask = [B; T'] ->
  exists concat_features concat_mask,
    MAAF.concat_inputs (Some img_emb) (Some (text_emb, text_mask))
    = Ok (concat_features, concat_mask)
    /\ shape concat_features = [B; P + T; D]
    /\ shape concat_mask = [B; P + T']
    /\ compose (Some img_emb) (Some (text_emb, text_mask))
       = (composed <- model concat_features concat_mask ;;
          final_embs <- MAAF.pooled_segments output resolutionwise_pool composed
                          (Some img_emb) (Some (text_emb, text_mask)) ;;
          stacked <- stack final_embs ;;
          Torch.mean 0 stacked).
Proof.
  intros Hi Ht Hm. unfold MAAF.compose, MAAF.concat_inputs, dim_size, rank, size.
  rewrite Hi. cbn [length nth bind fst snd app].
  change (0 <? 3) with true. change (1 <? 3) with true. cbn [bind fst snd app].
  rewrite cat_pair by (unfold rank; rewrite Hi; simpl; lia).
  rewrite (cat2_1_3d img_emb text_emb B P T D) by assumption. cbn [bind].
  rewrite cat_pair by (unfold rank; simpl; lia).
  rewrite (cat2_1_2d (ones [B; P]) text_mask B P T') by (reflexivity || assumption).
  cbn [bind fst snd]. eexists _, _. repeat split.
Qed.

(** X8. Whatever the output mode other than "rwpool" is, "token" included,
    [MAAF.compose] pools the image segment by its mean and never calls the
    backbone's pooling. *)
Theorem compose_output_modes (output1 output2 : string)
    (pool1 pool2 : tensor F -> result (tensor F))
    (img_emb : option (tensor F)) (text_emb : option (tensor F * tensor Z)) :
  output1 <> "rwpool" -> output2 <> "rwpool" ->
  MAAF.compose model output1 pool1 img_emb text_emb
  = MAAF.compose model output2 pool2 img_emb text_emb.
Proof.
  intros H1 H2. apply String.eqb_neq in H1, H2.
  unfold MAAF.compose, MAAF.pooled_segments, MAAF.pool_image.
  now rewrite H1, H2.
Qed.

Section Shaped.
Hypothesis model_shape : forall x m c,
  wf x -> model x m = Ok c -> wf c /\ shape c = shape x.
Hypothesis rwpool_shape : forall x p,
  resolutionwise_pool x = Ok p -> wf p /\ shape p = [size x 0; size x 2].

(** X9. When [MAAF.compose] returns, on [B] images of [P] patches or [B]
    texts of [T] tokens or both, of [D] features, it returns a well-formed
    matrix of [B] rows and [D] columns. *)
Theorem compose_shape (img_emb text_emb r : tensor F) (text_mask : tensor Z)
    (B P T D : nat) :
  wf img_emb -> shape img_emb = [B; P; D] ->
  wf text_emb -> shape text_emb = [B; T; D] ->
  wf text_mask -> shape text_mask = [B; T] ->
  (0 < T -> compose (Some img_emb) (Some (text_emb, text_mask)) = Ok r ->
   wf r /\ shape r = [B; D])
  /\ (compose (Some img_emb) None = Ok r -> wf r /\ shape r = [B; D])
  /\ (compose None (Some (text_emb, text_mask)) = Ok r ->
      wf r /\ shape r = [B; D]).
Proof.
  intros Hwi Hi Hwt Ht Hwm Hm. split; [|split].
  - intros HT. rewrite compose_both.
    rewrite (concat_inputs_both img_emb text_emb text_mask B P T D) by assumption.
    cbn [bind fst snd].
    destruct (model _ _) as [composed|e] eqn:Ec; [|discriminate]. cbn [bind].
    apply model_shape in Ec; [|apply wf_tabulate]. destruct Ec as [Hwc Hc].
    rewrite shape_tabulate in Hc.
    rewrite (image_segment_3d composed img_emb B P (P + T) D) by (assumption || lia).
    rewrite (text_segment_3d composed text_emb B T (P + T) D) by (assumption || lia).
    cbn [bind].
    destruct (MAAF.pool_image _ _ _) as [pim|e] eqn:Ep; [|discriminate]. cbn [bind].
    apply (pool_image_shape _ _ rwpool_shape _ pim B P D) in Ep; [|reflexivity].
    destruct Ep as [Hwp Hp].
    rewrite (pool_text_eq _ text_mask B T D) by (reflexivity || assumption).
    destruct (D =? 0); [discriminate|]. cbn [bind].
    rewrite mean0_stack2 by (assumption || apply wf_tabulate || now rewrite Hp).
    intros [= <-]. split; [apply wf_tabulate|]. now rewrite shape_tabulate.
  - unfold MAAF.compose. rewrite (concat_inputs_image img_emb B P D Hi).
    cbn [bind fst snd].
    destruct (model _ _) as [composed|e] eqn:Ec; [|discriminate]. cbn [bind].
    apply model_shape in Ec; [|assumption]. destruct Ec as [Hwc Hc].
    unfold MAAF.pooled_segments.
    rewrite (image_segment_3d composed img_emb B P P D) by (congruence || lia).
    cbn [bind].
    destruct (MAAF.pool_image _ _ _) as [pim|e] eqn:Ep; [|discriminate].
    cbn [bind app].
    apply (pool_image_shape _ _ rwpool_shape _ pim B P D) in Ep; [|reflexivity].
    destruct Ep as [Hwp Hp].
    rewrite mean0_stack1 by assumption.
    intros [= <-]. split; [apply wf_tabulate|]. now rewrite shape_tabulate.
  - unfold MAAF.compose.
    rewrite (concat_inputs_text text_emb text_mask B T D Ht Hm).
    cbn [bind fst snd].
    destruct (model _ _) as [composed|e] eqn:Ec; [|discriminate]. cbn [bind].
    apply model_shape in Ec; [|assumption]. destruct Ec as [Hwc Hc].
    unfold MAAF.pooled_segments, MAAF.text_segment, dim_size, rank, size.
    rewrite Ht. change (1 <? length [B; T; D]) with true. cbn [bind nth].
    replace T with (size composed 1) at 1 by (unfold size; rewrite Hc, Ht; reflexivity).
    rewrite slice1_last_whole
      by (assumption || (unfold rank; rewrite Hc, Ht; simpl; lia)).
    cbn [bind].
    rewrite (pool_text_eq composed text_mask B T D) by (assumption || congruence).
    destruct (D =? 0); [discriminate|]. cbn [bind app].
    rewrite mean0_stack1 by apply wf_tabulate.
    intros [= <-]. split; [apply wf_tabulate|]. now rewrite shape_tabulate.
Qed.

(** X10. A text of no position beside images of two patches or more makes
    [MAAF.compose] fail: the slice [composed[:, -0:]] is the whole output
    of the encoder, which the empty mask does not fit.  (The output on one
    patch is broadcast to the empty mask.) *)
Theorem compose_empty_text (img_emb text_emb r : tensor F) (text_mask : tensor Z)
    (B P D : nat) :
  shape img_emb = [B; P; D] -> shape text_emb = [B; 0; D] ->
  shape text_mask = [B; 0] -> 2 <= P ->
  compose (Some img_emb) (Some (text_emb, text_mask)) = Ok r -> False.
Proof.
  intros Hi Ht Hm HP. rewrite compose_both.
  rewrite (concat_inputs_both img_emb text_emb text_mask B P 0 D) by assumption.
  cbn [bind fst snd].
  destruct (model _ _) as [composed|e] eqn:Ec; [|discriminate]. cbn [bind].
  apply model_shape in Ec; [|apply wf_tabulate]. destruct Ec as [Hwc Hc].
  rewrite shape_tabulate in Hc.
  rewrite (image_segment_3d composed img_emb B P (P + 0) D) by (assumption || lia).
  cbn [bind].
  destruct (MAAF.pool_image _ _ _) as [pim|e]; [|discriminate]. cbn [bind].
  unfold MAAF.text_segment, dim_size, rank, size. rewrite Ht.
  change (1 <? length [B; 0; D]) with true. cbn [bind nth].
  rewrite slice1_last_0 by (assumption || (unfold rank; rewrite Hc; simpl; lia)).
  cbn [bind].
  rewrite (mask_length_error composed text_mask B (P + 0) 0 D Hc Hm)
    by lia.
  discriminate.
Qed.
End Shaped.
End Spec.

Lemma identity_shape (x : tensor Qc) (m : tensor Z) (c : tensor Qc) :
  wf x -> Ok x = Ok c -> wf c /\ shape c = shape x.
Proof. intros Hx [= <-]. split; [assumption|reflexivity]. Qed.

Lemma compose_mismatch_witness :
  MAAF.compose (fun x _ => Ok x) "mean" mean_pool
    (Some (tensor_of [1; 1; 2] [1; 2]%Z))
    (Some (tensor_of [2; 1; 2] [1; 2; 3; 4]%Z, mkTensor [2; 1] [1; 1]%Z))
  = Err (RuntimeError "sizes of tensors must match except in the cat dimension").
Proof.
  apply (compose_mismatch (fun x _ => Ok x) "mean" mean_pool
           (tensor_of [1; 1; 2] [1; 2]%Z) (tensor_of [2; 1; 2] [1; 2; 3; 4]%Z)
           (mkTensor [2; 1] [1; 1]%Z) 1 2 1 1 2 2 eq_refl eq_refl).
  left. lia.
Defined.

Lemma compose_mask_unchecked_witness :
  exists concat_features concat_mask,
    MAAF.concat_inputs (Some (tensor_of [1; 1; 1] [1]%Z))
      (Some (tensor_of [1; 2; 1] [2; 3]%Z, mkTensor [1; 3] [1; 1; 0]%Z))
    = Ok (concat_features, concat_mask)
    /\ shape concat_features = [1; 3; 1]
    /\ shape concat_mask = [1; 4].
Proof.
  destruct (compose_mask_unchecked (fun x _ => Ok x) "mean" mean_pool
              (tensor_of [1; 1; 1] [1]%Z) (tensor_of [1; 2; 1] [2; 3]%Z)
              (mkTensor [1; 3] [1; 1; 0]%Z) 1 1 2 3 1 eq_refl eq_refl eq_refl)
    as (cf & cm & H & H1 & H2 & _).
  exists cf, cm. split; [exact H|]. split; [exact H1|exact H2].
Defined.

Lemma compose_output_modes_witness :
  MAAF.compose (fun x _ => Ok x) "token" (fun _ => Err (RuntimeError "unused"))
    (Some (tensor_of [1; 2; 1] [1; 3]%Z)) None
  = MAAF.compose (fun x _ => Ok x) "mean" mean_pool
      (Some (tensor_of [1; 2; 1] [1; 3]%Z)) None.
Proof.
  apply (compose_output_modes (fun x _ => Ok x) "token" "mean"); discriminate.
Defined.

Lemma compose_shape_witness :
  exists r,
    MAAF.compose (fun x _ => Ok x) "rwpool" mean_pool
      (Some (tensor_of [1; 3; 2] [1; 2; 3; 4; 5; 6]%Z))
      (Some (tensor_of [1; 4; 2] [1; 1; 2; 2; 3; 3; 4; 4]%Z,
             mkTensor [1; 4] [1; 1; 1; 0]%Z)) = Ok r
    /\ wf r /\ shape r = [1; 2].
Proof.
  destruct (MAAF.compose (fun x _ => Ok x) "rwpool" mean_pool
              (Some (tensor_of [1; 3; 2] [1; 2; 3; 4; 5; 6]%Z))
              (Some (tensor_of [1; 4; 2] [1; 1; 2; 2; 3; 3; 4; 4]%Z,
                     mkTensor [1; 4] [1; 1; 1; 0]%Z))) as [r|e] eqn:E.
  - exists r. split; [reflexivity|].
    destruct (compose_shape (fun x _ => Ok x) "rwpool" mean_pool
                identity_shape mean_pool_shape
                (tensor_of [1; 3; 2] [1; 2; 3; 4; 5; 6]%Z)
                (tensor_of [1; 4; 2] [1; 1; 2; 2; 3; 3; 4; 4]%Z) r
                (mkTensor [1; 4] [1; 1; 1; 0]%Z) 1 3 4 2
                eq_refl eq_refl eq_refl eq_refl eq_refl eq_refl) as (H & _).
    apply H; [lia|exact E].
  - vm_compute in E. discriminate E.
Defined.

Lemma compose_empty_text_witness :
  exists e,
    MAAF.compose (fun x _ => Ok x) "mean" mean_pool
      (Some (tensor_of [1; 2; 1] [1; 3]%Z))
      (Some (tensor_of [1; 0; 1] []%Z, mkTensor [1; 0] []%Z)) = Err e.
Proof.
  destruct (MAAF.compose (fun x _ => Ok x) "mean" mean_pool
              (Some (tensor_of [1; 2; 1] [1; 3]%Z))
              (Some (tensor_of [1; 0; 1] []%Z, mkTensor [1; 0] []%Z)))
    as [r|e] eqn:E.
  - exfalso.
    apply (compose_empty_text (fun x _ => Ok x) "mean" mean_pool
             identity_shape
             (tensor_of [1; 2; 1] [1; 3]%Z) (tensor_of [1; 0; 1] []%Z) r
             (mkTensor [1; 0] []%Z) 1 2 1 eq_refl eq_refl eq_refl ltac:(lia) E).
  - exists e. reflexivity.
Defined.

End ComposeEdges.
(** * Extraction: errors *)

Module ExtractEdges.
Import ImgTextCompositionBase.
Section Spec.
Context {F : Type} {S : Scalar F}.
Variables Img Txt : Type.
Variable image_model : list (option Img) -> @image_out F.

(** X11. On a batch that holds an image, the base [extract_img_feature]
    returns the value the backbone's mapping received last; it raises
    [IndexError] on an empty mapping and [AttributeError] under the default
    backbone, which returns [None]. *)
Theorem extract_last (imgs : list (option Img)) :
  all_none imgs = false ->
  (forall kv k v, image_model imgs = ImgDict (kv ++ [(k, v)]) ->
     extract_img_feature Img Txt image_model imgs
     = ([CallImageModel Img Txt imgs], Ok (Some v)))
  /\ (image_model imgs = ImgDict [] ->
      extract_img_feature Img Txt image_model imgs
      = ([CallImageModel Img Txt imgs], Err (IndexError "list index out of range")))
  /\ (image_model imgs = ImgNone ->
      extract_img_feature Img Txt image_model imgs
      = ([CallImageModel Img Txt imgs],
         Err (AttributeError "'NoneType' object has no attribute 'values'"))).
Proof.
  intros Hn. unfold extract_img_feature. rewrite Hn. repeat split.
  - intros kv k v ->. unfold last_value. now rewrite rev_app_distr.
  - now intros ->.
  - now intros ->.
Qed.

Lemma getitem_missing (kv : list (string * tensor F)) (key : string) :
  getitem kv key = Err (KeyError key)
  <-> forall k v, In (k, v) kv -> k <> key.
Proof.
  induction kv as [|[k0 v0] kv IH]; simpl.
  - split; [intros _ k v []|reflexivity].
  - destruct (String.eqb k0 key) eqn:E.
    + apply String.eqb_eq in E. split; [discriminate|].
      intros H. exfalso. apply (H k0 v0); auto.
    + apply String.eqb_neq in E. rewrite IH. split.
      * intros H k v [[= <- <-]|Hin]; [assumption|now apply (H k v)].
      * intros H k v Hin. apply (H k v). now right.
Qed.

(** X12. On a batch that holds an image, [MAAF.extract_img_feature] raises
    [KeyError] exactly when the backbone's mapping has no "projections"
    entry, and [TypeError] under the default backbone. *)
Theorem extract_projections (imgs : list (option Img))
    (kv : list (string * tensor F)) :
  all_none imgs = false ->
  (image_model imgs = ImgDict kv ->
   (MAAF.extract_img_feature Img Txt image_model imgs
    = ([CallImageModel Img Txt imgs], Err (KeyError "projections"))
    <-> forall k v, In (k, v) kv -> k <> "projections"))
  /\ (image_model imgs = ImgNone ->
      MAAF.extract_img_feature Img Txt image_model imgs
      = ([CallImageModel Img Txt imgs],
         Err (TypeError "'NoneType' object is not subscriptable"))).
Proof.
  intros Hn. unfold MAAF.extract_img_feature. rewrite Hn. split.
  - intros ->. rewrite <- getitem_missing. split.
    + intros [= H]. destruct (getitem kv "projections"); [discriminate|].
      simpl in H. congruence.
    + now intros ->.
  - now intros ->.
Qed.
End Spec.

Lemma extract_last_witness :
  extract_img_feature unit unit
    (fun _ => ImgDict [("projections", tensor_of [1; 1; 1] [2]%Z);
                       ("fc", tensor_of [1; 1] [1]%Z)])
    [Some tt]
  = ([CallImageModel unit unit [Some tt]], Ok (Some (tensor_of [1; 1] [1]%Z))).
Proof.
  destruct (extract_last unit unit
              (fun _ => ImgDict [("projections", tensor_of [1; 1; 1] [2]%Z);
                                 ("fc", tensor_of [1; 1] [1]%Z)])
              [Some tt] eq_refl) as (H & _).
  apply (H [("projections", tensor_of [1; 1; 1] [2]%Z)] "fc"). reflexivity.
Defined.

Lemma extract_projections_witness :
  MAAF.extract_img_feature unit unit
    (fun _ => ImgDict [("fc", tensor_of [1; 1] [1]%Z)]) [Some tt]
  = ([CallImageModel unit unit [Some tt]], Err (KeyError "projections")).
Proof.
  destruct (extract_projections unit unit
              (fun _ => ImgDict [("fc", tensor_of [1; 1] [1]%Z)]) [Some tt]
              [("fc", tensor_of [1; 1] [1]%Z)] eq_refl) as (H & _).
  apply (H eq_refl). intros k v [[= <- _]|[]]. discriminate.
Defined.

End ExtractEdges.
(** * The forward pass *)

Module ForwardSpec.
Import ImgTextCompositionBase Composition.
Section Spec.
Context {F : Type} {S : Scalar F}.
Variables Img Txt ImgEmb TextEmb Out Score Loss Labels : Type.

Local Notation "'model_t'" := (@Composition.t F Img Txt Out Score Loss Labels).
Local Notation "'ev'" := (Composition.event Img Txt Out Score).

Variable extract_img : model_t -> list (option Img)
  -> list (call Img Txt) * result ImgEmb.
Variable extract_text : model_t -> list (option Txt)
  -> list (call Img Txt) * result TextEmb.
Variable compose : ImgEmb -> TextEmb -> result Out.

Local Notation "'forward'" :=
  (Composition.forward extract_img extract_text compose).
Local Notation "'compute_loss'" :=
  (Composition.compute_loss (Labels := Labels) extract_img extract_text compose).

(** X13. [forward] extracts the image features, then the text features,
    then composes, then calls the head, and stops at the first of these
    that raises: when the image extraction raises the text backbone is not
    called, and the head is called only on a composition. *)
Theorem forward_order (self : model_t) (imgs : list (option Img))
    (texts : list (option Txt)) (c1 c2 : list (call Img Txt))
    (r1 : result ImgEmb) (r2 : result TextEmb) :
  extract_img self imgs = (c1, r1) -> extract_text self texts = (c2, r2) ->
  forward self (Some imgs) (Some texts)
  = match r1 with
    | Err e => (map Backbone c1, Err e)
    | Ok image_emb =>
        match r2 with
        | Err e => (map Backbone (c1 ++ c2), Err e)
        | Ok text_emb =>
            match compose image_emb text_emb with
            | Err e => (map Backbone (c1 ++ c2), Err e)
            | Ok composition =>
                (map Backbone (c1 ++ c2)
                   ++ [Head composition],
                 head self composition)
            end
        end
    end.
Proof.
  intros H1 H2. unfold Composition.forward, get_composition, over_batch, tbind.
  rewrite H1. destruct r1 as [i|e]; [|reflexivity].
  rewrite H2. destruct r2 as [t|e]; rewrite map_app, ?app_nil_r; [|reflexivity].
  destruct (compose i t) as [o|e]; rewrite ?app_nil_r; [|reflexivity].
  destruct (head self o); reflexivity.
Qed.

End Spec.

Section Base.
Context {F : Type} {S : Scalar F}.
Variables Img Txt Out Score Loss Labels : Type.
Variable compose : option (tensor F) -> @text_out F -> result Out.

Local Notation "'forward'" :=
  (Composition.forward (Img := Img) (Txt := Txt) (Loss := Loss) (Labels := Labels)
     base_extract_img_feature base_extract_text_feature compose).

(** X15. On batches that hold no image and no text, [forward] calls no
    backbone: the composer is given [None] twice, and the head is called on
    what the composer returns, if it returns. *)
Theorem forward_all_none (self : @Composition.t F Img Txt Out Score Loss Labels)
    (imgs : list (option Img)) (texts : list (option Txt)) :
  all_none imgs = true -> all_none texts = true ->
  forward self (Some imgs) (Some texts)
  = match compose None TextNone with
    | Ok composition =>
        ([Head composition], head self composition)
    | Err e => ([], Err e)
    end.
Proof.
  intros Hi Ht.
  unfold Composition.forward, get_composition, over_batch,
    base_extract_img_feature, base_extract_text_feature,
    extract_img_feature, extract_text_feature.
  rewrite Hi, Ht. cbn [tbind map app].
  destruct (compose None TextNone) as [o|e]; [|reflexivity].
  cbn [tbind app]. destruct (head self o); reflexivity.
Qed.

(** X16. A model constructed without backbones has the defaults that
    return [None]: on a batch that holds an image its image extraction
    raises [AttributeError], and on a batch that holds a text its text
    extraction returns [None], each after one call of the default. *)
Theorem default_backbones (head : Out -> result Score)
    (head_compute_loss : Score -> option Score -> option Labels -> result Loss)
    (imgs : list (option Img)) (texts : list (option Txt)) :
  all_none imgs = false -> all_none texts = false ->
  base_extract_img_feature
    (init (F := F) (Img := Img) (Txt := Txt) head head_compute_loss None None) imgs
  = ([CallImageModel Img Txt imgs],
     Err (AttributeError "'NoneType' object has no attribute 'values'"))
  /\ base_extract_text_feature
       (init (F := F) (Img := Img) (Txt := Txt) head head_compute_loss None None) texts
     = ([CallTextModel Img Txt texts], Ok TextNone).
Proof.
  intros Hi Ht.
  unfold base_extract_img_feature, base_extract_text_feature,
    extract_img_feature, extract_text_feature, init.
  cbn [image_model text_model]. now rewrite Hi, Ht.
Qed.
End Base.

(** X13 on the small model: both backbones are called, the image one
    first, then the head. *)
Lemma forward_order_witness :
  Composition.forward base_extract_img_feature base_extract_text_feature
    Toy.addition Toy.self (Some [Some tt]) (Some [Some tt])
  = ([Backbone (CallImageModel unit unit [Some tt]);
      Backbone (CallTextModel unit unit [Some tt]);
      Head (tensor_of [1; 2] [11; 22]%Z)],
     Ok (tensor_of [1; 2] [11; 22]%Z)).
Proof.
  rewrite (forward_order unit unit _ _ _ _ (tensor Qc) unit
             base_extract_img_feature base_extract_text_feature Toy.addition
             Toy.self [Some tt] [Some tt] _ _ _ _ eq_refl eq_refl).
  vm_compute. reflexivity.
Defined.


(** X15 on the small model: under the addition composer a batch without
    image and text raises the assertion error, and nothing is called. *)
Lemma forward_all_none_witness :
  Composition.forward base_extract_img_feature base_extract_text_feature
    Toy.addition Toy.self (Some [None; None]) (Some [None; None])
  = ([], Err (AssertionError "No images or text available")).
Proof.
  rewrite (forward_all_none unit unit (tensor Qc) (tensor Qc) (tensor Qc) unit
             Toy.addition Toy.self [None; None] [None; None] eq_refl eq_refl).
  reflexivity.
Defined.

Lemma default_backbones_witness :
  base_extract_img_feature
    (init (F := Qc) (Img := unit) (Txt := unit) (Loss := unit) (Labels := unit)
       (fun x : unit => Ok x) (fun s _ _ => Ok tt) None None) [Some tt]
  = ([CallImageModel unit unit [Some tt]],
     Err (AttributeError "'NoneType' object has no attribute 'values'")).
Proof.
  apply (default_backbones unit unit unit unit unit unit
           (fun x : unit => Ok x) (fun s _ _ => Ok tt) [Some tt] [Some tt]
           eq_refl eq_refl).
Defined.

End ForwardSpec.
(** * Construction *)

Module ConstructionSpec.
Section Spec.
Variable V : Type.
Variable none : V.
Variable Obj : Type.

(** X17. [Concat.__init__] raises [TypeError] on every input: it passes
    [texts] and [loss] by position to the constructor of the base class,
    which binds [loss] to [image_model], and passes [image_model] again by
    keyword.  Nothing of the rest of the constructor is run. *)
Theorem concat_init_raises (base_body : list (string * V) -> result Obj)
    (rest : Obj -> V -> V -> result Obj) (self texts loss embed_dim dropout : V) :
  Construction.concat_init V none Obj base_body rest self texts loss embed_dim dropout
  = Err (TypeError "got multiple values for argument image_model").
Proof. reflexivity. Qed.

(** X18. [MAAF.from_config] raises [TypeError] on every configuration: it
    passes the keyword [embed_dim] to a constructor whose parameter is
    named [model_dim].  The body of the constructor is not run. *)
Theorem from_config_raises (d512 d8 d256 d01 d1 rwpool : V)
    (body : list (string * V) -> result Obj) (self loss : V)
    (cfg : Construction.config V) (image_model text_model : V) :
  Construction.from_config V none Obj d512 d8 d256 d01 d1 rwpool body
    self loss cfg image_model text_model
  = Err (TypeError "got an unexpected keyword argument embed_dim").
Proof. reflexivity. Qed.

(** The base constructor itself accepts a head and two backbones, by
    position or by keyword. *)
Lemma base_init_binds (body : list (string * V) -> result Obj)
    (self head image_model text_model : V) :
  Construction.base_init V none Obj body [self; head]
    [("image_model", image_model); ("text_model", text_model)]
  = body [("self", self); ("head", head); ("image_model", image_model);
          ("text_model", text_model)]
  /\ Construction.base_init V none Obj body [self; head] []
     = body [("self", self); ("head", head); ("image_model", none);
             ("text_model", none)].
Proof. split; reflexivity. Qed.
End Spec.
End ConstructionSpec.
(** * The other composers *)

Module ComposersSpec.
Import TorchFacts TorchOps Shapes Sequences ImgTextCompositionBase.
Section Spec.
Context {F : Type} {S : Scalar F}.

(** X19. [Concat.compose] returns the text embedding when there is no
    image embedding, [None] included, and the image embedding when there is
    no text embedding; on embeddings of [D1] and [D2] features it applies
    its block to the matrix that holds, in each row, the [D1] features of
    the image followed by the [D2] features of the text. *)
Theorem concat_compose (model : tensor F -> result (tensor F))
    (img_emb text_emb : tensor F) (B D1 D2 : nat) :
  shape img_emb = [B; D1] -> shape text_emb = [B; D2] ->
  (forall t, Concat.compose model None t = Ok t)
  /\ Concat.compose model (Some img_emb) None = Ok (Some img_emb)
  /\ Concat.compose model (Some img_emb) (Some text_emb)
     = (r <- model (tabulate [B; D1 + D2] (fun idx =>
                      if nth 1 idx 0 <? D1 then item img_emb idx
                      else item text_emb [nth 0 idx 0; nth 1 idx 0 - D1])) ;;
        Ok (Some r)).
Proof.
  intros Hi Ht. repeat split. unfold Concat.compose.
  rewrite cat_pair by (unfold rank; rewrite Hi; simpl; lia).
  now rewrite (cat2_1_2d img_emb text_emb B D1 D2).
Qed.

(** X20. [TIRG.compose] returns [None] when both embeddings are [None];
    with a text and no image it raises [TypeError], and with embeddings of
    different batch sizes it fails in [torch.cat], in both cases before a
    layer is applied. *)
Theorem tirg_edges (a : tensor F)
    (gate_layers res_layers : tensor F -> result (tensor F))
    (img_emb text_emb : tensor F) (B1 B2 D1 D2 : nat) :
  shape img_emb = [B1; D1] -> shape text_emb = [B2; D2] -> B1 <> B2 ->
  TIRG.compose a gate_layers res_layers None None = Ok None
  /\ TIRG.compose a gate_layers res_layers None (Some text_emb)
     = Err (TypeError "expected Tensor as element 0 in argument 0, but got NoneType")
  /\ TIRG.compose a gate_layers res_layers (Some img_emb) (Some text_emb)
     = Err (RuntimeError "sizes of tensors must match except in the cat dimension").
Proof.
  intros Hi Ht Hne. repeat split.
  unfold TIRG.compose, TIRG.gated_feature_composer, TIRG.ConCatModule_forward.
  rewrite cat_pair by (unfold rank; rewrite Hi; simpl; lia).
  unfold cat2. rewrite Hi, Ht. cbn [upd].
  replace (shape_eqb [B1; 0] [B2; 0]) with false; [reflexivity|].
  symmetry. destruct (shape_eqb [B1; 0] [B2; 0]) eqn:E; [|reflexivity].
  apply shape_eqb_eq in E. injection E as E. lia.
Qed.

(** X21. [SimpleModelTextOnly.compose] ignores the image embedding.  It
    pools an embedding of three dimensions with its mask as [MAAF.pool_text]
    does, returns a pair whose embedding is a matrix as it is, returns a
    plain matrix of one row or more as it is, and raises on [None] and on
    a plain matrix of no row. *)
Theorem text_only_compose (pool_rows : tensor F -> tensor F -> result (tensor F))
    (img_emb : option (tensor F)) (emb3 emb2 : tensor F) (mask : tensor Z)
    (B T D : nat) :
  shape emb3 = [B; T; D] -> shape emb2 = [B; D] ->
  SimpleModelTextOnly.compose pool_rows img_emb (TextMasked emb3 mask)
  = (r <- MAAF.pool_text emb3 mask ;; Ok (TextPlain r))
  /\ SimpleModelTextOnly.compose pool_rows img_emb (TextMasked emb2 mask)
     = Ok (TextMasked emb2 mask)
  /\ SimpleModelTextOnly.compose pool_rows img_emb (TextPlain emb2)
     = (if B =? 0 then Err (IndexError "index out of range")
        else Ok (TextPlain emb2))
  /\ SimpleModelTextOnly.compose pool_rows img_emb TextNone
     = Err (TypeError "'NoneType' object is not subscriptable").
Proof.
  intros H3 H2. unfold SimpleModelTextOnly.compose, rank, select0.
  rewrite H3, H2. repeat split.
  destruct B; reflexivity.
Qed.
End Spec.

Section Random.
Context {F : Type} {S : Scalar F}.
Variables Img Txt Rng : Type.
Variable rand : Rng -> nat -> list F * Rng.

Lemma extract_feature_shape {A : Type} (g : Rng) (xs : list (option A)) :
  exists e g',
    RandomComposition.extract_feature Rng rand g xs = Ok (e, g')
    /\ (all_none xs = true -> e = None)
    /\ (all_none xs = false ->
        exists x, e = Some x /\ shape x = [length xs; 512]).
Proof.
  unfold RandomComposition.extract_feature, RandomComposition.guess.
  destruct (all_none xs).
  - exists None, g. repeat split; [discriminate].
  - cbn [bind]. destruct (rand g (length xs * 512)) as [l g'].
    eexists _, g'. split; [reflexivity|]. split; [discriminate|].
    intros _. eexists. split; reflexivity.
Qed.

(** X22. [RandomComposition.forward] returns a matrix of 512 columns with
    one row per image when the batch holds an image, and one row per text
    when it holds no image and a text; on a batch that holds neither it
    raises [TypeError], the length of [None] being taken. *)
Theorem random_forward (g : Rng) (images : list (option Img))
    (texts : list (option Txt)) :
  (all_none images = false ->
   exists r g', RandomComposition.forward Img Txt Rng rand g images texts = Ok (r, g')
     /\ shape r = [length images; 512])
  /\ (all_none images = true -> all_none texts = false ->
      exists r g', RandomComposition.forward Img Txt Rng rand g images texts = Ok (r, g')
        /\ shape r = [length texts; 512])
  /\ (all_none images = true -> all_none texts = true ->
      RandomComposition.forward Img Txt Rng rand g images texts
      = Err (TypeError "object of type 'NoneType' has no len()")).
Proof.
  unfold RandomComposition.forward.
  destruct (extract_feature_shape g images) as (e1 & g1 & -> & Hn1 & Hs1).
  cbn [bind fst snd].
  destruct (extract_feature_shape g1 texts) as (e2 & g2 & -> & Hn2 & Hs2).
  cbn [bind fst snd]. unfold RandomComposition.compose, RandomComposition.guess.
  split; [|split].
  - intros H. destruct (Hs1 H) as (x & -> & Hx).
    unfold RandomComposition.len_emb, RandomComposition.len_tensor. rewrite Hx.
    cbn [bind]. destruct (rand g2 _) as [l g']. eexists _, _. split; reflexivity.
  - intros H1 H2. rewrite (Hn1 H1). destruct (Hs2 H2) as (x & -> & Hx).
    unfold RandomComposition.len_emb, RandomComposition.len_tensor. rewrite Hx.
    cbn [bind]. destruct (rand g2 _) as [l g']. eexists _, _. split; reflexivity.
  - intros H1 H2. rewrite (Hn1 H1), (Hn2 H2). reflexivity.
Qed.
End Random.

Lemma concat_compose_witness :
  Concat.compose (fun x => Ok x) (Some (tensor_of [1; 2] [1; 2]%Z))
    (Some (tensor_of [1; 1] [3]%Z))
  = Ok (Some (tensor_of [1; 3] [1; 2; 3]%Z)).
Proof.
  destruct (concat_compose (fun x => Ok x) (tensor_of [1; 2] [1; 2]%Z)
              (tensor_of [1; 1] [3]%Z) 1 2 1 eq_refl eq_refl) as (_ & _ & H).
  rewrite H. reflexivity.
Defined.

Lemma tirg_edges_witness :
  TIRG.compose (tensor_of [4] [1; 10; 1; 1]%Z) (fun x => Ok x) (fun x => Ok x)
    (Some (tensor_of [1; 2] [1; 2]%Z)) (Some (tensor_of [2; 2] [1; 2; 3; 4]%Z))
  = Err (RuntimeError "sizes of tensors must match except in the cat dimension").
Proof.
  apply (tirg_edges (tensor_of [4] [1; 10; 1; 1]%Z) (fun x => Ok x) (fun x => Ok x)
           (tensor_of [1; 2] [1; 2]%Z) (tensor_of [2; 2] [1; 2; 3; 4]%Z) 1 2 2 2
           eq_refl eq_refl).
  lia.
Defined.

Lemma text_only_compose_witness :
  SimpleModelTextOnly.compose (fun x _ => Ok x) None
    (TextPlain (tensor_of [1; 2] [1; 2]%Z))
  = Ok (TextPlain (tensor_of [1; 2] [1; 2]%Z))
  /\ SimpleModelTextOnly.compose (fun x _ => Ok x) None
       (TextMasked (tensor_of [1; 2; 2] [1; 2; 3; 4]%Z) (mkTensor [1; 2] [1; 0]%Z))
     = Ok (TextPlain (tensor_of [1; 2] [1; 2]%Z)).
Proof.
  destruct (text_only_compose (fun x _ => Ok x) None
              (tensor_of [1; 2; 2] [1; 2; 3; 4]%Z) (tensor_of [1; 2] [1; 2]%Z)
              (mkTensor [1; 2] [1; 0]%Z) 1 2 2 eq_refl eq_refl)
    as (H1 & _ & H3 & _).
  split; [exact H3|]. rewrite H1. vm_compute. reflexivity.
Defined.

End ComposersSpec.
(** * MixedPositionalEncoder: edges *)

Module MixedEdges.
Import TorchFacts TorchOps Shapes Sequences PoolText MixedSpec.
Import MixedPositionalEncoder.
Section Spec.
Context {F : Type} {S : Scalar F}.
Variable encoder : tensor F -> tensor Z -> result (tensor F).
Variable dropout : tensor F -> tensor F.
Variable learned_init : list nat -> F.

(** X23. The constructor raises [ZeroDivisionError] on an [embed_dim] of
    0, whatever the other arguments are. *)
Theorem init_zero_dim (learned_positions max_len : nat) :
  init learned_init learned_positions 0 max_len
  = Err (ZeroDivisionError "float division by zero").
Proof. reflexivity. Qed.

(** X24. The constructor fails on every odd [embed_dim] from 3 on: the
    cosines have one column more than the odd columns of the table. *)
Theorem init_odd_dim (learned_positions max_len h : nat) :
  0 < h ->
  init learned_init learned_positions (2 * h + 1) max_len
  = Err (RuntimeError
           "shape mismatch: value cannot be broadcast to indexing result").
Proof.
  intros Hh. unfold init, sinusoidal_table.
  replace (2 * h + 1 =? 0) with false by (symmetry; apply Nat.eqb_neq; lia).
  cbn [bind].
  assert (H0 : (2 * h + 1 + 1) / 2 = h + 1)
    by (symmetry; apply (Nat.div_unique (2 * h + 1 + 1) 2 (h + 1) 0); lia).
  assert (H1 : (2 * h + 1 - 1 + 1) / 2 = h)
    by (symmetry; apply (Nat.div_unique (2 * h + 1 - 1 + 1) 2 h 1); lia).
  rewrite H0, angles_even. cbn [bind]. rewrite !tmap_tabulate.
  rewrite (assign_stride2_columns 0 _ _ max_len (2 * h + 1))
    by (rewrite ?shape_tabulate, ?Nat.sub_0_r, ?H0; reflexivity).
  cbn [bind]. unfold assign_stride2. rewrite !shape_tabulate, H1.
  unfold broadcast_shapes. simpl rev. cbn [app bshape_rev].
  unfold bdim at 1.
  replace (h + 1 =? h) with false by (symmetry; apply Nat.eqb_neq; lia).
  replace (h + 1 =? 1) with false by (symmetry; apply Nat.eqb_neq; lia).
  destruct (h =? 1) eqn:E.
  - rewrite bdim_same. cbn [option_map rev app].
    replace (shape_eqb [max_len; h + 1] [max_len; h]) with false; [reflexivity|].
    symmetry. destruct (shape_eqb [max_len; h + 1] [max_len; h]) eqn:E'; [|reflexivity].
    apply shape_eqb_eq in E'. injection E' as E'. lia.
  - reflexivity.
Qed.

(** X25. On every even [embed_dim] from 2 on the constructor returns, and
    the fixed table [pe] holds at position [pos] the sine, in column
    [2 i], and the cosine, in column [2 i + 1], of
    [pos * exp(2 i * -(log(10000) / embed_dim))]. *)
Theorem init_sinusoidal (learned_positions embed_dim max_len : nat) :
  Nat.even embed_dim = true -> 0 < embed_dim ->
  exists self,
    init learned_init learned_positions embed_dim max_len = Ok self
    /\ shape (pe self) = [max_len; embed_dim]
    /\ forall pos col, pos < max_len -> col < embed_dim ->
         item (pe self) [pos; col] = Reference.sinusoid embed_dim pos col.
Proof.
  intros Heven Hpos.
  destruct (init_even learned_init learned_positions embed_dim max_len Heven Hpos)
    as [self Hs].
  exists self. split; [assumption|].
  destruct (init_table _ _ _ _ _ Hs) as [Hpe _].
  rewrite sinusoidal_table_even in Hpe by assumption. injection Hpe as Hpe.
  rewrite <- Hpe. split; [reflexivity|]. intros pos col Hp Hc.
  now rewrite item_tabulate by (apply in_range2; exists pos, col; auto).
Qed.

Lemma broadcast_row (B n E : nat) :
  broadcast_shapes [B; n; E] [1; 1; E] = Some [B; n; E].
Proof.
  unfold broadcast_shapes. simpl. now rewrite bdim_same, !bdim_1_r.
Qed.

(** X26. A table of one row is added to every position of a sequence of
    any length: the slice is clamped to the row and the addition
    broadcasts it. *)
Theorem forward_one_row (self : t) (xx : tensor F) (mask : tensor Z)
    (B n E : nat) :
  shape xx = [B; n; E] -> shape (pos_embed self) = [1; 1; E] -> 0 < n ->
  forward encoder dropout self xx mask
  = encoder (dropout (tabulate [B; n; E] (fun idx =>
               fadd (item xx idx) (item (pos_embed self) [0; 0; nth 2 idx 0]))))
            mask.
Proof.
  intros Hx Hp Hn. unfold forward, dim_size, rank, size. rewrite Hx.
  change (1 <? length [B; n; E]) with true. cbn [bind nth].
  unfold slice1_to, rank, size, narrow. rewrite Hp.
  change (2 <=? length [1; 1; E]) with true. cbn [bind nth upd].
  rewrite Nat.min_r by lia.
  unfold Torch.add, binop. rewrite Hx, shape_tabulate, broadcast_row. cbn [bind].
  apply (f_equal (fun v => encoder (dropout v) mask)). apply tabulate_ext.
  intros idx Hr. rewrite bidx_same by assumption.
  apply in_range3 in Hr. destruct Hr as (b & p & c & -> & Hb & Hpn & Hc).
  apply f_equal. unfold bidx. cbn [length Nat.sub skipn combine map fst snd Nat.eqb].
  rewrite bidx_one by assumption. cbn [nth].
  now rewrite item_tabulate by (apply in_range3; exists 0, 0, c; repeat split; auto; lia).
Qed.

(** X27. [forward] raises [IndexError] on an input of one dimension, and
    fails in the addition on an input whose feature width is neither 1 nor
    that of the table, when the table's is not 1; the encoder is then not
    run. *)
Theorem forward_bad_input (self : t) (x1 xx : tensor F) (mask : tensor Z)
    (n B E E' K : nat) :
  shape x1 = [n] -> shape xx = [B; n; E'] ->
  shape (pos_embed self) = [1; K; E] ->
  E' <> E -> E' <> 1 -> E <> 1 ->
  forward encoder dropout self x1 mask
  = Err (IndexError "dimension out of range")
  /\ forward encoder dropout self xx mask
     = Err (RuntimeError "shapes cannot be broadcast").
Proof.
  intros H1 Hx Hp Hne HE' HE. split.
  - unfold forward, dim_size, rank. now rewrite H1.
  - unfold forward, dim_size, rank, size. rewrite Hx.
    change (1 <? length [B; n; E']) with true. cbn [bind nth].
    unfold slice1_to, rank, size, narrow. rewrite Hp.
    change (2 <=? length [1; K; E]) with true. cbn [bind nth upd].
    unfold Torch.add, binop. rewrite Hx, shape_tabulate.
    unfold broadcast_shapes. simpl rev. cbn [app bshape_rev].
    unfold bdim at 1.
    replace (E' =? E) with false by (symmetry; apply Nat.eqb_neq; lia).
    replace (E' =? 1) with false by (symmetry; apply Nat.eqb_neq; lia).
    replace (E =? 1) with false by (symmetry; apply Nat.eqb_neq; lia).
    reflexivity.
Qed.
End Spec.

Lemma init_odd_dim_witness :
  init (fun _ => q 0) 1 3 2
  = Err (RuntimeError
           "shape mismatch: value cannot be broadcast to indexing result").
Proof. apply (init_odd_dim (fun _ => q 0) 1 2 1). lia. Defined.

Lemma init_sinusoidal_witness :
  exists self,
    init (fun _ => q 7) 1 2 3 = Ok self
    /\ shape (pe self) = [3; 2]
    /\ item (pe self) [2; 1] = Reference.sinusoid 2 2 1.
Proof.
  destruct (init_sinusoidal (fun _ => q 7) 1 2 3 eq_refl ltac:(lia))
    as (self & Hs & Hsh & Hi).
  exists self. split; [exact Hs|]. split; [exact Hsh|]. apply Hi; lia.
Defined.

Lemma forward_one_row_witness :
  exists self r,
    init (fun _ => q 5) 1 2 0 = Ok self
    /\ forward (fun x _ => Ok x) (fun x => x) self
         (tensor_of [1; 2; 2] [1; 2; 3; 4]%Z) (mkTensor [1; 2] [1; 1]%Z) = Ok r
    /\ values r = [6 # 1; 7 # 1; 8 # 1; 9 # 1]%Q.
Proof.
  destruct (init_even (fun _ => q 5) 1 2 0 eq_refl ltac:(lia)) as [self Hs].
  exists self. eexists. split; [exact Hs|].
  assert (Hp : pos_embed self = tensor_of [1; 1; 2] [5; 5]%Z).
  { vm_compute in Hs. injection Hs as <-. reflexivity. }
  rewrite (forward_one_row (fun x _ => Ok x) (fun x => x) self
             (tensor_of [1; 2; 2] [1; 2; 3; 4]%Z) (mkTensor [1; 2] [1; 1]%Z) 1 2 2
             eq_refl ltac:(rewrite Hp; reflexivity) ltac:(lia)).
  rewrite Hp. split; [reflexivity|]. vm_compute. reflexivity.
Defined.

Lemma forward_bad_input_witness :
  exists self,
    init (fun _ => q 5) 1 2 2 = Ok self
    /\ forward (fun x _ => Ok x) (fun x => x) self
         (tensor_of [3] [1; 2; 3]%Z) (mkTensor [1; 3] [1; 1; 1]%Z)
       = Err (IndexError "dimension out of range").
Proof.
  destruct (init_even (fun _ => q 5) 1 2 2 eq_refl ltac:(lia)) as [self Hs].
  exists self. split; [exact Hs|].
  assert (Hp : shape (pos_embed self) = [1; 3; 2]).
  { vm_compute in Hs. injection Hs as <-. reflexivity. }
  apply (forward_bad_input (fun x _ => Ok x) (fun x => x) self
           (tensor_of [3] [1; 2; 3]%Z) (tensor_of [1; 3; 3] [1; 2; 3; 4; 5; 6; 7; 8; 9]%Z)
           (mkTensor [1; 3] [1; 1; 1]%Z) 3 1 2 3 3 eq_refl eq_refl Hp); lia.
Defined.

End MixedEdges.
(** * ResidualMAAF.compose: errors *)

Module ResidualEdges.
Import ImgTextCompositionBase.
Section Spec.
Context {F : Type} {S : Scalar F}.
Variable model : tensor F -> tensor Z -> result (tensor F).
Variable output : string.
Variable resolutionwise_pool : tensor F -> result (tensor F).

Local Notation "'compose'" :=
  (ResidualMAAF.compose model output resolutionwise_pool).
Local Notation "'maaf_compose'" :=
  (MAAF.compose model output resolutionwise_pool).

(** X28. The errors of [ResidualMAAF.compose] come in the order of the
    source: a mapping without "projections" raises [KeyError] before the
    encoder is run; a failure of [MAAF.compose] is raised as it is, whether
    "fc" is there or not; and a mapping without "fc" raises [KeyError] once
    [MAAF.compose] has returned.  Without image and text the error is that
    of [MAAF.compose]. *)
Theorem compose_errors (img_feat : list (string * tensor F))
    (text_emb : option (tensor F * tensor Z)) :
  (forall e, getitem img_feat "projections" = Err e ->
     compose (Some img_feat) text_emb = Err e)
  /\ (forall projections e,
        getitem img_feat "projections" = Ok projections ->
        maaf_compose (Some projections) text_emb = Err e ->
        compose (Some img_feat) text_emb = Err e)
  /\ (forall projections maaf_feat e,
        getitem img_feat "projections" = Ok projections ->
        maaf_compose (Some projections) text_emb = Ok maaf_feat ->
        getitem img_feat "fc" = Err e ->
        compose (Some img_feat) text_emb = Err e)
  /\ compose None None
     = Err (RuntimeError "expected a non-empty list of tensors").
Proof.
  unfold ResidualMAAF.compose. repeat split.
  - intros e ->. reflexivity.
  - intros p e Hp Hm. rewrite Hp. cbn [bind]. now rewrite Hm.
  - intros p mf e Hp Hm Hfc. rewrite Hp. cbn [bind]. rewrite Hm. cbn [bind].
    now rewrite Hfc.
Qed.
End Spec.

Lemma compose_errors_witness :
  ResidualMAAF.compose (fun x _ => Ok x) "mean" (fun x => Ok x)
    (Some [("projections", tensor_of [1; 1; 1] [2]%Z)]) None
  = Err (KeyError "fc").
Proof.
  destruct (compose_errors (fun x _ => Ok x) "mean" (fun x => Ok x)
              [("projections", tensor_of [1; 1; 1] [2]%Z)] None)
    as (_ & _ & H & _).
  apply (H (tensor_of [1; 1; 1] [2]%Z) (tensor_of [1; 1] [2]%Z)); reflexivity.
Defined.

End ResidualEdges.
(** * ResidualMAAF.extract_img_feature *)

Module ResidualExtract.
Import ImgTextCompositionBase.
Section Spec.
Context {F : Type} {S : Scalar F}.
Variables Img Txt : Type.
Variable image_model : list (option Img) -> @image_out F.

(** X29. [ResidualMAAF.extract_img_feature] returns [None] without a call
    of the backbone if and only if every element of the batch is [None];
    otherwise it calls the backbone once and returns its whole output, the
    mapping that holds "projections" and "fc". *)
Theorem residual_extract (imgs : list (option Img)) :
  (ResidualMAAF.extract_img_feature Img Txt image_model imgs = ([], None)
   <-> Forall (fun x => x = None) imgs)
  /\ (all_none imgs = false ->
      ResidualMAAF.extract_img_feature Img Txt image_model imgs
      = ([CallImageModel Img Txt imgs], Some (image_model imgs))).
Proof.
  unfold ResidualMAAF.extract_img_feature.
  rewrite <- ExtractSpec.all_none_Forall.
  destruct (all_none imgs); repeat split; intros; try reflexivity; discriminate.
Qed.
End Spec.
End ResidualExtract.
